(** * pypdepsim: similarity and co-occurrence ranking engine

    A shallow embedding of the ranking core of the repository
    (lib/jaccard.ts, lib/jaccardBitset.ts, lib/config.ts, lib/similar.ts,
    lib/seeds.ts, lib/pypi.ts, lib/cache.ts and the route
    GET /api/similar/<pkg> of app/api/meta/[pkg]/route.ts) together with the
    properties the specification states about it.

    Conventions of the embedding.
    - A JavaScript [number] is an IEEE-754 binary64 value.  A finite number
      is represented by its exact value, a rational ([Q]) in lowest terms;
      an operation that rounds ([/], [*], reading a decimal) is the exact
      operation followed by [double], the rounding to the nearest binary64
      value, ties to even.  The exponent range is not bounded (no overflow
      to an infinity, no subnormal numbers), and the two zeros are one.
      [NaN] and the infinities appear only where the route reads its
      [limit] parameter ([JsNumber]).
    - [limit] is a number wherever the sources take one: it may be
      fractional or negative.  Lengths and counts are integers ([Z]) or
      naturals where they index a list.
    - A [Set<string>] is the list of its members in insertion order, without
      duplicates; [Array.from(s)] is that list.
    - A plain object used as a dictionary ([ReverseDepsCache]) is a
      [gmap string (list string)].
    - Package names are ASCII strings; [<] and [===] on strings are the
      lexicographic order and equality of [String]. *)

From Stdlib Require Import QArith Qround Qpower Lqa ZArith Lia.
From Stdlib Require Import String Ascii OrderedTypeEx Sorted Permutation.
From stdpp Require Import base list gmap strings pretty.

#[local] Set Warnings "-clear-no-such-hyp".
Open Scope Z_scope.

(* ===================================================================== *)
(** * Part I: the program                                                *)
(* ===================================================================== *)

(** ** JavaScript primitives used by the sources *)

(** *** Comparisons

    [x <= y], [x < y] and [x >= y] on numbers. *)
Definition num_leb (x y : Q) : bool := Qle_bool x y.
Definition num_ltb (x y : Q) : bool := negb (Qle_bool y x).
Definition num_geb (x y : Q) : bool := Qle_bool y x.

(** [Math.max(x, y)] and [Math.min(x, y)]. *)
Definition num_max (x y : Q) : Q := if Qle_bool x y then y else x.
Definition num_min (x y : Q) : Q := if Qle_bool x y then x else y.

(** A length or a count, as a number. *)
Definition num_of_nat (n : nat) : Q := inject_Z (Z.of_nat n).

(** [ToIntegerOrInfinity(x)]: [x] without its fraction. *)
Definition toInteger (x : Q) : Z := if Qle_bool 0 x then Qfloor x else Qceiling x.

(** *** IEEE-754 binary64

    A finite number is represented by its exact value.  [double x] is the
    number nearest to the real [x], the one with the even significand when
    two are equally near (roundTiesToEven): for [2^e <= |x| < 2^(e+1)] the
    multiple of [2^(e-52)] nearest to [x].  The result is in lowest terms,
    so that equal numbers are equal terms. *)

(** The integer nearest to [x], the even one when two are equally near. *)
Definition round_half_even (x : Q) : Z :=
  let f := Qfloor x in
  match (x - inject_Z f ?= 1 # 2)%Q with
  | Lt => f
  | Gt => f + 1
  | Eq => if Z.even f then f else f + 1
  end.

(** The binary exponent of [x > 0]: the [e] with [2^e <= x < 2^(e+1)]
    ([ilog2_spec]). *)
Definition ilog2 (x : Q) : Z :=
  let d := Z.log2 (Qnum x) - Z.log2 (Zpos (Qden x)) in
  if Qle_bool (2 ^ d) x then d else d - 1.

Definition double_pos (x : Q) : Q :=
  let e := ilog2 x in
  Qred (inject_Z (round_half_even (x * 2 ^ (52 - e))) * 2 ^ (e - 52))%Q.

Definition double (x : Q) : Q :=
  match (x ?= 0)%Q with
  | Eq => 0%Q
  | Gt => double_pos x
  | Lt => Qopp (double_pos (Qopp x))
  end.

(** [a / b] on two integers held in numbers: the quotient, rounded.  (The
    sources divide by counts they have tested to be positive.) *)
Definition num_div (a b : Z) : Q := double (inject_Z a / inject_Z b)%Q.

(** [x * y]: the product, rounded. *)
Definition num_mul (x y : Q) : Q := double (x * y)%Q.

(** The number a decimal literal or a decimal string denotes: [0.001] is
    [decimal 1 1000]. *)
Definition decimal (n : Z) (d : positive) : Q := double (n # d).

(** [Number(x.toFixed(6))].  For [0 <= x < 10^21], [x.toFixed(6)] writes
    the [n / 10^6] nearest to [x], with the larger [n] when two are equally
    near, and [Number] reads it back as the nearest number; from [10^21] on
    the string is [String(x)], which reads back as [x]; a negative [x] is
    written as the minus sign followed by the digits of [-x] (ECMA-262,
    Number.prototype.toFixed). *)
Definition toFixed6_abs (x : Q) : Q :=
  if Qle_bool (inject_Z (10 ^ 21)) x then Qred x
  else double (inject_Z (Qfloor (x * inject_Z 1000000 + (1 # 2))) / inject_Z 1000000)%Q.

Definition toFixed6 (x : Q) : Q :=
  if Qle_bool 0 x then toFixed6_abs x else Qopp (toFixed6_abs (Qopp x)).

(** [s.has(x)] on a [Set<string>]. *)
Definition Set_has (s : list string) (x : string) : bool := bool_decide (x ∈ s).

(** [s.add(x)]: a new member goes last, a present one keeps its place. *)
Definition Set_add (s : list string) (x : string) : list string :=
  if Set_has s x then s else s ++ [x].

(** [new Set(arr)]. *)
Definition Set_from (arr : list string) : list string := foldl Set_add [] arr.

(** [s.size]. *)
Definition Set_size (s : list string) : Z := Z.of_nat (length s).

(** [arr.sort()] with the default comparator on an array of strings:
    ascending by code units.  The result of sorting by a total order is
    determined up to the placement of equal elements, which for strings are
    indistinguishable, so the sorting algorithm is immaterial. *)
Fixpoint sort_insert (x : string) (l : list string) : list string :=
  match l with
  | [] => [x]
  | y :: l' => if String.leb x y then x :: l else y :: sort_insert x l'
  end.

Definition Array_sort (arr : list string) : list string := foldr sort_insert [] arr.

(** ** lib/jaccard.ts *)

Record JaccardResult := mkJaccardResult {
  score : Q;
  shared : Z;
  unionSize : Z;
}.

(** The two-pointer loop shared by [jaccardSimilarityOptimized],
    [jaccardBitset] and [intersectCount]:
<<
    while (i < arrA.length && j < arrB.length) {
      if (arrA[i] === arrB[j]) { shared += 1; i += 1; j += 1; }
      else if (arrA[i] < arrB[j]) { i += 1; } else { j += 1; }
    }
>>
    [la] is [arrA] from index [i] on, [lb] is [arrB] from index [j] on. *)
Fixpoint twoPointer {A : Type} (eqb ltb : A → A → bool)
    (la : list A) : list A → Z → Z :=
  fix inner (lb : list A) (acc : Z) : Z :=
    match la, lb with
    | x :: la', y :: lb' =>
        if eqb x y then twoPointer eqb ltb la' lb' (acc + 1)
        else if ltb x y then twoPointer eqb ltb la' lb acc
        else inner lb' acc
    | _, _ => acc
    end.

Definition jaccardSimilarityOptimized (a b : list string) : JaccardResult :=
  let arrA := Array_sort a in
  let arrB := Array_sort b in
  let shared := twoPointer String.eqb String.ltb arrA arrB 0 in
  let unionSize := Z.of_nat (length arrA) + Z.of_nat (length arrB) - shared in
  let score := if 0 <? unionSize then num_div shared unionSize else 0%Q in
  mkJaccardResult score shared unionSize.

Definition jaccardSimilarityStandard (a b : list string) : JaccardResult :=
  let shared := foldl (λ sh x, if Set_has b x then sh + 1 else sh) 0 a in
  let unionSize := Set_size a + Set_size b - shared in
  let score := if 0 <? unionSize then num_div shared unionSize else 0%Q in
  mkJaccardResult score shared unionSize.

Definition jaccardSimilarity (a b : list string) : JaccardResult :=
  let THRESHOLD := 100 in
  if (Set_size a <? THRESHOLD) && (Set_size b <? THRESHOLD)
  then jaccardSimilarityStandard a b
  else jaccardSimilarityOptimized a b.

(** ** lib/similar.ts: [canMeetThreshold] *)

Definition canMeetThreshold (candidateSize baseSize : Z) (minJaccard : Q) : bool :=
  if (candidateSize =? 0) || (baseSize =? 0) then false
  else
    let maxPossibleIntersection := Z.min candidateSize baseSize in
    let minPossibleUnion := Z.max candidateSize baseSize in
    let maxPossibleJaccard := num_div maxPossibleIntersection minPossibleUnion in
    num_geb maxPossibleJaccard minJaccard.


(** ** lib/similar.ts: the bounded top-K structure of [computeSimilarOnDemand]

    [heap] is a local array of the function and [limit] its parameter; the
    helper closures mutate [heap] in place.  Here each helper takes the
    array and returns the updated array.  [limit] is a number: the route
    clamps it to the interval from 1 to 100 and does not round it. *)

Record SimilarItem := mkSimilarItem {
  name : string;
  jaccard : Q;
  sharedDependents : Z;
}.

(** [heapSwap(i, j)], for indices inside the array (the callers never pass
    others; outside the array nothing is changed here). *)
Definition heapSwap (heap : list SimilarItem) (i j : nat) : list SimilarItem :=
  match heap !! i, heap !! j with
  | Some t, Some u => <[j := t]> (<[i := u]> heap)
  | _, _ => heap
  end.

(** [heap[a].jaccard <= heap[b].jaccard] and [heap[a].jaccard < heap[b].jaccard]. *)
Definition heap_leb (heap : list SimilarItem) (a b : nat) : bool :=
  match heap !! a, heap !! b with
  | Some x, Some y => num_leb (jaccard x) (jaccard y)
  | _, _ => false
  end.

Definition heap_ltb (heap : list SimilarItem) (a b : nat) : bool :=
  match heap !! a, heap !! b with
  | Some x, Some y => num_ltb (jaccard x) (jaccard y)
  | _, _ => false
  end.

(** [heapSiftUp(i)]:
<<
    while (i > 0) {
      const p = Math.floor((i - 1) / 2);
      if (heap[p].jaccard <= heap[i].jaccard) break;
      heapSwap(i, p);
      i = p;
    }
>>
    Each iteration makes [i] smaller, so [i] iterations are enough: the
    loop counter below never runs out before the loop ends
    ([heapSiftUp_loop_fuel]). *)
Fixpoint heapSiftUp_loop (fuel : nat) (heap : list SimilarItem) (i : nat)
    : list SimilarItem :=
  match fuel with
  | O => heap
  | S fuel' =>
      if (0 <? i)%nat then
        let p := ((i - 1) / 2)%nat in
        if heap_leb heap p i then heap
        else heapSiftUp_loop fuel' (heapSwap heap i p) p
      else heap
  end.

Definition heapSiftUp (heap : list SimilarItem) (i : nat) : list SimilarItem :=
  heapSiftUp_loop i heap i.

(** [heapSiftDown(i)]:
<<
    const n = heap.length;
    while (true) {
      const l = 2 * i + 1;  const r = l + 1;  let m = i;
      if (l < n && heap[l].jaccard < heap[m].jaccard) m = l;
      if (r < n && heap[r].jaccard < heap[m].jaccard) m = r;
      if (m === i) break;
      heapSwap(i, m);
      i = m;
    }
>>
    Each iteration that does not break makes [i] larger and keeps it below
    [n], so [n] iterations are enough ([heapSiftDown_loop_fuel]). *)
Definition heapSiftDown_min (heap : list SimilarItem) (i : nat) : nat :=
  let n := length heap in
  let l := (2 * i + 1)%nat in
  let r := (l + 1)%nat in
  let m := i in
  let m := if (l <? n)%nat && heap_ltb heap l m then l else m in
  let m := if (r <? n)%nat && heap_ltb heap r m then r else m in
  m.

Fixpoint heapSiftDown_loop (fuel : nat) (heap : list SimilarItem) (i : nat)
    : list SimilarItem :=
  match fuel with
  | O => heap
  | S fuel' =>
      let m := heapSiftDown_min heap i in
      if (m =? i)%nat then heap
      else heapSiftDown_loop fuel' (heapSwap heap i m) m
  end.

Definition heapSiftDown (heap : list SimilarItem) (i : nat) : list SimilarItem :=
  heapSiftDown_loop (length heap) heap i.

(** [heapPushBounded(item)]:
<<
    if (heap.length < limit) {
      heap.push(item); heapSiftUp(heap.length - 1); return;
    }
    if (limit <= 0) return;
    if (heap[0].jaccard >= item.jaccard) return;
    heap[0] = item;
    heapSiftDown(0);
>> *)
Definition heapPushBounded (limit : Q) (heap : list SimilarItem)
    (item : SimilarItem) : list SimilarItem :=
  if num_ltb (num_of_nat (length heap)) limit then
    let heap := heap ++ [item] in
    heapSiftUp heap (length heap - 1)
  else if num_leb limit 0 then heap
  else
    match heap !! 0%nat with
    | Some root =>
        if num_geb (jaccard root) (jaccard item) then heap
        else heapSiftDown (<[0%nat := item]> heap) 0
    | None => heap
    end.

(** ** lib/jaccardBitset.ts

    A [Uint32Array] is the list of its elements. *)

Definition jaccardBitset (a b : list Z) : Q :=
  if (length a =? 0)%nat || (length b =? 0)%nat then 0%Q
  else
    let inter := twoPointer Z.eqb Z.ltb a b 0 in
    num_div inter (Z.of_nat (length a) + Z.of_nat (length b) - inter).

(** [intersectCount(a, b)]. *)
Definition intersectCount (a b : list Z) : Z :=
  if (length a =? 0)%nat || (length b =? 0)%nat then 0
  else twoPointer Z.eqb Z.ltb a b 0.

(** ** Strings of package names *)

Definition toLowerCase_ascii (c : ascii) : ascii :=
  let n := nat_of_ascii c in
  if (65 <=? n)%nat && (n <=? 90)%nat then ascii_of_nat (n + 32) else c.

Fixpoint string_map (f : ascii → ascii) (s : string) : string :=
  match s with
  | EmptyString => EmptyString
  | String c s' => String (f c) (string_map f s')
  end.

(** [s.toLowerCase()]. *)
Definition toLowerCase (s : string) : string := string_map toLowerCase_ascii s.

(** The character class [[-_.]]. *)
Definition is_dash_class (c : ascii) : bool :=
  (Ascii.eqb c "-" || Ascii.eqb c "_" || Ascii.eqb c ".")%char.

(** The character class [[-_.\/]]. *)
Definition is_split_class (c : ascii) : bool :=
  is_dash_class c || Ascii.eqb c "/"%char.

(** [name.toLowerCase().replace(/[-_.]/g, "-").toLowerCase()]. *)
Definition normalizePackageName (name : string) : string :=
  toLowerCase
    (string_map (λ c, if is_dash_class c then "-"%char else c) (toLowerCase name)).

(** [s.split(/[-_.\/]/)[0]]: the part of [s] before its first separator. *)
Fixpoint split_head (s : string) : string :=
  match s with
  | EmptyString => EmptyString
  | String c s' => if is_split_class c then EmptyString else String c (split_head s')
  end.

(** [parts[0] || whole] for [parts = whole.split(/[-_.\/]/)]. *)
Definition mainNameOf (whole : string) : string :=
  let head := split_head whole in
  if String.eqb head "" then whole else head.

(** [s.includes(sub)]. *)
Fixpoint includes (s sub : string) : bool :=
  String.prefix sub s ||
  match s with
  | EmptyString => false
  | String _ s' => includes s' sub
  end.

(** ** A [Map<string, V>]: its entries in insertion order; [set] on a
    present key keeps the entry's place. *)

Fixpoint Map_get {V : Type} (m : list (string * V)) (k : string) : option V :=
  match m with
  | [] => None
  | (k', v) :: m' => if String.eqb k' k then Some v else Map_get m' k
  end.

Fixpoint Map_set {V : Type} (m : list (string * V)) (k : string) (v : V)
    : list (string * V) :=
  match m with
  | [] => [(k, v)]
  | (k', v') :: m' =>
      if String.eqb k' k then (k, v) :: m' else (k', v') :: Map_set m' k v
  end.

(** ** [Array.prototype.sort(compare)], [slice(0, n)]

    The comparator's result is kept as its sign: [Lt] negative (first
    argument goes first), [Gt] positive, [Eq] zero.  The sort is stable
    (ECMA-262 since 2019); for a comparator that is a total preorder the
    sorted array is then determined, and this insertion sort computes it. *)

Fixpoint insert_by {A : Type} (cmp : A → A → comparison) (x : A) (l : list A)
    : list A :=
  match l with
  | [] => [x]
  | y :: l' =>
      match cmp x y with
      | Gt => y :: insert_by cmp x l'
      | _ => x :: l
      end
  end.

Definition Array_sortBy {A : Type} (cmp : A → A → comparison) (l : list A)
    : list A :=
  foldr (insert_by cmp) [] l.

(** [arr.slice(0, end)] (ECMA-262, Array.prototype.slice): with
    [relativeEnd] the integer part of [end], the elements before index
    [final], which is [max(len + relativeEnd, 0)] for a negative
    [relativeEnd] and [min(relativeEnd, len)] otherwise. *)
Definition sliceEnd (len : nat) (e : Q) : nat :=
  let relativeEnd := toInteger e in
  if relativeEnd <? 0 then Z.to_nat (Z.max (Z.of_nat len + relativeEnd) 0)
  else Z.to_nat (Z.min relativeEnd (Z.of_nat len)).

Definition Array_slice0 {A : Type} (arr : list A) (e : Q) : list A :=
  take (sliceEnd (length arr) e) arr.

(** The sign of [x - y] for integers and for numbers (the difference of
    two numbers, rounded, has the sign of the exact difference). *)
Definition sign_sub_Z (x y : Z) : comparison := Z.compare x y.
Definition sign_sub_Q (x y : Q) : comparison := Qcompare x y.

(** ** lib/config.ts

    Every value is read from the process environment with the default given
    in [defaultConfig]; the functions below take the configuration as a
    parameter.  The settings that count things or index arrays are natural
    numbers, as their defaults are (and so are the options the route
    passes, which it takes from these settings); thresholds and scores are
    numbers. *)

Record Config := mkConfig {
  (* LIMITS_CONFIG *)
  DEFAULT_MAX_DEPENDENTS_TO_SCAN : nat;
  DEFAULT_MAX_LIVE_CANDIDATES : nat;
  MAX_MAX_DEPENDENTS_TO_SCAN : nat;
  MAX_MAX_LIVE_CANDIDATES : nat;
  DEFAULT_TOP_SEARCH_LIMIT : nat;
  MAX_TOP_SEARCH_LIMIT : nat;
  MAX_CANDIDATES_TO_COLLECT : nat;
  EARLY_TERMINATE_CANDIDATES : nat;
  CANDIDATES_MULTIPLIER_PER_LIMIT : nat;
  MAX_PACKAGES_TO_CHECK_FORWARD_DEPS : nat;
  MAX_PACKAGES_TO_CHECK_COOCCUR : nat;
  COOCCUR_MULTIPLIER_PER_LIMIT : nat;
  MAX_POPULAR_FOR_NAME_BASED : nat;
  (* QUALITY_THRESHOLDS *)
  MIN_RESULTS_FOR_QUALITY : nat;
  MIN_TOP_SCORE_FOR_QUALITY : Q;
  MIN_JACCARD_SMALL_BASE : Q;
  MIN_JACCARD_MEDIUM_BASE : Q;
  MIN_JACCARD_BITSET_SMALL_BASE : Q;
  MIN_JACCARD_BITSET_MEDIUM_BASE : Q;
  MIN_SHARED_SMALL_BASE : Z;
  MIN_SHARED_MEDIUM_BASE : Z;
  RELAXED_JACCARD_VERY_SMALL : Q;
  RELAXED_JACCARD_SMALL : Q;
  RELAXED_JACCARD_MEDIUM : Q;
  RELAXED_JACCARD_MINIMUM : Q;
  MIN_RATIO_VERY_SMALL_DEPS : Q;
  MIN_RATIO_SMALL_DEPS : Q;
  MIN_RATIO_MEDIUM_DEPS : Q;
  MIN_RATIO_COOCCUR_VERY_SMALL_DEPS : Q;
  MIN_RATIO_COOCCUR_SMALL_DEPS : Q;
  MIN_RATIO_COOCCUR_MEDIUM_DEPS : Q;
  COOCCUR_MIN_JACCARD_DEFAULT : Q;
  COOCCUR_MIN_JACCARD_SMALL_BASE : Q;
  COOCCUR_MIN_JACCARD_MEDIUM_BASE : Q;
  DIRECT_DEPENDENCY_BOOST_SCORE : Q;
  NAME_BASED_FALLBACK_SCORE : Q;
  LOW_FETCH_SUCCESS_RATE_THRESHOLD : Q;
  LOW_FETCH_RATE_JACCARD_MULTIPLIER : Q;
  (* BASE_SIZE_THRESHOLDS *)
  BASE_VERY_SMALL : Z;
  BASE_SMALL : Z;
  BASE_MEDIUM : Z;
  BASE_LARGE : Z;
  (* DEPS_COUNT_THRESHOLDS *)
  DEPS_VERY_SMALL : Z;
  DEPS_SMALL : Z;
  (* PROGRESSIVE_REFINEMENT_CONFIG *)
  INITIAL_MAX_DEPENDENTS_TO_SCAN : nat;
  INITIAL_MAX_LIVE_CANDIDATES : nat;
  REFINEMENT_STEPS : list (nat * nat);
  (* PYPI_API_CONFIG *)
  MAX_RETRY_ATTEMPTS : nat;
  RETRY_INITIAL_DELAY_MS : Z;
  RETRY_MAX_DELAY_MS : Z;
  RETRY_JITTER_MS : Z;
}.

Definition defaultConfig : Config := {|
  DEFAULT_MAX_DEPENDENTS_TO_SCAN := 150;
  DEFAULT_MAX_LIVE_CANDIDATES := 200;
  MAX_MAX_DEPENDENTS_TO_SCAN := 1000;
  MAX_MAX_LIVE_CANDIDATES := 1000;
  DEFAULT_TOP_SEARCH_LIMIT := 250;
  MAX_TOP_SEARCH_LIMIT := 250;
  MAX_CANDIDATES_TO_COLLECT := 5000;
  EARLY_TERMINATE_CANDIDATES := 5000;
  CANDIDATES_MULTIPLIER_PER_LIMIT := 15;
  MAX_PACKAGES_TO_CHECK_FORWARD_DEPS := 300;
  MAX_PACKAGES_TO_CHECK_COOCCUR := 200;
  COOCCUR_MULTIPLIER_PER_LIMIT := 10;
  MAX_POPULAR_FOR_NAME_BASED := 100;
  MIN_RESULTS_FOR_QUALITY := 10;
  MIN_TOP_SCORE_FOR_QUALITY := decimal 1 20;
  MIN_JACCARD_SMALL_BASE := decimal 1 1000;
  MIN_JACCARD_MEDIUM_BASE := decimal 1 100;
  MIN_JACCARD_BITSET_SMALL_BASE := decimal 1 1000;
  MIN_JACCARD_BITSET_MEDIUM_BASE := decimal 1 50;
  MIN_SHARED_SMALL_BASE := 1;
  MIN_SHARED_MEDIUM_BASE := 2;
  RELAXED_JACCARD_VERY_SMALL := decimal 1 10000;
  RELAXED_JACCARD_SMALL := decimal 1 2000;
  RELAXED_JACCARD_MEDIUM := decimal 1 1000;
  RELAXED_JACCARD_MINIMUM := decimal 1 100;
  MIN_RATIO_VERY_SMALL_DEPS := decimal 3 20;
  MIN_RATIO_SMALL_DEPS := decimal 1 10;
  MIN_RATIO_MEDIUM_DEPS := decimal 1 20;
  MIN_RATIO_COOCCUR_VERY_SMALL_DEPS := decimal 1 5;
  MIN_RATIO_COOCCUR_SMALL_DEPS := decimal 1 10;
  MIN_RATIO_COOCCUR_MEDIUM_DEPS := decimal 1 20;
  COOCCUR_MIN_JACCARD_DEFAULT := decimal 1 1000;
  COOCCUR_MIN_JACCARD_SMALL_BASE := decimal 1 2000;
  COOCCUR_MIN_JACCARD_MEDIUM_BASE := decimal 1 1250;
  DIRECT_DEPENDENCY_BOOST_SCORE := decimal 1 2;
  NAME_BASED_FALLBACK_SCORE := decimal 1 1000;
  LOW_FETCH_SUCCESS_RATE_THRESHOLD := decimal 3 10;
  LOW_FETCH_RATE_JACCARD_MULTIPLIER := decimal 1 2;
  BASE_VERY_SMALL := 5;
  BASE_SMALL := 10;
  BASE_MEDIUM := 20;
  BASE_LARGE := 50;
  DEPS_VERY_SMALL := 5;
  DEPS_SMALL := 10;
  INITIAL_MAX_DEPENDENTS_TO_SCAN := 150;
  INITIAL_MAX_LIVE_CANDIDATES := 200;
  REFINEMENT_STEPS := [(300, 400); (450, 600); (600, 800)]%nat;
  MAX_RETRY_ATTEMPTS := 5;
  RETRY_INITIAL_DELAY_MS := 1000;
  RETRY_MAX_DELAY_MS := 10000;
  RETRY_JITTER_MS := 500;
|}.

Definition getJaccardThreshold (cfg : Config) (baseSize : Z) : Q :=
  if baseSize <? BASE_SMALL cfg then MIN_JACCARD_SMALL_BASE cfg
  else MIN_JACCARD_MEDIUM_BASE cfg.

Definition getBitsetJaccardThreshold (cfg : Config) (baseSize : Z) : Q :=
  if baseSize <? BASE_SMALL cfg then MIN_JACCARD_BITSET_SMALL_BASE cfg
  else MIN_JACCARD_BITSET_MEDIUM_BASE cfg.

Definition getSharedThreshold (cfg : Config) (baseSize : Z) : Z :=
  if baseSize <? BASE_SMALL cfg then MIN_SHARED_SMALL_BASE cfg
  else MIN_SHARED_MEDIUM_BASE cfg.

Definition getRelaxedJaccardThreshold (cfg : Config) (baseSize : Z) : Q :=
  if baseSize <? BASE_VERY_SMALL cfg then RELAXED_JACCARD_VERY_SMALL cfg
  else if baseSize <? BASE_MEDIUM cfg then RELAXED_JACCARD_SMALL cfg
  else RELAXED_JACCARD_MEDIUM cfg.

Definition getForwardDepsRatioThreshold (cfg : Config) (depsCount : Z) : Q :=
  if depsCount <? DEPS_VERY_SMALL cfg then MIN_RATIO_VERY_SMALL_DEPS cfg
  else if depsCount <? DEPS_SMALL cfg then MIN_RATIO_SMALL_DEPS cfg
  else MIN_RATIO_MEDIUM_DEPS cfg.

Definition getCooccurForwardDepsRatioThreshold (cfg : Config) (depsCount : Z) : Q :=
  if depsCount <? DEPS_VERY_SMALL cfg then MIN_RATIO_COOCCUR_VERY_SMALL_DEPS cfg
  else if depsCount <? DEPS_SMALL cfg then MIN_RATIO_COOCCUR_SMALL_DEPS cfg
  else MIN_RATIO_COOCCUR_MEDIUM_DEPS cfg.

Definition getCooccurJaccardThreshold (cfg : Config) (baseSize : Z)
    (fetchSuccessRate : Q) : Z * Q :=
  let '(minShared, minJaccard) :=
    if baseSize <? BASE_SMALL cfg
    then (MIN_SHARED_SMALL_BASE cfg, COOCCUR_MIN_JACCARD_SMALL_BASE cfg)
    else if baseSize <? BASE_LARGE cfg
    then (MIN_SHARED_SMALL_BASE cfg, COOCCUR_MIN_JACCARD_MEDIUM_BASE cfg)
    else (MIN_SHARED_MEDIUM_BASE cfg, COOCCUR_MIN_JACCARD_DEFAULT cfg) in
  if num_ltb fetchSuccessRate (LOW_FETCH_SUCCESS_RATE_THRESHOLD cfg)
  then (Z.max 1 (minShared - 1),
        num_mul minJaccard (LOW_FETCH_RATE_JACCARD_MULTIPLIER cfg))
  else (minShared, minJaccard).

(** ** The environment of the engine

    Everything the engine reads from outside: the cached index files, the
    upstream package metadata, and the order in which concurrently running
    tasks finish. *)

(** The outcome of an awaited call: a value, or a thrown error (a rejected
    promise). *)
Inductive result (A : Type) : Type :=
  | Ok (a : A)
  | Throw.
Arguments Ok {A} a.
Arguments Throw {A}.

Definition bind {A B : Type} (r : result A) (k : A → result B) : result B :=
  match r with
  | Ok a => k a
  | Throw => Throw
  end.

(** [try { body } catch { handler }]. *)
Definition try_catch {A : Type} (body handler : result A) : result A :=
  match body with
  | Ok a => Ok a
  | Throw => handler
  end.

#[global] Instance result_bind : MBind result := λ A B k r, bind r k.
#[global] Instance result_ret : MRet result := @Ok.

(** The stages that run tasks concurrently ([Promise.all] under a limiter
    and timeouts). *)
Inductive Stage : Type :=
  | StageForwardDeps      (* computeSimilarOnDemand, empty base *)
  | StageDependentsScan   (* computeSimilarOnDemand, candidate collection *)
  | StageCandidates       (* computeSimilarOnDemand, evaluateCandidate *)
  | StageCooccurScan      (* computeCooccurrenceFromReverseDeps *)
  | StageCooccurForward.  (* computeCooccurrenceFromForwardDeps *)

Record Env := mkEnv {
  (** [loadReverseDepsCache()] / [loadReverseDepsCacheAsync()]: never throws. *)
  reverseDepsCache : gmap string (list string);
  (** [loadPopularPackages()]: never throws. *)
  popularPackages : list string;
  (** [loadSimilarIndexCache()]: [None] when reading the file throws. *)
  similarIndexCache : option (gmap string (list SimilarItem));
  (** The route's in-memory LRU of responses: [cache.get(cacheKey)] for the
      key made from the lower-cased name and the limit; the key,
      ["pypi:" + name + "::" + String(limit)], determines both. *)
  responseCache : string → Q → option (list SimilarItem * list SimilarItem);
  (** [pickLatestDependencies(await fetchPackageMeta(p))]: [None] when the
      fetch throws. *)
  packageDeps : string → option (list string);
  (** [await getDependentsBitset(p)]: [None] when it rejects (the id map,
      the metadata record or the shard cannot be read or parsed). *)
  dependentsBitset : string → option (list Z);
  (** For a stage started on [n] tasks: the indices of the tasks whose
      effect took place before the stage ended (by completion, time-out or
      early exit), in the order they finished.  The part of a task after
      its last [await] runs without interleaving, so the stage's effect is
      that of these tasks run one after the other. *)
  completionOrder : Stage → nat → list nat;
  (** How many iterations of the route's refinement loop start within its
      time budget. *)
  refinementStepsInBudget : nat;
}.

(** The tasks of a stage that took effect, in completion order. *)
Definition completed {A : Type} (env : Env) (st : Stage) (tasks : list A)
    : list A :=
  omap (λ i, tasks !! i) (remove_dups (completionOrder env st (length tasks))).

(** [cache[a] || cache[b]] on a [ReverseDepsCache] (an array is truthy, also
    when empty). *)
Definition cache_lookup2 {V : Type} (cache : gmap string V) (a b : string)
    : option V :=
  match cache !! a with
  | Some v => Some v
  | None => cache !! b
  end.

(** [fetchReverseDependentsApprox]: "kept for backward compatibility but
    now returns empty array". *)
Definition fetchReverseDependentsApprox (packageName : string) : list string := [].

(** [searchTopPackages]: returns the empty array. *)
Definition searchTopPackages (limit : nat) : list string := [].

(** ** lib/seeds.ts *)

Definition WEB_FRAMEWORKS : list string :=
  ["flask"; "django"; "fastapi"; "tornado"; "bottle"; "cherrypy"; "quart";
   "sanic"; "falcon"; "pyramid"; "web2py"]%string.

Definition ASYNC_FRAMEWORKS : list string :=
  ["aiohttp"; "trio"; "curio"; "starlette"; "uvicorn"]%string.

Definition UI_FRAMEWORKS : list string :=
  Set_from (WEB_FRAMEWORKS ++ ASYNC_FRAMEWORKS).

Definition isUiFramework (name : string) : bool :=
  let lower := toLowerCase name in
  Set_has UI_FRAMEWORKS lower || Set_has WEB_FRAMEWORKS lower
  || Set_has ASYNC_FRAMEWORKS lower.

(** ** lib/similar.ts *)

Record Options := mkOptions {
  restrictToPeerGroup : option bool;
  topSearchLimit : option nat;
  maxDependentsToScan : option nat;
  maxLiveCandidates : option nat;
}.

(** [options?.field || fallback]: an absent or zero field gives the fallback. *)
Definition or_default (o : option nat) (fallback : nat) : nat :=
  match o with
  | Some (S n) => S n
  | _ => fallback
  end.

Definition getReverseDeps (env : Env) (pkg : string) : list string :=
  let normalized := normalizePackageName pkg in
  let cache := reverseDepsCache env in
  match cache_lookup2 cache normalized (toLowerCase pkg) with
  | Some (c :: cached) => Set_from (c :: cached)
  | _ => Set_from (fetchReverseDependentsApprox pkg)
  end.

(** The test shared by the name-based strategies:
    [popMain === mainName || popLower.includes(mainName) || lower.includes(popMain)]. *)
Definition similarName (lower popLower : string) : bool :=
  let mainName := mainNameOf lower in
  let popMain := mainNameOf popLower in
  String.eqb popMain mainName || includes popLower mainName || includes lower popMain.

Definition nameBasedItem (cfg : Config) (n : string) : SimilarItem :=
  mkSimilarItem n (NAME_BASED_FALLBACK_SCORE cfg) 0.

(** The loop of [computeSimilarNameBasedFallback] over [popular] from index
    [i] on ([pops]), with [similarNames] collected so far. *)
Fixpoint similarNameLoop (env : Env) (pkg : string) (limit : Q)
    (pops : list string) (similarNames : list string) : list string :=
  match pops with
  | [] => similarNames
  | pop :: pops' =>
      let lower := normalizePackageName pkg in
      if String.eqb (normalizePackageName pop) lower
      then similarNameLoop env pkg limit pops' similarNames   (* continue *)
      else
        let popLower := normalizePackageName pop in
        let similarNames :=
          if similarName lower popLower
             && negb (String.eqb popLower lower)
             && negb (bool_decide (pop ∈ similarNames))
          then similarNames ++ [pop] else similarNames in
        let similarNames :=
          match reverseDepsCache env !! popLower with
          | Some (d :: ds) =>
              let popDeps := Set_from (d :: ds) in
              if (Set_has popDeps (normalizePackageName pkg) || Set_has popDeps pkg
                  || bool_decide (pop ∈ similarNames))
                 && negb (String.eqb popLower lower)
                 && negb (bool_decide (pop ∈ similarNames))
              then similarNames ++ [pop] else similarNames
          | _ => similarNames
          end in
        if num_geb (num_of_nat (length similarNames)) (num_mul limit 2)
        then similarNames   (* break *)
        else similarNameLoop env pkg limit pops' similarNames
  end.

Definition computeSimilarNameBasedFallback (cfg : Config) (env : Env)
    (pkg : string) (limit : Q) : list SimilarItem :=
  let similarNames := similarNameLoop env pkg limit (popularPackages env) [] in
  match similarNames with
  | [] => []
  | _ => nameBasedItem cfg <$> Array_slice0 similarNames limit
  end.

(** The name-based loop of strategy 2 and of
    [computeCooccurrenceNameBasedFallback], which differ in what they
    collect and in the bound that ends the loop:
<<
    if (normalizedPop === lower) continue;
    if (popMain === mainName || ...) { collect pop (once, when [once]) }
    if (collected.length >= bound) break;
>> *)
Fixpoint nameLoop (pkg : string) (bound : Q) (once : bool)
    (pops : list string) (collected : list string) : list string :=
  match pops with
  | [] => collected
  | pop :: pops' =>
      let lower := normalizePackageName pkg in
      let normalizedPop := normalizePackageName pop in
      if String.eqb normalizedPop lower
      then nameLoop pkg bound once pops' collected
      else
        let collected :=
          if similarName lower normalizedPop
             && negb (once && bool_decide (pop ∈ collected))
          then collected ++ [pop] else collected in
        if num_geb (num_of_nat (length collected)) bound then collected
        else nameLoop pkg bound once pops' collected
  end.

(** *** The forward-dependency strategy of [computeSimilarOnDemand] *)

(** One task of the stage: the entry it sets in [similar], if any. *)
Definition forwardDepsTask (env : Env) (pkg : string) (pkgDepsSet : list string)
    (candidate : string) (similar : list (string * Z)) : list (string * Z) :=
  if String.eqb (normalizePackageName candidate) (normalizePackageName pkg)
  then similar
  else
    match packageDeps env candidate with
    | None => similar   (* ignore individual failures *)
    | Some candidateDeps =>
        let candidateDepsSet := Set_from (normalizePackageName <$> candidateDeps) in
        let sharedDeps := List.filter (Set_has candidateDepsSet) pkgDepsSet in
        if (0 <? length sharedDeps)%nat
        then Map_set similar candidate (Z.of_nat (length sharedDeps))
        else similar
    end.

(** Sort by shared count first, then by jaccard score. *)
Definition bySharedThenJaccard (a b : SimilarItem) : comparison :=
  if negb (sharedDependents b =? sharedDependents a)
  then sign_sub_Z (sharedDependents b) (sharedDependents a)
  else sign_sub_Q (jaccard b) (jaccard a).

Definition byJaccard (a b : SimilarItem) : comparison :=
  sign_sub_Q (jaccard b) (jaccard a).

Definition forwardDepsResults (cfg : Config) (limit : Q) (totalDeps : Z)
    (similar : list (string * Z)) : list SimilarItem :=
  let mapped :=
    (λ e : string * Z,
       let score := num_div e.2 totalDeps in
       mkSimilarItem e.1 (toFixed6 score) e.2) <$> similar in
  let filtered :=
    List.filter (λ r,
      let minRatio := getForwardDepsRatioThreshold cfg totalDeps in
      (1 <=? sharedDependents r) && num_geb (jaccard r) minRatio) mapped in
  Array_slice0 (Array_sortBy bySharedThenJaccard filtered) limit.

Definition computeSimilarForwardDeps (cfg : Config) (env : Env) (pkg : string)
    (limit : Q) : result (list SimilarItem) :=
  try_catch
    (match packageDeps env pkg with
     | None => Throw
     | Some pkgDeps =>
         if (length pkgDeps =? 0)%nat
         then Ok (computeSimilarNameBasedFallback cfg env pkg limit)
         else
           let popular := popularPackages env in
           let pkgDepsSet := Set_from (normalizePackageName <$> pkgDeps) in
           let packagesToCheck :=
             num_min (num_min (num_of_nat (length popular))
                        (num_mul limit (num_of_nat (CANDIDATES_MULTIPLIER_PER_LIMIT cfg))))
                     (num_of_nat (MAX_PACKAGES_TO_CHECK_FORWARD_DEPS cfg)) in
           let tasks := Array_slice0 popular packagesToCheck in
           let similar :=
             foldl (λ m c, forwardDepsTask env pkg pkgDepsSet c m) []
                   (completed env StageForwardDeps tasks) in
           let totalDeps := Z.of_nat (length pkgDeps) in
           if totalDeps =? 0
           then Ok (computeSimilarNameBasedFallback cfg env pkg limit)
           else
             let results := forwardDepsResults cfg limit totalDeps similar in
             if (0 <? length results)%nat then Ok results
             else Ok (computeSimilarNameBasedFallback cfg env pkg limit)
     end)
    (Ok (computeSimilarNameBasedFallback cfg env pkg limit)).

(** *** Candidate collection *)

(** The loop over the dependencies of one scanned dependent:
<<
    for (let j = 0; j < deps.length; j += 1) {
      const d = deps[j];
      if (normalizePackageName(d) !== normalizePackageName(pkg)) {
        candidates.add(d);
        if (candidates.size >= EARLY_TERMINATE_CANDIDATES) { shouldStopEarly = true; break; }
      }
    }
>> *)
Fixpoint scanDependencies (cfg : Config) (pkg : string) (deps : list string)
    (candidates : list string) : list string :=
  match deps with
  | [] => candidates
  | d :: deps' =>
      if negb (String.eqb (normalizePackageName d) (normalizePackageName pkg))
      then
        let candidates := Set_add candidates d in
        if (EARLY_TERMINATE_CANDIDATES cfg <=? length candidates)%nat
        then candidates
        else scanDependencies cfg pkg deps' candidates
      else scanDependencies cfg pkg deps' candidates
  end.

Definition dependentsScanTask (cfg : Config) (env : Env) (pkg : string)
    (depPkg : string) (candidates : list string) : list string :=
  match packageDeps env depPkg with
  | None => candidates   (* ignore individual failures *)
  | Some deps => scanDependencies cfg pkg deps candidates
  end.

Definition collectCandidates (cfg : Config) (env : Env) (pkg : string)
    (base : list string) (options : Options) : list string :=
  let restrict :=
    match restrictToPeerGroup options with Some true => true | _ => false end in
  let candidates :=
    if restrict && isUiFramework pkg
    then
      foldl (λ cs n,
               if negb (String.eqb (normalizePackageName n) (normalizePackageName pkg))
               then Set_add cs n else cs) [] UI_FRAMEWORKS
    else
      let localPopular := popularPackages env in
      let topSearchLimit :=
        Nat.min (or_default (topSearchLimit options) (DEFAULT_TOP_SEARCH_LIMIT cfg))
                (MAX_TOP_SEARCH_LIMIT cfg) in
      let top :=
        if (0 <? length localPopular)%nat then take topSearchLimit localPopular
        else searchTopPackages topSearchLimit in
      foldl Set_add [] top in
  let MAX_DEPENDENTS_TO_SCAN :=
    Nat.min (or_default (maxDependentsToScan options) (DEFAULT_MAX_DEPENDENTS_TO_SCAN cfg))
            (MAX_MAX_DEPENDENTS_TO_SCAN cfg) in
  let baseDependents := take MAX_DEPENDENTS_TO_SCAN base in
  let candidates :=
    foldl (λ cs depPkg, dependentsScanTask cfg env pkg depPkg cs) candidates
          (completed env StageDependentsScan baseDependents) in
  if (MAX_CANDIDATES_TO_COLLECT cfg <? length candidates)%nat
  then take (MAX_CANDIDATES_TO_COLLECT cfg) candidates
  else candidates.

(** The comparator that orders the candidates: popular packages first, then
    those whose cached dependent count is closer to the base size, then
    those with some cached dependents. *)
Definition candidatePriority (env : Env) (popularSet : list string) (baseSize : Z)
    (a b : string) : comparison :=
  let cache := reverseDepsCache env in
  let aNorm := normalizePackageName a in
  let bNorm := normalizePackageName b in
  let aPopular := Set_has popularSet aNorm in
  let bPopular := Set_has popularSet bNorm in
  if aPopular && negb bPopular then Lt
  else if negb aPopular && bPopular then Gt
  else
    let aDeps := default [] (cache_lookup2 cache aNorm (toLowerCase a)) in
    let bDeps := default [] (cache_lookup2 cache bNorm (toLowerCase b)) in
    let aSize := Z.of_nat (length aDeps) in
    let bSize := Z.of_nat (length bDeps) in
    let aDiff := Z.abs (aSize - baseSize) in
    let bDiff := Z.abs (bSize - baseSize) in
    if (0 <? aSize) && (0 <? bSize) && negb (aDiff =? bDiff)
    then sign_sub_Z aDiff bDiff
    else if (0 <? aSize) && (bSize =? 0) then Lt
    else if (aSize =? 0) && (0 <? bSize) then Gt
    else Eq.

(** *** Scoring *)

(** The variables of [computeSimilarOnDemand] that [evaluateCandidate]
    updates. *)
Record ScoringState := mkScoringState {
  heap : list SimilarItem;
  liveFetches : nat;
  checkedCount : nat;
}.

(** The bitset path of [evaluateCandidate]: the item it pushes, if any.
<<
    if (depSet.size === 0 && baseBitset && baseBitset.length > 0) {
      try {
        const candBitset = await getDependentsBitset(cand);
        if (candBitset && candBitset.length > 0) {
          const scoreBs = jaccardBitset(baseBitset, candBitset);
          const minJaccardBs = getBitsetJaccardThreshold(base.size);
          if (scoreBs >= minJaccardBs) {
            usedScore = Number(scoreBs.toFixed(6));
            usedShared = 0; // unknown with bitset-only path
            heapPushBounded({ name: cand, jaccard: usedScore, sharedDependents: usedShared });
            return;
          }
        }
      } catch { /* ignore bitset fetch failures */ }
    }
>> *)
Definition bitsetFastPath (cfg : Config) (env : Env) (base : list string)
    (baseBitset : list Z) (depSet : list string) (cand : string)
    : option SimilarItem :=
  if (Set_size depSet =? 0) && (0 <? length baseBitset)%nat then
    match dependentsBitset env cand with
    | Some candBitset =>
        if (0 <? length candBitset)%nat then
          let scoreBs := jaccardBitset baseBitset candBitset in
          let minJaccardBs := getBitsetJaccardThreshold cfg (Set_size base) in
          if num_geb scoreBs minJaccardBs then
            let usedScore := toFixed6 scoreBs in
            let usedShared := 0 in
            Some (mkSimilarItem cand usedScore usedShared)
          else None
        else None
    | None => None
    end
  else None.

(** [evaluateCandidate(cand)], from the test of the candidate's name to the
    push, as one step (the awaits inside it are [getDependentsBitset(cand)]
    and [fetchReverseDependentsApprox(cand)]; the latter returns the empty
    array, after which the candidate is dropped). *)
Definition evaluateCandidate (cfg : Config) (env : Env) (pkg : string)
    (limit : Q) (base : list string) (baseBitset : list Z)
    (MAX_LIVE_CANDIDATES : nat) (cand : string) (st : ScoringState)
    : ScoringState :=
  let normalizedCand := normalizePackageName cand in
  let normalizedPkg := normalizePackageName pkg in
  if String.eqb normalizedCand normalizedPkg then st
  else
    let cache := reverseDepsCache env in
    let depSet :=
      Set_from (default [] (cache_lookup2 cache normalizedCand (toLowerCase cand))) in
    match bitsetFastPath cfg env base baseBitset depSet cand with
    | Some item =>
        mkScoringState (heapPushBounded limit (heap st) item)
                       (liveFetches st) (checkedCount st)
    | None =>
        let '(depSet, live) :=
          if (Set_size depSet =? 0) && (liveFetches st <? MAX_LIVE_CANDIDATES)%nat
          then (Set_from (fetchReverseDependentsApprox cand), S (liveFetches st))
          else (depSet, liveFetches st) in
        if Set_size depSet =? 0 then mkScoringState (heap st) live (checkedCount st)
        else
          let minShared := getSharedThreshold cfg (Set_size base) in
          let minJaccard := getJaccardThreshold cfg (Set_size base) in
          if negb (canMeetThreshold (Set_size depSet) (Set_size base) minJaccard)
          then mkScoringState (heap st) live (checkedCount st)
          else
            let jr := jaccardSimilarity base depSet in
            let checked := S (checkedCount st) in
            if num_geb (score jr) minJaccard && (minShared <=? shared jr)
            then
              mkScoringState
                (heapPushBounded limit (heap st)
                   (mkSimilarItem cand (toFixed6 (score jr)) (shared jr)))
                live checked
            else mkScoringState (heap st) live checked
    end.

(** Strategy 1 of the final fallback: the cache-only pass with the relaxed
    threshold over the first 2000 sorted candidates. *)
Definition relaxedPass (cfg : Config) (env : Env) (pkg : string) (limit : Q)
    (base : list string) (sortedCandidates : list string) : list SimilarItem :=
  let MAX_FALLBACK_CANDIDATES := Nat.min 2000 (length sortedCandidates) in
  let candArray2 := take MAX_FALLBACK_CANDIDATES sortedCandidates in
  let alt :=
    foldl (λ alt cand,
      let normalizedCand := normalizePackageName cand in
      let normalizedPkg := normalizePackageName pkg in
      if String.eqb normalizedCand normalizedPkg then alt
      else
        match cache_lookup2 (reverseDepsCache env) normalizedCand (toLowerCase cand) with
        | Some (d :: ds) =>
            let depSet := Set_from (d :: ds) in
            let jr := jaccardSimilarity base depSet in
            let relaxedThreshold := getRelaxedJaccardThreshold cfg (Set_size base) in
            if num_geb (score jr) relaxedThreshold && (0 <? shared jr)
            then alt ++ [mkSimilarItem cand (toFixed6 (score jr)) (shared jr)]
            else alt
        | _ => alt
        end) [] candArray2 in
  Array_slice0 (Array_sortBy byJaccard alt) limit.

(** Strategy 2: name-based similarity over the popular packages. *)
Definition nameBasedStrategy (cfg : Config) (env : Env) (pkg : string)
    (limit : Q) : list SimilarItem :=
  let popular := popularPackages env in
  let scanned := take (Nat.min (length popular) (MAX_POPULAR_FOR_NAME_BASED cfg)) popular in
  nameBasedItem cfg <$> nameLoop pkg limit false scanned [].

Definition computeSimilarOnDemand (cfg : Config) (env : Env) (pkg : string)
    (limit : Q) (options : Options) : result (list SimilarItem) :=
  let base := getReverseDeps env pkg in
  if Set_size base <? 1 then computeSimilarForwardDeps cfg env pkg limit
  else
    let candidates := collectCandidates cfg env pkg base options in
    let MAX_LIVE_CANDIDATES :=
      Nat.min (or_default (maxLiveCandidates options) (DEFAULT_MAX_LIVE_CANDIDATES cfg))
              (MAX_MAX_LIVE_CANDIDATES cfg) in
    (* const baseBitset = await getDependentsBitset(pkg);  -- not inside a try *)
    match dependentsBitset env pkg with
    | None => Throw
    | Some baseBitset =>
        let allCandidates := candidates in
        let popularSet := Set_from (normalizePackageName <$> popularPackages env) in
        let baseSize := Set_size base in
        let sortedCandidates :=
          Array_sortBy (candidatePriority env popularSet baseSize) allCandidates in
        let MAX_CANDIDATES_TO_EVALUATE := Nat.min 5000 (length allCandidates) in
        let candArray := take MAX_CANDIDATES_TO_EVALUATE sortedCandidates in
        let st :=
          foldl (λ st cand,
                   evaluateCandidate cfg env pkg limit base baseBitset
                     MAX_LIVE_CANDIDATES cand st)
                (mkScoringState [] 0 0)
                (completed env StageCandidates candArray) in
        (* Drain heap to sorted array desc *)
        let results := Array_sortBy byJaccard (heap st) in
        if (length results =? 0)%nat then
          let results := relaxedPass cfg env pkg limit base sortedCandidates in
          if (length results =? 0)%nat && (0 <? Set_size base)
             && (Set_size base <? BASE_SMALL cfg)
          then
            let nameBased := nameBasedStrategy cfg env pkg limit in
            if (0 <? length nameBased)%nat then Ok (Array_slice0 nameBased limit)
            else Ok results
          else Ok results
        else Ok results
    end.

(** *** [computeCooccurrence] *)

Record CooccurState := mkCooccurState {
  cooccur : list (string * Z);
  successfulFetches : nat;
}.

(** The loop over the dependencies of one sampled dependent:
<<
    if (normalizePackageName(d) !== normalizedPkg) {
      cooccur.set(d, (cooccur.get(d) || 0) + 1);
      if (cooccur.size >= MIN_COOCCUR_FOR_EARLY_EXIT) { shouldStopEarly = true; break; }
    }
>> *)
Fixpoint tallyDependencies (pkg : string) (MIN_COOCCUR_FOR_EARLY_EXIT : Q)
    (deps : list string) (cooccur : list (string * Z)) : list (string * Z) :=
  match deps with
  | [] => cooccur
  | d :: deps' =>
      if negb (String.eqb (normalizePackageName d) (normalizePackageName pkg))
      then
        let cooccur := Map_set cooccur d (default 0 (Map_get cooccur d) + 1) in
        if num_geb (num_of_nat (length cooccur)) MIN_COOCCUR_FOR_EARLY_EXIT then cooccur
        else tallyDependencies pkg MIN_COOCCUR_FOR_EARLY_EXIT deps' cooccur
      else tallyDependencies pkg MIN_COOCCUR_FOR_EARLY_EXIT deps' cooccur
  end.

Definition cooccurScanTask (env : Env) (pkg : string) (limit : Q)
    (depPkg : string) (st : CooccurState) : CooccurState :=
  match packageDeps env depPkg with
  | None => st   (* ignore individual failures *)
  | Some deps =>
      mkCooccurState (tallyDependencies pkg (num_mul limit 3) deps (cooccur st))
                     (S (successfulFetches st))
  end.

(** [entries.map(score).filter(keep).sort(byJaccard).slice(0, limit)] of
    [computeCooccurrenceFromReverseDeps]. *)
Definition cooccurRanked (limit : Q) (scannedCount : nat) (minShared : Z)
    (minJaccard : Q) (entries : list (string * Z)) : list SimilarItem :=
  let mapped :=
    (λ e : string * Z,
       let score :=
         if (0 <? scannedCount)%nat then num_div e.2 (Z.of_nat scannedCount) else 0%Q in
       mkSimilarItem e.1 (toFixed6 score) e.2) <$> entries in
  let filtered :=
    List.filter (λ r, (minShared <=? sharedDependents r) && num_geb (jaccard r) minJaccard)
                mapped in
  Array_slice0 (Array_sortBy byJaccard filtered) limit.

Definition computeCooccurrenceFromReverseDeps (cfg : Config) (env : Env)
    (pkg : string) (limit : Q) (base : list string)
    (maxDependentsToScan : option nat) : list SimilarItem :=
  let MAX_DEPENDENTS_TO_SCAN :=
    Nat.min (or_default maxDependentsToScan (DEFAULT_MAX_DEPENDENTS_TO_SCAN cfg))
            (MAX_MAX_DEPENDENTS_TO_SCAN cfg) in
  let baseDependents := take MAX_DEPENDENTS_TO_SCAN base in
  let baseSize := if Set_size base =? 0 then 1 else Set_size base in
  let st :=
    foldl (λ st depPkg, cooccurScanTask env pkg limit depPkg st)
          (mkCooccurState [] 0)
          (completed env StageCooccurScan baseDependents) in
  let fetchSuccessRate :=
    if (0 <? length baseDependents)%nat
    then num_div (Z.of_nat (successfulFetches st)) (Z.of_nat (length baseDependents))
    else 0%Q in
  let scannedCount :=
    if (0 <? successfulFetches st)%nat then successfulFetches st
    else length baseDependents in
  let minJaccardForScanned :=
    if (scannedCount <? 200)%nat then decimal 1 100
    else num_max (decimal 1 200) (COOCCUR_MIN_JACCARD_DEFAULT cfg) in
  let minSharedForScanned :=
    if (scannedCount <? 200)%nat
    then Z.max 1 (Qceiling (num_mul (inject_Z (Z.of_nat scannedCount)) (decimal 1 100)))
    else 1 in
  let threshold :=
    if (scannedCount <? 500)%nat then (minSharedForScanned, minJaccardForScanned)
    else getCooccurJaccardThreshold cfg baseSize fetchSuccessRate in
  let coRes := cooccurRanked limit scannedCount threshold.1 threshold.2 (cooccur st) in
  if (length coRes =? 0)%nat && (0 <? length (cooccur st))%nat then
    let relaxed :=
      cooccurRanked limit scannedCount 1 (RELAXED_JACCARD_VERY_SMALL cfg) (cooccur st) in
    if (0 <? length relaxed)%nat then relaxed else coRes
  else coRes.

Definition computeCooccurrenceNameBasedFallback (cfg : Config) (env : Env)
    (pkg : string) (limit : Q) : list SimilarItem :=
  let popular := popularPackages env in
  let scanned := take (Nat.min (length popular) (MAX_POPULAR_FOR_NAME_BASED cfg)) popular in
  let cooccurCandidates := nameLoop pkg (num_mul limit 2) true scanned [] in
  match cooccurCandidates with
  | [] => []
  | _ => nameBasedItem cfg <$> Array_slice0 cooccurCandidates limit
  end.

(** [pkgDepsSet.has(normalizePackageName(name))]. *)
Definition isDirectDep (pkgDepsSet : list string) (n : string) : bool :=
  Set_has pkgDepsSet (normalizePackageName n).

(** First, the package's own dependencies that are popular packages are
    entered as co-occurring, each with count 1. *)
Definition addDirectDependencies (popularSet : list string) (pkgDeps : list string)
    : list (string * Z) :=
  foldl (λ cooccur dep,
           if Set_has popularSet (normalizePackageName dep)
           then Map_set cooccur dep 1 else cooccur) [] pkgDeps.

(** One task of the forward-dependency stage. *)
Definition cooccurForwardTask (env : Env) (pkg : string) (pkgDepsSet : list string)
    (pop : string) (cooccur : list (string * Z)) : list (string * Z) :=
  let normalizedPop := normalizePackageName pop in
  if String.eqb normalizedPop (normalizePackageName pkg) then cooccur
  else if Set_has pkgDepsSet normalizedPop then cooccur
  else
    match packageDeps env pop with
    | None => cooccur   (* ignore individual failures *)
    | Some popDeps =>
        let popDepsSet := Set_from (normalizePackageName <$> popDeps) in
        let sharedCount := Z.of_nat (length (List.filter (Set_has popDepsSet) pkgDepsSet)) in
        if 0 <? sharedCount then
          match Map_get cooccur pop with
          | Some existing =>
              if existing <? sharedCount then Map_set cooccur pop sharedCount
              else cooccur
          | None => Map_set cooccur pop sharedCount
          end
        else cooccur
    end.

(** Sort by: 1) direct dependencies first, 2) shared count, 3) jaccard score. *)
Definition byDirectThenShared (pkgDepsSet : list string) (a b : SimilarItem)
    : comparison :=
  let aIsDirect := isDirectDep pkgDepsSet (name a) in
  let bIsDirect := isDirectDep pkgDepsSet (name b) in
  if aIsDirect && negb bIsDirect then Lt
  else if negb aIsDirect && bIsDirect then Gt
  else bySharedThenJaccard a b.

Definition cooccurForwardRanked (cfg : Config) (limit : Q) (pkgDepsSet : list string)
    (totalDeps : Z) (entries : list (string * Z)) : list SimilarItem :=
  let mapped :=
    (λ e : string * Z,
       let baseScore := num_div e.2 totalDeps in
       let score :=
         if isDirectDep pkgDepsSet e.1
         then num_max baseScore (DIRECT_DEPENDENCY_BOOST_SCORE cfg) else baseScore in
       mkSimilarItem e.1 (toFixed6 score) e.2) <$> entries in
  let filtered :=
    List.filter (λ r,
      if isDirectDep pkgDepsSet (name r) then true
      else
        let minRatio := getCooccurForwardDepsRatioThreshold cfg totalDeps in
        (1 <=? sharedDependents r) && num_geb (jaccard r) minRatio) mapped in
  Array_slice0 (Array_sortBy (byDirectThenShared pkgDepsSet) filtered) limit.

Definition cooccurForwardRelaxed (cfg : Config) (limit : Q) (totalDeps : Z)
    (entries : list (string * Z)) : list SimilarItem :=
  let mapped :=
    (λ e : string * Z,
       mkSimilarItem e.1 (toFixed6 (num_div e.2 totalDeps)) e.2) <$> entries in
  let filtered :=
    List.filter (λ r, (1 <=? sharedDependents r)
                      && num_geb (jaccard r) (RELAXED_JACCARD_MINIMUM cfg)) mapped in
  Array_slice0 (Array_sortBy bySharedThenJaccard filtered) limit.

Definition computeCooccurrenceFromForwardDeps (cfg : Config) (env : Env)
    (pkg : string) (limit : Q) : result (list SimilarItem) :=
  try_catch
    (match packageDeps env pkg with
     | None => Throw
     | Some pkgDeps =>
         if (length pkgDeps =? 0)%nat
         then Ok (computeCooccurrenceNameBasedFallback cfg env pkg limit)
         else
           let popular := popularPackages env in
           let pkgDepsSet := Set_from (normalizePackageName <$> pkgDeps) in
           let popularSet := Set_from (normalizePackageName <$> popular) in
           let cooccur := addDirectDependencies popularSet pkgDeps in
           let packagesToCheck :=
             num_min (num_min (num_of_nat (length popular))
                        (num_mul limit (num_of_nat (COOCCUR_MULTIPLIER_PER_LIMIT cfg))))
                     (num_of_nat (MAX_PACKAGES_TO_CHECK_COOCCUR cfg)) in
           let tasks := Array_slice0 popular packagesToCheck in
           let cooccur :=
             foldl (λ m pop, cooccurForwardTask env pkg pkgDepsSet pop m) cooccur
                   (completed env StageCooccurForward tasks) in
           let totalDeps := Z.of_nat (length pkgDeps) in
           if totalDeps =? 0
           then Ok (computeCooccurrenceNameBasedFallback cfg env pkg limit)
           else
             let coRes := cooccurForwardRanked cfg limit pkgDepsSet totalDeps cooccur in
             if (0 <? length coRes)%nat then Ok coRes
             else
               let relaxed := cooccurForwardRelaxed cfg limit totalDeps cooccur in
               if (0 <? length relaxed)%nat then Ok relaxed
               else Ok (computeCooccurrenceNameBasedFallback cfg env pkg limit)
     end)
    (Ok (computeCooccurrenceNameBasedFallback cfg env pkg limit)).

Definition computeCooccurrence (cfg : Config) (env : Env) (pkg : string)
    (limit : Q) (maxDependentsToScan : option nat) : result (list SimilarItem) :=
  let base := getReverseDeps env pkg in
  if 0 <? Set_size base
  then Ok (computeCooccurrenceFromReverseDeps cfg env pkg limit base maxDependentsToScan)
  else computeCooccurrenceFromForwardDeps cfg env pkg limit.


Definition getPrecomputedSimilar (env : Env) (pkg : string) (limit : Q)
    : result (option (list SimilarItem)) :=
  match similarIndexCache env with
  | None => Throw
  | Some cache =>
      match cache_lookup2 cache (normalizePackageName pkg) (toLowerCase pkg) with
      | Some (x :: l) => Ok (Some (Array_slice0 (x :: l) limit))
      | _ => Ok None
      end
  end.

(** ** The route [GET /api/similar/<pkg>] (app/api/meta/[pkg]/route.ts,
    lines 70-169) *)

Record Response := mkResponse {
  status : nat;
  similarBody : list SimilarItem;
  cooccurBody : list SimilarItem;
}.

Definition qualityOk (cfg : Config) (l : option (list SimilarItem)) : bool :=
  match l with
  | Some (top :: rest) =>
      (MIN_RESULTS_FOR_QUALITY cfg <=? length (top :: rest))%nat
      && num_geb (jaccard top) (MIN_TOP_SCORE_FOR_QUALITY cfg)
  | _ => false
  end.

Definition topScore (l : list SimilarItem) : Q :=
  match l with
  | top :: _ => jaccard top
  | [] => 0%Q
  end.

(** The progressive refinement loop over [REFINEMENT_STEPS]; [budget] counts
    the iterations that start before the time budget is spent. *)
Fixpoint refine (cfg : Config) (env : Env) (pkg : string) (limit : Q)
    (steps : list (nat * nat)) (budget : nat) (best : list SimilarItem)
    : result (list SimilarItem) :=
  match steps, budget with
  | step :: steps', S budget' =>
      next ← computeSimilarOnDemand cfg env pkg limit
                (mkOptions (Some false) (Some (DEFAULT_TOP_SEARCH_LIMIT cfg))
                           (Some step.1) (Some step.2));
      let best :=
        if num_ltb (topScore best) (topScore next) || (length best <? length next)%nat
        then next else best in
      if qualityOk cfg (Some best) then Ok best
      else refine cfg env pkg limit steps' budget' best
  | _, _ => Ok best
  end.

(** What [Number(text)] can be: not a number, an infinity, or a finite
    number. *)
Inductive JsNumber : Type :=
  | NaN
  | PosInfinity
  | NegInfinity
  | Finite (q : Q).

(** [Math.max(1, Math.min(100, n || 20))]: [NaN] and 0 are falsy.  The
    result is a finite number between 1 and 100; it is not rounded. *)
Definition clampLimit (n : JsNumber) : Q :=
  match n with
  | NaN => 20
  | PosInfinity => 100
  | NegInfinity => 1
  | Finite q => if Qeq_bool q 0 then 20 else Qred (num_max 1 (num_min 100 q))
  end.

(** [GET]: [pkg] is the route parameter, [limitParam] the value of
    [Number(new URL(request.url).searchParams.get("limit"))] (0 when the
    parameter is absent or empty, [NaN] when it is not the text of a
    number), [nocache] whether [nocache=1] was given.  The environment is
    the one the request runs in. *)
Definition GET (cfg : Config) (env : Env) (pkg : string) (limitParam : JsNumber)
    (nocache : bool) : Response :=
  if String.eqb pkg "" then mkResponse 400 [] []   (* "Invalid package name" *)
  else
    let limit := clampLimit limitParam in
    let hit := if nocache then None else responseCache env (toLowerCase pkg) limit in
    match hit with
    | Some cachedResp => mkResponse 200 cachedResp.1 cachedResp.2
    | None =>
        let body : result (list SimilarItem * list SimilarItem) :=
          cached ← (if nocache then Ok None else getPrecomputedSimilar env pkg limit);
          let cooccurPromise :=
            computeCooccurrence cfg env pkg limit
              (Some (INITIAL_MAX_DEPENDENTS_TO_SCAN cfg)) in
          best ← (if qualityOk cfg cached then Ok (default [] cached)
                  else computeSimilarOnDemand cfg env pkg limit
                         (mkOptions (Some false) (Some (DEFAULT_TOP_SEARCH_LIMIT cfg))
                            (Some (INITIAL_MAX_DEPENDENTS_TO_SCAN cfg))
                            (Some (INITIAL_MAX_LIVE_CANDIDATES cfg))));
          best ← (if qualityOk cfg (Some best) then Ok best
                  else refine cfg env pkg limit (REFINEMENT_STEPS cfg)
                         (refinementStepsInBudget env) best);
          cooccur ← cooccurPromise;
          Ok (best, cooccur) in
        match body with
        | Ok (best, cooccur) => mkResponse 200 best cooccur
        | Throw => mkResponse 500 [] []   (* "Internal server error" *)
        end
    end.

(** ** lib/pypi.ts: [fetchJsonWithCache] *)

(** A thrown value: an [Error] with its name and message, and the [code]
    and [status] properties when it carries them. *)
Record JsError := mkJsError {
  errName : string;
  errMessage : string;
  errCode : option string;
  errStatus : option nat;
}.

(** [String(err)] for an [Error]. *)
Definition String_of_error (err : JsError) : string :=
  (errName err +:+ ": " +:+ errMessage err)%string.

(** [new Error(message)]. *)
Definition new_Error (message : string) : JsError :=
  mkJsError "Error" message None None.

(** What one [fetchWithTimeout(url)] followed by [res.json()] gives: a
    response with its status and, when its body parses as JSON, the parsed
    document; or a thrown error. *)
Inductive FetchOutcome : Type :=
  | Responded (status : nat) (json : result string)
  | Failed (err : JsError).

(** The outside world of one call of [fetchJsonWithCache]. *)
Record FetchEnv := mkFetchEnv {
  (** [lru.get(key)]. *)
  lruHit : option string;
  (** The outcome of attempt number [k] (from 1). *)
  outcome : nat → FetchOutcome;
  (** The value of [Math.random()] drawn for the delay after attempt [k]. *)
  random : nat → Q;
  (** The error thrown by [res.json()] when the body does not parse. *)
  parseError : JsError;
}.

(** What the call does, in order. *)
Inductive FetchEvent : Type :=
  | EvRateLimit            (* await rateLimit(domain) *)
  | EvFetch (attempt : nat) (* await fetchWithTimeout(url, ...) *)
  | EvSleep (ms : Z)        (* await new Promise(r => setTimeout(r, delay)) *)
  | EvCache (json : string). (* lru.set(key, json) *)

Definition isRetryableError (err : JsError) : bool :=
  let msg := String_of_error err in
  let retryableCodes :=
    ["ECONNREFUSED"; "ETIMEDOUT"; "ENOTFOUND"; "ECONNRESET"; "EAI_AGAIN"]%string in
  let retryableMessages :=
    ["network"; "timeout"; "connection"; "failed to fetch"; "fetch failed"]%string in
  match errCode err with
  | Some code =>
      if negb (String.eqb code "") && bool_decide (code ∈ retryableCodes) then true
      else existsb (λ pattern, includes (toLowerCase msg) pattern) retryableMessages
  | None => existsb (λ pattern, includes (toLowerCase msg) pattern) retryableMessages
  end.

(** [Math.min(INITIAL * 2 ** (attempt - 1), MAX) + Math.floor(Math.random() * JITTER)].
    The delays are integers; the product with [Math.random()] is rounded. *)
Definition retryDelay (cfg : Config) (fenv : FetchEnv) (attempt : nat) : Z :=
  Z.min (RETRY_INITIAL_DELAY_MS cfg * 2 ^ Z.of_nat (attempt - 1))
        (RETRY_MAX_DELAY_MS cfg)
  + Qfloor (num_mul (random fenv attempt) (inject_Z (RETRY_JITTER_MS cfg))).

(** The retry loop:
<<
    while (attempt < MAX_RETRY_ATTEMPTS) { attempt += 1; try { ... } catch (err) { ... } }
    throw lastError || new Error("Max retry attempts reached");
>>
    [remaining] is [MAX_RETRY_ATTEMPTS - attempt], the number of iterations
    the loop condition still allows. *)
Fixpoint retryLoop (cfg : Config) (fenv : FetchEnv) (url : string)
    (remaining attempt : nat) (lastError : option JsError)
    : result string * option JsError * list FetchEvent :=
  match remaining with
  | O => (Throw, Some (default (new_Error "Max retry attempts reached") lastError), [])
  | S remaining' =>
      let attempt := S attempt in
      (* the body of the try block: a value, a [continue], or a throw *)
      let tried : (result string + unit) * option JsError :=
        match outcome fenv attempt with
        | Failed err => (inl Throw, Some err)
        | Responded status json =>
            if negb ((200 <=? status)%nat && (status <=? 299)%nat) then
              if ((status =? 429)%nat || (500 <=? status)%nat)
                 && (attempt <? MAX_RETRY_ATTEMPTS cfg)%nat
              then (inr (), None)   (* sleep, rateLimit, continue *)
              else
                (inl Throw,
                 Some (new_Error ("HTTP " +:+ pretty status +:+ " for " +:+ url)%string))
            else
              match json with
              | Ok j => (inl (Ok j), None)
              | Throw => (inl Throw, Some (parseError fenv))
              end
        end in
      match tried with
      | (inr _, _) =>
          let delay := retryDelay cfg fenv attempt in
          let '(r, e, evs) := retryLoop cfg fenv url remaining' attempt lastError in
          (r, e, EvFetch attempt :: EvSleep delay :: EvRateLimit :: evs)
      | (inl (Ok j), _) => (Ok j, None, [EvFetch attempt; EvCache j])
      | (inl Throw, thrown) =>
          (* catch (err) *)
          let err := default (new_Error "") thrown in
          let lastError := Some err in
          let shouldRetry :=
            isRetryableError err
            || match errStatus err with
               | Some st => (st =? 429)%nat || (500 <=? st)%nat
               | None => false
               end in
          if negb shouldRetry || (MAX_RETRY_ATTEMPTS cfg <=? attempt)%nat
          then (Throw, Some err, [EvFetch attempt])
          else
            let delay := retryDelay cfg fenv attempt in
            let '(r, e, evs) := retryLoop cfg fenv url remaining' attempt lastError in
            (r, e, EvFetch attempt :: EvSleep delay :: EvRateLimit :: evs)
      end
  end.

(** [fetchJsonWithCache(key, url, ...)]: the value returned or the error
    thrown, and the events in order. *)
Definition fetchJsonWithCache (cfg : Config) (fenv : FetchEnv) (url : string)
    : result string * option JsError * list FetchEvent :=
  match lruHit fenv with
  | Some hit => (Ok hit, None, [])
  | None =>
      let '(r, e, evs) := retryLoop cfg fenv url (MAX_RETRY_ATTEMPTS cfg) 0 None in
      (r, e, EvRateLimit :: evs)
  end.

(** [fetchPackageMeta(packageName)], for a name made of characters that
    [encodeURIComponent] leaves as they are (letters, digits, [-], [_], [.]). *)
Definition fetchPackageMeta (cfg : Config) (fenv : FetchEnv) (packageName : string)
    : result string * option JsError * list FetchEvent :=
  let url := ("https://pypi.org/pypi/" +:+ toLowerCase packageName +:+ "/json")%string in
  fetchJsonWithCache cfg fenv url.

(** The number of [fetchWithTimeout] calls in a trace. *)
Definition attemptsMade (evs : list FetchEvent) : nat :=
  length (List.filter (λ ev, match ev with EvFetch _ => true | _ => false end) evs).

(** ** lib/cache.ts and the CSV loader: the prefix of a package's file

    The reverse-dependency index is split into one file per prefix.  The
    CSV loader (the writer) names the file of a package with
    [getPrefixChar]; lib/cache.ts (the reader) looks a package up in the
    file named by [getPrefixForPackage]. *)


(** [s.charAt(0)]: the first character as a string, or the empty string. *)
Definition charAt0 (s : string) : string :=
  match s with
  | EmptyString => EmptyString
  | String c _ => String c EmptyString
  end.

(** [getPrefixForPackage(pkgName)] of lib/cache.ts. *)
Definition getPrefixForPackage (pkgName : string) : string :=
  let firstChar := charAt0 (toLowerCase pkgName) in
  if String.leb "a" firstChar && String.leb firstChar "z" then firstChar
  else if String.leb "0" firstChar && String.leb firstChar "9" then "0-9"%string
  else "other"%string.

(** White space for [trim()], among ASCII characters: TAB, LF, VT, FF, CR
    and the space. *)
Definition is_space (c : ascii) : bool :=
  let n := nat_of_ascii c in
  ((9 <=? n)%nat && (n <=? 13)%nat) || (n =? 32)%nat.

Fixpoint trimStart (s : string) : string :=
  match s with
  | EmptyString => EmptyString
  | String c s' => if is_space c then trimStart s' else s
  end.

Fixpoint trimEnd (s : string) : string :=
  match s with
  | EmptyString => EmptyString
  | String c s' =>
      let t := trimEnd s' in
      if is_space c && String.eqb t "" then EmptyString else String c t
  end.

(** [s.trim()]. *)
Definition trim (s : string) : string := trimEnd (trimStart s).

(** [normalizePackageName] of the CSV loader:
    [name.toLowerCase().replace(/[-_.]/g, "-").trim()]. *)
Definition normalizePackageNameCsv (name : string) : string :=
  trim (string_map (λ c, if is_dash_class c then "-"%char else c) (toLowerCase name)).

(** [/[a-z]/.test(c)] and [/[0-9]/.test(c)] on a one-character string. *)
Definition is_az (c : ascii) : bool :=
  let n := nat_of_ascii c in (97 <=? n)%nat && (n <=? 122)%nat.
Definition is_09 (c : ascii) : bool :=
  let n := nat_of_ascii c in (48 <=? n)%nat && (n <=? 57)%nat.

(** [getPrefixChar(packageName)] of the CSV loader. *)
Definition getPrefixChar (packageName : string) : string :=
  match normalizePackageNameCsv packageName with
  | EmptyString => "other"%string           (* if (!normalized) *)
  | String firstChar _ =>
      if is_az firstChar then String firstChar EmptyString
      else if is_09 firstChar then "0-9"%string
      else "other"%string
  end.

(** ** Vocabulary of the statements *)

(** An array is strictly increasing for [ltb]. *)
Definition increasing {A : Type} (ltb : A → A → bool) (l : list A) : Prop :=
  StronglySorted (λ x y, ltb x y = true) l.


(** The selector after a sequence of pushes into an empty one. *)
Definition heapPushAll (limit : Q) (items : list SimilarItem) : list SimilarItem :=
  foldl (heapPushBounded limit) [] items.

(** The array satisfies the min-heap order on [jaccard]: no element is
    below its parent. *)
Definition heap_ordered (heap : list SimilarItem) : Prop :=
  ∀ i x y, (0 < i)%nat → heap !! i = Some x → heap !! ((i - 1) / 2)%nat = Some y →
    (jaccard y <= jaccard x)%Q.

(** The name [n] does not normalise to the queried package's name. *)
Definition otherName (pkg n : string) : Prop :=
  normalizePackageName n ≠ normalizePackageName pkg.

(** A list is in descending order of [jaccard]. *)
Definition descending_by_jaccard (l : list SimilarItem) : Prop :=
  StronglySorted (λ a b, (jaccard b <= jaccard a)%Q) l.

(** A list is in descending order of [jaccard] with ties in descending
    order of [sharedDependents]. *)
Definition descending_ties_by_shared (l : list SimilarItem) : Prop :=
  StronglySorted
    (λ a b, (jaccard b < jaccard a)%Q ∨
            ((jaccard b == jaccard a)%Q ∧ sharedDependents b ≤ sharedDependents a)) l.

(** Every direct dependency of the query in the list comes before every
    entry that is not one. *)
Definition direct_first (pkgDepsSet : list string) (l : list SimilarItem) : Prop :=
  StronglySorted
    (λ a b, isDirectDep pkgDepsSet (name b) = true →
            isDirectDep pkgDepsSet (name a) = true) l.

(** The order of [computeCooccurrenceFromForwardDeps]: direct dependencies
    first, then by [sharedDependents] descending, then by [jaccard]
    descending. *)
Definition direct_shared_jaccard_order (pkgDepsSet : list string)
    (l : list SimilarItem) : Prop :=
  StronglySorted
    (λ a b,
       (isDirectDep pkgDepsSet (name a) = true ∧ isDirectDep pkgDepsSet (name b) = false) ∨
       (isDirectDep pkgDepsSet (name a) = isDirectDep pkgDepsSet (name b) ∧
        (sharedDependents b < sharedDependents a ∨
         (sharedDependents b = sharedDependents a ∧ (jaccard b <= jaccard a)%Q)))) l.

(** What holds of the map [cooccur] of [computeCooccurrenceFromForwardDeps]
    from the entry of the direct dependencies on: its keys are distinct,
    every popular dependency of the query is a key, and every key that is a
    direct dependency is a popular dependency of the query. *)
Definition forward_inv (popularSet pkgDeps : list string) (m : list (string * Z))
    : Prop :=
  NoDup m.*1 ∧
  (∀ dep, dep ∈ pkgDeps → Set_has popularSet (normalizePackageName dep) = true →
          dep ∈ m.*1) ∧
  (∀ k, k ∈ m.*1 →
        isDirectDep (Set_from (normalizePackageName <$> pkgDeps)) k = true →
        k ∈ pkgDeps ∧ Set_has popularSet (normalizePackageName k) = true).

(** The score of an item is between 0 and 1 and its shared count is not
    negative. *)
Definition score_in_range (r : SimilarItem) : Prop :=
  (0 <= jaccard r)%Q ∧ (jaccard r <= 1)%Q ∧ 0 ≤ sharedDependents r.

(** The [jaccard] at index [i] (0 outside the array). *)
Definition key (heap : list SimilarItem) (i : nat) : Q :=
  from_option jaccard 0%Q (heap !! i).

(** The min-heap order holds except, possibly, between [i] and its parent
    (the state of [heapSiftUp] at the head of its loop). *)
Definition ordered_but_up (heap : list SimilarItem) (i : nat) : Prop :=
  (∀ j, (0 < j < length heap)%nat → j ≠ i →
        (key heap ((j - 1) / 2) <= key heap j)%Q) ∧
  (∀ j, (0 < j < length heap)%nat → ((j - 1) / 2)%nat = i → (0 < i)%nat →
        (key heap ((i - 1) / 2) <= key heap j)%Q).

(** The min-heap order holds except, possibly, between [i] and its
    children (the state of [heapSiftDown] at the head of its loop). *)
Definition ordered_but_down (heap : list SimilarItem) (i : nat) : Prop :=
  (∀ j, (0 < j < length heap)%nat → ((j - 1) / 2)%nat ≠ i →
        (key heap ((j - 1) / 2) <= key heap j)%Q) ∧
  (∀ j, (0 < j < length heap)%nat → ((j - 1) / 2)%nat = i → (0 < i)%nat →
        (key heap ((i - 1) / 2) <= key heap j)%Q).

(** The capacity of the selector for a [limit]: the least natural number
    that is not below [limit] (the selector takes an item while
    [heap.length < limit]). *)
Definition cap (limit : Q) : nat := Z.to_nat (Qceiling limit).

(** Where [slice(0, limit)] cuts for a [limit] that is not negative: the
    greatest natural number that is not above [limit]. *)
Definition cut (limit : Q) : nat := Z.to_nat (Qfloor limit).

(** The state of a selector of capacity [limit] after a sequence [seen] of
    pushes. *)
Definition selector_inv (limit : nat) (seen h : list SimilarItem) : Prop :=
  heap_ordered h ∧
  length h = min limit (length seen) ∧
  ∃ dropped, h ++ dropped ≡ₚ seen ∧
    ∀ d y, d ∈ dropped → y ∈ h → (jaccard d <= jaccard y)%Q.

#[global] Instance Q_eq_dec : EqDecision Q.
Proof. solve_decision. Defined.

#[global] Instance Qlt_dec (x y : Q) : Decision (x < y)%Q :=
  Z_lt_dec (Qnum x * QDen y) (Qnum y * QDen x).

(** [s] is one of the [k] highest distinct values of [scores]: it occurs
    there and fewer than [k] distinct values of [scores] are above it. *)
Definition among_highest_distinct (k : nat) (scores : list Q) (s : Q) : Prop :=
  s ∈ scores ∧
  (length (remove_dups (filter (λ t, Qlt s t) scores)) < k)%nat.

(** ** Environments of the examples *)

(** Every task of every stage completes, in the order the tasks were started. *)
Definition sequentialOrder : Stage → nat → list nat := λ _ n, seq 0 n.

Definition noOptions : Options := mkOptions None None None None.

(** Two candidates with the same score and different shared counts: [x]
    with dependents [{a}] and [y] with [{a,b,c,d}] against the base
    [{a,b}]. *)
Definition env_ties : Env := {|
  reverseDepsCache :=
    list_to_map [("q", ["a"; "b"]); ("x", ["a"]); ("y", ["a"; "b"; "c"; "d"])]%string;
  popularPackages := ["x"; "y"]%string;
  similarIndexCache := Some ∅;
  responseCache := λ _ _, None;
  packageDeps := λ _, None;
  dependentsBitset := λ _, Some [];
  completionOrder := sequentialOrder;
  refinementStepsInBudget := 0;
|}.

(** Three candidates that pass the thresholds against the base [{a,b}]:
    [x] with dependents [{a}], [y] with [{a,b,c,d}] and [z] with [{a,b,c}]. *)
Definition env_three : Env := {|
  reverseDepsCache :=
    list_to_map [("q", ["a"; "b"]); ("x", ["a"]); ("y", ["a"; "b"; "c"; "d"]);
                 ("z", ["a"; "b"; "c"])]%string;
  popularPackages := ["x"; "y"; "z"]%string;
  similarIndexCache := Some ∅;
  responseCache := λ _ _, None;
  packageDeps := λ _, None;
  dependentsBitset := λ _, Some [];
  completionOrder := sequentialOrder;
  refinementStepsInBudget := 0;
|}.

(** A query without reverse dependents whose dependencies are [numpy], [a],
    [b] and [c]; [numpy] and [scipy] are popular and [scipy] depends on
    [a], [b] and [c]. *)
Definition env_fwd : Env := {|
  reverseDepsCache := ∅;
  popularPackages := ["numpy"; "scipy"]%string;
  similarIndexCache := Some ∅;
  responseCache := λ _ _, None;
  packageDeps := λ p,
    if String.eqb p "q" then Some ["numpy"; "a"; "b"; "c"]%string
    else if String.eqb p "scipy" then Some ["a"; "b"; "c"]%string
    else None;
  dependentsBitset := λ _, Some [];
  completionOrder := sequentialOrder;
  refinementStepsInBudget := 0;
|}.


(** [requests] has cached reverse dependents, and the bitset index cannot be
    read ([getDependentsBitset] rejects). *)
Definition env_broken : Env := {|
  reverseDepsCache := list_to_map [("requests", ["a"; "b"])]%string;
  popularPackages := ["x"; "y"]%string;
  similarIndexCache := Some ∅;
  responseCache := λ _ _, None;
  packageDeps := λ _, None;
  dependentsBitset := λ _, None;
  completionOrder := sequentialOrder;
  refinementStepsInBudget := 0;
|}.

(** ** Vocabulary of the traces of [fetchJsonWithCache] *)

(** The attempt numbers of the [fetchWithTimeout] calls of a trace, in order. *)
Definition fetchAttempts (evs : list FetchEvent) : list nat :=
  omap (λ ev, match ev with EvFetch n => Some n | _ => None end) evs.

(** The delays of the retry sleeps of a trace, in order. *)
Definition sleeps (evs : list FetchEvent) : list Z :=
  omap (λ ev, match ev with EvSleep ms => Some ms | _ => None end) evs.


(** A query with the dependents [a] and [b]: [a] depends on the query and
    [numpy], [b] on the query, [numpy] and [scipy]. *)
Definition env_cooccur : Env := {|
  reverseDepsCache := list_to_map [("q", ["a"; "b"])]%string;
  popularPackages := [];
  similarIndexCache := Some ∅;
  responseCache := λ _ _, None;
  packageDeps := λ p,
    if String.eqb p "a" then Some ["q"; "numpy"]%string
    else if String.eqb p "b" then Some ["q"; "numpy"; "scipy"]%string
    else None;
  dependentsBitset := λ _, Some [];
  completionOrder := sequentialOrder;
  refinementStepsInBudget := 0;
|}.

(* ===================================================================== *)
(** * Part II: properties                                                *)
(* ===================================================================== *)

(** ** Numbers *)

(** *** Rounding to an integer *)

Lemma round_half_even_bounds (x : Q) :
  Qfloor x <= round_half_even x <= Qfloor x + 1.
Proof.
  unfold round_half_even. cbv zeta.
  destruct (_ ?= _)%Q; [destruct (Z.even _)| |]; lia.
Qed.

Lemma round_half_even_Z (z : Z) : round_half_even (inject_Z z) = z.
Proof.
  unfold round_half_even. cbv zeta. rewrite Qfloor_Z.
  destruct (Qcompare_spec (inject_Z z - inject_Z z) (1 # 2)) as [H|H|H]; [lra|done|lra].
Qed.

Lemma round_half_even_mono (x y : Q) :
  (x <= y)%Q → round_half_even x <= round_half_even y.
Proof.
  intros Hxy. pose proof (Qfloor_resp_le x y Hxy) as Hf.
  pose proof (round_half_even_bounds x). pose proof (round_half_even_bounds y).
  destruct (decide (Qfloor x = Qfloor y)) as [E|]; [|lia].
  unfold round_half_even in *. cbv zeta in *. rewrite <- E in *.
  destruct (Qcompare_spec (x - inject_Z (Qfloor x)) (1 # 2)) as [Hx|Hx|Hx];
    destruct (Qcompare_spec (y - inject_Z (Qfloor x)) (1 # 2)) as [Hy|Hy|Hy];
    try destruct (Z.even _); try lia; lra.
Qed.

(** *** The exponent *)

Lemma two_pow_pos (k : Z) : (0 < 2 ^ k)%Q.
Proof. by apply Qpower_0_lt. Qed.

Lemma two_pow_add (a b : Z) : (2 ^ (a + b) == 2 ^ a * 2 ^ b)%Q.
Proof. by apply Qpower_plus. Qed.

Lemma two_pow_le (a b : Z) : a <= b → (2 ^ a <= 2 ^ b)%Q.
Proof. intros H. apply Qpower_le_compat_l; [done|lra]. Qed.

Lemma two_pow_lt_inv (a b : Z) : (2 ^ a < 2 ^ b)%Q → a < b.
Proof. intros H. apply (Qpower_lt_compat_l_inv 2); [done|lra]. Qed.

Lemma two_pow_Z (a : Z) : 0 <= a → (inject_Z (2 ^ a) == 2 ^ a)%Q.
Proof. intros H. by rewrite Zpower_Qpower. Qed.

Lemma ilog2_spec (x : Q) :
  (0 < x)%Q → (2 ^ ilog2 x <= x)%Q ∧ (x < 2 ^ (ilog2 x + 1))%Q.
Proof.
  intros Hx. unfold ilog2. cbv zeta.
  destruct x as [p q]. cbn [Qnum Qden].
  assert (0 < p) as Hp by (unfold Qlt in Hx; cbn in Hx; lia).
  set (a := Z.log2 p). set (b := Z.log2 (Zpos q)).
  pose proof (Z.log2_nonneg p). pose proof (Z.log2_nonneg (Zpos q)).
  destruct (Z.log2_spec p Hp) as [Ha1 Ha2]. fold a in Ha1, Ha2.
  destruct (Z.log2_spec (Zpos q) eq_refl) as [Hb1 Hb2]. fold b in Hb1, Hb2.
  replace (Z.succ a) with (a + 1) in Ha2 by lia.
  replace (Z.succ b) with (b + 1) in Hb2 by lia.
  assert (p # q == inject_Z p / inject_Z (Zpos q))%Q as Ex by apply Qmake_Qdiv.
  assert (0 < inject_Z (Zpos q))%Q as Hq by (unfold Qlt; cbn; lia).
  assert ((p # q) * inject_Z (Zpos q) == inject_Z p)%Q as Em.
  { rewrite Ex. field. lra. }
  (* bounds on numerator and denominator as rationals *)
  assert (2 ^ a <= inject_Z p)%Q as Qa1
    by (rewrite <- two_pow_Z by lia; by rewrite <- Zle_Qle).
  assert (inject_Z p < 2 ^ (a + 1))%Q as Qa2
    by (rewrite <- two_pow_Z by lia; by rewrite <- Zlt_Qlt).
  assert (2 ^ b <= inject_Z (Zpos q))%Q as Qb1
    by (rewrite <- two_pow_Z by lia; by rewrite <- Zle_Qle).
  assert (inject_Z (Zpos q) < 2 ^ (b + 1))%Q as Qb2
    by (rewrite <- two_pow_Z by lia; by rewrite <- Zlt_Qlt).
  pose proof (two_pow_pos b) as Pb. pose proof (two_pow_pos (a - b)) as Pd.
  pose proof (two_pow_pos (a - b - 1)) as Pd1.
  assert (2 ^ (a - b - 1) < p # q)%Q as Hlow.
  { apply (Qmult_lt_r _ _ (inject_Z (Zpos q))); [done|]. rewrite Em.
    apply Qlt_le_trans with (2 ^ (a - b - 1) * 2 ^ (b + 1))%Q.
    - apply Qmult_lt_l; done.
    - rewrite <- two_pow_add. by replace (a - b - 1 + (b + 1)) with a by lia. }
  assert (p # q < 2 ^ (a - b + 1))%Q as Hhigh.
  { apply (Qmult_lt_r _ _ (inject_Z (Zpos q))); [done|]. rewrite Em.
    apply Qlt_le_trans with (2 ^ (a - b + 1) * 2 ^ b)%Q.
    - rewrite <- two_pow_add. by replace (a - b + 1 + b) with (a + 1) by lia.
    - apply Qmult_le_l; [apply two_pow_pos|done]. }
  destruct (Qle_bool (2 ^ (a - b)) (p # q)) eqn:E.
  - apply Qle_bool_iff in E. done.
  - split; [by apply Qlt_le_weak|].
    replace (a - b - 1 + 1) with (a - b) by lia.
    apply Qnot_le_lt. intros Hle. apply Qle_bool_iff in Hle. congruence.
Qed.

Lemma ilog2_unique (x : Q) (e : Z) :
  (2 ^ e <= x)%Q → (x < 2 ^ (e + 1))%Q → ilog2 x = e.
Proof.
  intros H1 H2.
  assert (0 < x)%Q as Hx by (eapply Qlt_le_trans; [apply (two_pow_pos e)|done]).
  destruct (ilog2_spec x Hx) as [S1 S2].
  assert (ilog2 x < e + 1).
  { apply two_pow_lt_inv. eapply Qle_lt_trans; done. }
  assert (e < ilog2 x + 1).
  { apply two_pow_lt_inv. eapply Qle_lt_trans; done. }
  lia.
Qed.

Lemma ilog2_mono (x y : Q) : (0 < x)%Q → (x <= y)%Q → ilog2 x <= ilog2 y.
Proof.
  intros Hx Hxy.
  assert (0 < y)%Q as Hy by (eapply Qlt_le_trans; done).
  destruct (ilog2_spec x Hx) as [S1 _]. destruct (ilog2_spec y Hy) as [_ S2].
  assert (ilog2 x < ilog2 y + 1); [|lia].
  apply two_pow_lt_inv. eapply Qle_lt_trans; [exact S1|]. eapply Qle_lt_trans; done.
Qed.

Lemma ilog2_proper (x y : Q) : (0 < x)%Q → (x == y)%Q → ilog2 x = ilog2 y.
Proof.
  intros Hx E. symmetry. destruct (ilog2_spec x Hx) as [S1 S2].
  apply ilog2_unique; by rewrite <- E.
Qed.

(** *** [double] *)

Lemma round_half_even_proper (x y : Q) :
  (x == y)%Q → round_half_even x = round_half_even y.
Proof.
  intros E. unfold round_half_even. cbv zeta.
  rewrite (Qfloor_comp x y E).
  assert ((x - inject_Z (Qfloor y) ?= 1 # 2) = (y - inject_Z (Qfloor y) ?= 1 # 2))%Q
    as -> ; [|done].
  by rewrite E.
Qed.

Lemma double_pos_proper (x y : Q) :
  (0 < x)%Q → (x == y)%Q → double_pos x = double_pos y.
Proof.
  intros Hx E. unfold double_pos. cbv zeta.
  rewrite (ilog2_proper x y Hx E). apply Qred_complete.
  rewrite (round_half_even_proper (x * 2 ^ (52 - ilog2 y)) (y * 2 ^ (52 - ilog2 y))).
  - reflexivity.
  - by rewrite E.
Qed.

Lemma double_proper (x y : Q) : (x == y)%Q → double x = double y.
Proof.
  intros E. unfold double.
  assert ((x ?= 0) = (y ?= 0))%Q as Ec by (by rewrite E).
  rewrite <- Ec.
  destruct (Qcompare_spec x 0) as [H|H|H]; [done| |].
  - f_equal. apply double_pos_proper; [lra|by rewrite E].
  - by apply double_pos_proper.
Qed.

(** The scaled significand lies between 2^52 and 2^53. *)
Lemma significand_bounds (x : Q) :
  (0 < x)%Q →
  2 ^ 52 <= round_half_even (x * 2 ^ (52 - ilog2 x)) <= 2 ^ 53.
Proof.
  intros Hx. destruct (ilog2_spec x Hx) as [S1 S2].
  set (e := ilog2 x) in *.
  pose proof (two_pow_pos (52 - e)) as Hp.
  split.
  - rewrite <- (round_half_even_Z (2 ^ 52)). apply round_half_even_mono.
    rewrite two_pow_Z by lia.
    assert (2 ^ 52 == 2 ^ e * 2 ^ (52 - e))%Q as ->.
    { rewrite <- two_pow_add. by replace (e + (52 - e)) with 52 by lia. }
    by apply Qmult_le_r.
  - rewrite <- (round_half_even_Z (2 ^ 53)). apply round_half_even_mono.
    rewrite two_pow_Z by lia.
    assert (2 ^ 53 == 2 ^ (e + 1) * 2 ^ (52 - e))%Q as ->.
    { rewrite <- two_pow_add. by replace (e + 1 + (52 - e)) with 53 by lia. }
    apply Qmult_le_r; [done|]. by apply Qlt_le_weak.
Qed.

Lemma double_pos_bounds (x : Q) :
  (0 < x)%Q →
  (2 ^ ilog2 x <= double_pos x)%Q ∧ (double_pos x <= 2 ^ (ilog2 x + 1))%Q.
Proof.
  intros Hx. unfold double_pos. cbv zeta. rewrite Qred_correct.
  destruct (significand_bounds x Hx) as [B1 B2].
  set (e := ilog2 x) in *. set (n := round_half_even _) in *.
  pose proof (two_pow_pos (e - 52)) as Hp.
  split.
  - assert (2 ^ e == 2 ^ 52 * 2 ^ (e - 52))%Q as ->.
    { rewrite <- two_pow_add. by replace (52 + (e - 52)) with e by lia. }
    apply Qmult_le_r; [done|]. rewrite <- two_pow_Z by lia. by rewrite <- Zle_Qle.
  - assert (2 ^ (e + 1) == 2 ^ 53 * 2 ^ (e - 52))%Q as ->.
    { rewrite <- two_pow_add. by replace (53 + (e - 52)) with (e + 1) by lia. }
    apply Qmult_le_r; [done|]. rewrite <- two_pow_Z by lia. by rewrite <- Zle_Qle.
Qed.

Lemma double_pos_mono (x y : Q) :
  (0 < x)%Q → (x <= y)%Q → (double_pos x <= double_pos y)%Q.
Proof.
  intros Hx Hxy.
  assert (0 < y)%Q as Hy by (eapply Qlt_le_trans; done).
  pose proof (ilog2_mono x y Hx Hxy) as He.
  destruct (decide (ilog2 x = ilog2 y)) as [E|Hne].
  - unfold double_pos. cbv zeta. rewrite !Qred_correct, E.
    apply Qmult_le_r; [apply two_pow_pos|]. rewrite <- Zle_Qle.
    apply round_half_even_mono. apply Qmult_le_r; [apply two_pow_pos|done].
  - destruct (double_pos_bounds x Hx) as [_ B1].
    destruct (double_pos_bounds y Hy) as [B2 _].
    eapply Qle_trans; [exact B1|]. eapply Qle_trans; [|exact B2].
    apply two_pow_le. lia.
Qed.

Lemma double_pos_pos (x : Q) : (0 < x)%Q → (0 < double_pos x)%Q.
Proof.
  intros Hx. destruct (double_pos_bounds x Hx) as [B _].
  eapply Qlt_le_trans; [apply (two_pow_pos (ilog2 x))|done].
Qed.

Lemma double_mono (x y : Q) : (x <= y)%Q → (double x <= double y)%Q.
Proof.
  intros Hxy. unfold double.
  destruct (Qcompare_spec x 0) as [Hx|Hx|Hx];
    destruct (Qcompare_spec y 0) as [Hy|Hy|Hy]; try lra.
  - apply Qlt_le_weak, double_pos_pos. lra.
  - assert (0 < double_pos (- x))%Q by (apply double_pos_pos; lra). lra.
  - assert (0 < double_pos (- x))%Q by (apply double_pos_pos; lra).
    assert (0 < double_pos (- y))%Q by (apply double_pos_pos; lra).
    assert (double_pos (- y) <= double_pos (- x))%Q by (apply double_pos_mono; lra).
    lra.
  - assert (0 < double_pos (- x))%Q by (apply double_pos_pos; lra).
    assert (0 < double_pos y)%Q by (apply double_pos_pos; lra). lra.
  - by apply double_pos_mono.
Qed.

Lemma double_0 : double 0 = 0%Q.
Proof. reflexivity. Qed.

Lemma double_1 : double 1 = 1%Q.
Proof. by vm_compute. Qed.

Lemma double_nonneg (x : Q) : (0 <= x)%Q → (0 <= double x)%Q.
Proof. intros H. rewrite <- double_0. by apply double_mono. Qed.


(** *** Division and [toFixed(6)] *)

Lemma num_div_zero (b : Z) : num_div 0 b = 0%Q.
Proof.
  unfold num_div. rewrite <- double_0. apply double_proper.
  unfold Qdiv. apply Qmult_0_l.
Qed.

Lemma num_div_same (a : Z) : 0 < a -> num_div a a = 1%Q.
Proof.
  intros Ha. unfold num_div. rewrite <- double_1. apply double_proper.
  assert (0 < inject_Z a)%Q by (unfold Qlt; cbn; lia). field. lra.
Qed.

Lemma num_div_le (a b c d : Z) :
  0 < b -> 0 < d -> a * d <= c * b -> (num_div a b <= num_div c d)%Q.
Proof.
  intros Hb Hd H. unfold num_div. apply double_mono.
  assert (0 < inject_Z b)%Q by (unfold Qlt; cbn; lia).
  assert (0 < inject_Z d)%Q by (unfold Qlt; cbn; lia).
  apply Qle_shift_div_l; [done|].
  assert (inject_Z a / inject_Z b * inject_Z d == inject_Z a * inject_Z d / inject_Z b)%Q
    as -> by (field; lra).
  apply Qle_shift_div_r; [done|].
  rewrite <- !inject_Z_mult. by rewrite <- Zle_Qle.
Qed.

Lemma num_div_nonneg (a b : Z) : 0 <= a -> 0 < b -> (0 <= num_div a b)%Q.
Proof.
  intros Ha Hb. rewrite <- (num_div_zero 1). apply num_div_le; lia.
Qed.

Lemma num_div_mono (s s' t : Z) : 0 < t -> s <= s' -> (num_div s t <= num_div s' t)%Q.
Proof. intros Ht Hs. apply num_div_le; [done..|]. nia. Qed.

Lemma num_div_le_1 (a b : Z) : 0 < b -> a <= b -> (num_div a b <= 1)%Q.
Proof.
  intros Hb Hab. rewrite <- (num_div_same b Hb). by apply num_div_mono.
Qed.

Lemma toFixed6_abs_nonneg (x : Q) : (0 <= x)%Q -> (0 <= toFixed6_abs x)%Q.
Proof.
  intros Hx. unfold toFixed6_abs. destruct (Qle_bool _ x).
  - by rewrite Qred_correct.
  - apply double_nonneg. apply Qle_shift_div_l; [done|].
    rewrite Qmult_0_l. change 0%Q with (inject_Z 0). rewrite <- Zle_Qle.
    transitivity (Qfloor (inject_Z 0)); [by rewrite Qfloor_Z|].
    apply Qfloor_resp_le. unfold inject_Z. lra.
Qed.

Lemma toFixed6_abs_mono (x y : Q) :
  (0 <= x)%Q -> (x <= y)%Q -> (toFixed6_abs x <= toFixed6_abs y)%Q.
Proof.
  intros Hx Hxy. unfold toFixed6_abs.
  destruct (Qle_bool _ x) eqn:Ex; destruct (Qle_bool _ y) eqn:Ey.
  - by rewrite !Qred_correct.
  - apply Qle_bool_iff in Ex. apply not_true_iff_false in Ey.
    destruct Ey. apply Qle_bool_iff. by eapply Qle_trans.
  - apply Qle_bool_iff in Ey. apply not_true_iff_false in Ex.
    rewrite Qred_correct. eapply Qle_trans; [|exact Ey].
    assert (double (inject_Z (10 ^ 21)) = Qred (inject_Z (10 ^ 21))) as Ed
      by (by vm_compute).
    rewrite <- (Qred_correct (inject_Z (10 ^ 21))), <- Ed. apply double_mono.
    apply Qle_shift_div_r; [done|]. rewrite <- inject_Z_mult, <- Zle_Qle.
    assert (~ (inject_Z (10 ^ 21) <= x)%Q) as Hlt by (by rewrite <- Qle_bool_iff).
    apply Qnot_le_lt in Hlt.
    assert (Qfloor (inject_Z (10 ^ 21 * 1000000) + (1 # 2)) = 10 ^ 21 * 1000000) as <-
      by (by vm_compute).
    apply Qfloor_resp_le, Qplus_le_l. rewrite inject_Z_mult.
    apply Qmult_le_compat_r; [by apply Qlt_le_weak|done].
  - apply double_mono. apply Qmult_le_r; [done|]. rewrite <- Zle_Qle.
    apply Qfloor_resp_le. apply Qplus_le_l. by apply Qmult_le_compat_r.
Qed.

Lemma toFixed6_mono (x y : Q) : (x <= y)%Q -> (toFixed6 x <= toFixed6 y)%Q.
Proof.
  intros Hxy. unfold toFixed6.
  destruct (Qle_bool 0 x) eqn:Ex; destruct (Qle_bool 0 y) eqn:Ey.
  - apply Qle_bool_iff in Ex. by apply toFixed6_abs_mono.
  - apply Qle_bool_iff in Ex. apply not_true_iff_false in Ey.
    destruct Ey. apply Qle_bool_iff. by eapply Qle_trans.
  - apply Qle_bool_iff in Ey.
    assert (~ (0 <= x)%Q) as Hx by (by rewrite <- Qle_bool_iff, Ex).
    apply Qnot_le_lt in Hx.
    pose proof (toFixed6_abs_nonneg (- x)). pose proof (toFixed6_abs_nonneg y).
    lra.
  - assert (~ (0 <= x)%Q) as Hx by (by rewrite <- Qle_bool_iff, Ex).
    assert (~ (0 <= y)%Q) as Hy by (by rewrite <- Qle_bool_iff, Ey).
    apply Qnot_le_lt in Hx, Hy.
    pose proof (toFixed6_abs_mono (- y) (- x)). lra.
Qed.

(** A score between 0 and 1 stays there when rounded to six decimals. *)
Lemma toFixed6_unit (x : Q) :
  (0 <= x)%Q -> (x <= 1)%Q -> (0 <= toFixed6 x)%Q /\ (toFixed6 x <= 1)%Q.
Proof.
  intros H0 H1. split.
  - assert (toFixed6 0 = 0%Q) as <- by (by vm_compute). by apply toFixed6_mono.
  - assert (toFixed6 1 = 1%Q) as <- by (by vm_compute). by apply toFixed6_mono.
Qed.

(** *** Limits: a number compared with lengths, and [slice] *)

Lemma num_of_nat_le (n m : nat) : (num_of_nat n <= num_of_nat m)%Q ↔ (n ≤ m)%nat.
Proof. unfold num_of_nat. rewrite <- Zle_Qle. lia. Qed.

Lemma num_of_nat_nonneg (n : nat) : (0 <= num_of_nat n)%Q.
Proof. unfold num_of_nat. change 0%Q with (inject_Z 0). rewrite <- Zle_Qle. lia. Qed.

Lemma Qle_bool_spec (x y : Q) : reflect (x <= y)%Q (Qle_bool x y).
Proof.
  destruct (Qle_bool x y) eqn:E; constructor.
  - by apply Qle_bool_iff.
  - intros H. apply Qle_bool_iff in H. congruence.
Qed.

(** [heap.length < limit] holds exactly when the length is below the
    capacity. *)
Lemma num_ltb_length_cap (n : nat) (limit : Q) :
  num_ltb (num_of_nat n) limit = (n <? cap limit)%nat.
Proof.
  unfold num_ltb, num_of_nat, cap.
  destruct (Qle_bool_spec limit (inject_Z (Z.of_nat n))) as [H|H]; cbn [negb].
  - symmetry. apply Nat.ltb_ge.
    apply Qceiling_resp_le in H. rewrite Qceiling_Z in H. lia.
  - symmetry. apply Nat.ltb_lt. apply Qnot_le_lt in H.
    pose proof (Qle_ceiling limit) as Hc.
    assert (inject_Z (Z.of_nat n) < inject_Z (Qceiling limit))%Q as Hlt
      by (eapply Qlt_le_trans; done).
    rewrite <- Zlt_Qlt in Hlt. lia.
Qed.

(** [limit <= 0] holds exactly when the capacity is 0. *)
Lemma num_leb_0_cap (limit : Q) : num_leb limit 0 = (cap limit =? 0)%nat.
Proof.
  unfold num_leb, cap.
  destruct (Qle_bool_spec limit 0) as [H|H].
  - symmetry. apply Nat.eqb_eq.
    apply Qceiling_resp_le in H. change 0%Q with (inject_Z 0) in H.
    rewrite Qceiling_Z in H. lia.
  - symmetry. apply Nat.eqb_neq. apply Qnot_le_lt in H.
    pose proof (Qle_ceiling limit) as Hc.
    assert (inject_Z 0 < inject_Z (Qceiling limit))%Q as Hlt
      by (eapply Qlt_le_trans; done).
    rewrite <- Zlt_Qlt in Hlt. lia.
Qed.

Lemma cap_integer (limit : Q) (k : nat) : (limit == num_of_nat k)%Q → cap limit = k.
Proof.
  intros E. unfold cap. rewrite (Qceiling_comp _ _ E). unfold num_of_nat.
  rewrite Qceiling_Z. lia.
Qed.

Lemma cut_integer (limit : Q) (k : nat) : (limit == num_of_nat k)%Q → cut limit = k.
Proof.
  intros E. unfold cut. rewrite (Qfloor_comp _ _ E). unfold num_of_nat.
  rewrite Qfloor_Z. lia.
Qed.

Lemma cut_le_cap (limit : Q) : (cut limit ≤ cap limit)%nat.
Proof.
  unfold cut, cap. pose proof (Qfloor_le limit). pose proof (Qle_ceiling limit).
  assert (inject_Z (Qfloor limit) <= inject_Z (Qceiling limit))%Q as H1
    by (eapply Qle_trans; done).
  rewrite <- Zle_Qle in H1. lia.
Qed.

(** The capacity is below [limit + 1]: it exceeds a [limit] that is not
    negative by less than one. *)
Lemma cap_lt (limit : Q) : (0 <= limit)%Q → (num_of_nat (cap limit) < limit + 1)%Q.
Proof.
  intros H0. unfold num_of_nat, cap.
  assert (0 <= Qceiling limit).
  { apply Qceiling_resp_le in H0. change 0%Q with (inject_Z 0) in H0.
    by rewrite Qceiling_Z in H0. }
  rewrite Z2Nat.id by done.
  pose proof (Qceiling_lt limit) as Hc.
  replace (Qceiling limit) with ((Qceiling limit - 1) + 1) by lia.
  rewrite inject_Z_plus. change (inject_Z 1) with 1%Q. lra.
Qed.

Lemma cut_le (limit : Q) : (0 <= limit)%Q → (num_of_nat (cut limit) <= limit)%Q.
Proof.
  intros H0. unfold num_of_nat, cut.
  assert (0 <= Qfloor limit).
  { apply Qfloor_resp_le in H0. change 0%Q with (inject_Z 0) in H0.
    by rewrite Qfloor_Z in H0. }
  rewrite Z2Nat.id by done. apply Qfloor_le.
Qed.

Lemma le_cut (n : nat) (limit : Q) : (num_of_nat n <= limit)%Q → (n ≤ cut limit)%nat.
Proof.
  intros H. unfold cut. apply Qfloor_resp_le in H. unfold num_of_nat in H.
  rewrite Qfloor_Z in H. lia.
Qed.

Lemma toInteger_nonneg (e : Q) : (0 <= e)%Q → toInteger e = Qfloor e ∧ 0 <= Qfloor e.
Proof.
  intros H0. unfold toInteger.
  destruct (Qle_bool_spec 0 e) as [_|H]; [|done]. split; [done|].
  apply Qfloor_resp_le in H0. change 0%Q with (inject_Z 0) in H0.
  by rewrite Qfloor_Z in H0.
Qed.

Lemma sliceEnd_nonneg (len : nat) (e : Q) :
  (0 <= e)%Q → sliceEnd len e = (cut e `min` len)%nat.
Proof.
  intros H0. unfold sliceEnd, cut. cbv zeta.
  destruct (toInteger_nonneg e H0) as [-> Hf].
  destruct (Z.ltb_spec (Qfloor e) 0); lia.
Qed.

Lemma sliceEnd_le (len : nat) (e : Q) : (sliceEnd len e ≤ len)%nat.
Proof. unfold sliceEnd. cbv zeta. destruct (_ <? 0) eqn:E; [apply Z.ltb_lt in E|]; lia. Qed.

(** For a [limit] that is not negative, [slice(0, limit)] keeps the first
    [cut limit] elements. *)
Lemma Array_slice0_nonneg {A : Type} (l : list A) (e : Q) :
  (0 <= e)%Q → Array_slice0 l e = take (cut e) l.
Proof.
  intros H0. unfold Array_slice0. rewrite sliceEnd_nonneg by done.
  destruct (decide (cut e ≤ length l)%nat).
  - by rewrite Nat.min_l.
  - rewrite Nat.min_r by lia. by rewrite !take_ge by lia.
Qed.

Lemma Array_slice0_length {A : Type} (l : list A) (e : Q) :
  (0 <= e)%Q → (length (Array_slice0 l e) ≤ cut e)%nat.
Proof. intros H0. rewrite Array_slice0_nonneg by done. rewrite length_take. lia. Qed.

Lemma Array_slice0_elem {A : Type} (l : list A) (e : Q) (x : A) :
  x ∈ Array_slice0 l e → x ∈ l.
Proof. apply subseteq_take. Qed.

(** ** The order of strings *)

Lemma str_ltb_lt (x y : string) : String.ltb x y = true ↔ String_as_OT.lt x y.
Proof.
  unfold String.ltb. rewrite <- String_as_OT.cmp_lt. unfold String_as_OT.cmp.
  destruct (String.compare x y); split; congruence.
Qed.

Lemma str_eqb_eq (x y : string) : String.eqb x y = true ↔ x = y.
Proof. apply String.eqb_eq. Qed.

Lemma str_ltb_irrefl (x : string) : String.ltb x x = false.
Proof.
  destruct (String.ltb x x) eqn:E; [|done].
  apply str_ltb_lt in E. by apply String_as_OT.lt_not_eq in E.
Qed.

Lemma str_ltb_trans (x y z : string) :
  String.ltb x y = true → String.ltb y z = true → String.ltb x z = true.
Proof. rewrite !str_ltb_lt. apply String_as_OT.lt_trans. Qed.

Lemma str_ltb_total (x y : string) :
  String.ltb x y = false → x ≠ y → String.ltb y x = true.
Proof.
  unfold String.ltb. intros H Hne.
  pose proof (String_as_OT.cmp_antisym y x) as Hop. unfold String_as_OT.cmp in Hop.
  rewrite Hop. destruct (String.compare x y) eqn:E; simpl; try done.
  by apply String.compare_eq_iff in E.
Qed.

Lemma str_leb_ltb (x y : string) :
  String.leb x y = true ↔ x = y ∨ String.ltb x y = true.
Proof.
  unfold String.leb, String.ltb.
  destruct (String.compare x y) eqn:E; split; try done; auto.
  - intros _. left. by apply String.compare_eq_iff.
  - intros [->|?]; [|done].
    assert (String.compare y y = Eq) as Hyy by by apply String_as_OT.cmp_eq.
    congruence.
Qed.

Lemma str_leb_false (x y : string) : String.leb x y = false → String.ltb y x = true.
Proof.
  intros H. apply str_ltb_total.
  - destruct (String.ltb x y) eqn:E; [|done].
    assert (String.leb x y = true) by (apply str_leb_ltb; auto). congruence.
  - intros ->. assert (String.leb y y = true) by (apply str_leb_ltb; auto). congruence.
Qed.

(** ** The two-pointer loop counts the common members of two strictly
       increasing arrays *)

Section TwoPointer.
Context {A : Type} `{EqDecision A}.
Variables (eqb ltb : A → A → bool).
Hypothesis eqb_eq : ∀ x y, eqb x y = true ↔ x = y.
Hypothesis ltb_irrefl : ∀ x, ltb x x = false.
Hypothesis ltb_trans : ∀ x y z, ltb x y = true → ltb y z = true → ltb x z = true.
Hypothesis ltb_total : ∀ x y, ltb x y = false → x ≠ y → ltb y x = true.

Lemma increasing_cons_inv x l :
  increasing ltb (x :: l) → increasing ltb l ∧ Forall (λ y, ltb x y = true) l.
Proof. intros H. by apply StronglySorted_inv in H. Qed.

Lemma below_all_not_elem x l :
  Forall (λ y, ltb x y = true) l → x ∉ l.
Proof.
  intros Hall Hin. rewrite Forall_forall in Hall.
  specialize (Hall x Hin). rewrite ltb_irrefl in Hall. done.
Qed.

Lemma count_filter_ext (P Q : A → Prop) `{∀ x, Decision (P x)} `{∀ x, Decision (Q x)}
    (l : list A) :
  Forall (λ x, P x ↔ Q x) l → length (filter P l) = length (filter Q l).
Proof.
  induction 1 as [|x l Hx _ IH]; [done|].
  rewrite !filter_cons.
  destruct (decide (P x)), (decide (Q x)); simpl; try lia; tauto.
Qed.

Lemma twoPointer_cons x la y lb acc :
  twoPointer eqb ltb (x :: la) (y :: lb) acc =
    if eqb x y then twoPointer eqb ltb la lb (acc + 1)
    else if ltb x y then twoPointer eqb ltb la (y :: lb) acc
    else twoPointer eqb ltb (x :: la) lb acc.
Proof. reflexivity. Qed.

Lemma twoPointer_count (la lb : list A) (acc : Z) :
  increasing ltb la → increasing ltb lb →
  twoPointer eqb ltb la lb acc = acc + Z.of_nat (length (filter (.∈ lb) la)).
Proof.
  revert lb acc. induction la as [|x la IHa]; intros lb acc Ha Hb.
  { destruct lb; simpl; lia. }
  apply increasing_cons_inv in Ha as [Ha Hxa].
  revert acc. induction lb as [|y lb IHb]; intros acc.
  { simpl. rewrite filter_cons. destruct (decide (x ∈ [])) as [Hin|_].
    - by apply elem_of_nil in Hin.
    - clear. induction la as [|z la IH]; [simpl; lia|].
      rewrite filter_cons.
      destruct (decide (z ∈ [])) as [Hin|_]; [by apply elem_of_nil in Hin|].
      done. }
  pose proof Hb as Hb0.
  apply increasing_cons_inv in Hb as [Hb Hyb].
  rewrite twoPointer_cons. destruct (eqb x y) eqn:Exy.
  - apply eqb_eq in Exy. subst y.
    rewrite (IHa lb (acc + 1) Ha Hb).
    rewrite filter_cons. destruct (decide (x ∈ x :: lb)) as [_|Hn].
    2:{ exfalso. apply Hn. by left. }
    simpl length.
    rewrite (count_filter_ext (.∈ x :: lb) (.∈ lb) la); [lia|].
    rewrite Forall_forall in Hxa. apply Forall_forall. intros z Hz.
    rewrite elem_of_cons. split; [|auto].
    intros [->|?]; [|done]. specialize (Hxa _ Hz). by rewrite ltb_irrefl in Hxa.
  - destruct (ltb x y) eqn:Lxy.
    + rewrite (IHa (y :: lb) acc Ha Hb0).
      rewrite filter_cons. destruct (decide (x ∈ y :: lb)) as [Hin|_]; [|done].
      exfalso. apply elem_of_cons in Hin as [->|Hin].
      * by rewrite ltb_irrefl in Lxy.
      * rewrite Forall_forall in Hyb. specialize (Hyb _ Hin).
        pose proof (ltb_trans _ _ _ Lxy Hyb) as Hxx. by rewrite ltb_irrefl in Hxx.
    + assert (ltb y x = true) as Lyx.
      { apply ltb_total; [done|]. intros ->.
        assert (eqb y y = true) by by apply eqb_eq. congruence. }
      rewrite (IHb Hb acc).
      f_equal. f_equal.
      apply (count_filter_ext (.∈ lb) (.∈ y :: lb)).
      apply Forall_forall. intros z Hz. rewrite elem_of_cons.
      split; [auto|]. intros [->|?]; [|done]. exfalso.
      apply elem_of_cons in Hz as [->|Hz].
      * by rewrite ltb_irrefl in Lyx.
      * rewrite Forall_forall in Hxa. specialize (Hxa _ Hz).
        pose proof (ltb_trans _ _ _ Hxa Lyx) as Hxx. by rewrite ltb_irrefl in Hxx.
Qed.

End TwoPointer.

(** ** [Array.prototype.sort] yields an increasing permutation *)

Lemma sort_insert_perm x l : sort_insert x l ≡ₚ x :: l.
Proof.
  induction l as [|y l IH]; [done|]. simpl.
  destruct (String.leb x y); [done|]. rewrite IH. apply perm_swap.
Qed.

Lemma Array_sort_perm l : Array_sort l ≡ₚ l.
Proof.
  induction l as [|x l IH]; [done|]. simpl.
  rewrite sort_insert_perm. by rewrite IH.
Qed.

Lemma Array_sort_length l : length (Array_sort l) = length l.
Proof. by rewrite Array_sort_perm. Qed.

Lemma sort_insert_increasing x l :
  x ∉ l → increasing String.ltb l → increasing String.ltb (sort_insert x l).
Proof.
  unfold increasing. induction l as [|y l IH]; intros Hx Hl; simpl.
  { repeat constructor. }
  apply not_elem_of_cons in Hx as [Hxy Hx].
  apply StronglySorted_inv in Hl as [Hl Hy].
  destruct (String.leb x y) eqn:E.
  - apply str_leb_ltb in E as [?|E]; [done|].
    constructor; [by constructor|]. constructor; [done|].
    eapply Forall_impl; [exact Hy|]. intros z Hz. by eapply str_ltb_trans.
  - apply str_leb_false in E. constructor; [by apply IH|].
    rewrite sort_insert_perm. by constructor.
Qed.

Lemma Array_sort_increasing l : NoDup l → increasing String.ltb (Array_sort l).
Proof.
  induction 1 as [|x l Hx _ IH]; simpl; [constructor|].
  apply sort_insert_increasing; [|done]. by rewrite Array_sort_perm.
Qed.

(** ** The number of members of [a] that [b] has *)

Lemma forEach_has_count (b a : list string) (acc : Z) :
  foldl (λ sh x, if Set_has b x then sh + 1 else sh) acc a
  = acc + Z.of_nat (length (filter (.∈ b) a)).
Proof.
  revert acc. induction a as [|x a IH]; intros acc; simpl; [lia|].
  rewrite IH, filter_cons. unfold Set_has.
  destruct (decide (x ∈ b)) as [Hin|Hin].
  - rewrite bool_decide_eq_true_2 by done. simpl length. lia.
  - rewrite bool_decide_eq_false_2 by done. lia.
Qed.

Lemma count_perm (a a' b b' : list string) :
  a ≡ₚ a' → b ≡ₚ b' →
  length (filter (.∈ b) a) = length (filter (.∈ b') a').
Proof.
  intros Ha Hb. rewrite <- Ha.
  apply count_filter_ext, Forall_forall. intros x _. by rewrite Hb.
Qed.

Lemma count_inter (a b : list string) :
  NoDup a →
  length (filter (.∈ b) a) = size (list_to_set a ∩ list_to_set b : gset string).
Proof.
  intros Ha.
  rewrite <- (size_list_to_set (C:=gset string) (filter (.∈ b) a))
    by by apply NoDup_filter.
  f_equal. apply set_eq. intros x.
  rewrite elem_of_intersection, !elem_of_list_to_set, list_elem_of_filter. tauto.
Qed.

Lemma size_union_inter (X Y : gset string) :
  Z.of_nat (size (X ∪ Y)) = Z.of_nat (size X) + Z.of_nat (size Y) - Z.of_nat (size (X ∩ Y)).
Proof.
  rewrite size_union_alt, size_difference_alt.
  assert (size (Y ∩ X) ≤ size Y)%nat by (apply subseteq_size; set_solver).
  replace (X ∩ Y) with (Y ∩ X) by set_solver. lia.
Qed.

Lemma optimized_shared (a b : list string) :
  NoDup a → NoDup b →
  twoPointer String.eqb String.ltb (Array_sort a) (Array_sort b) 0
  = Z.of_nat (length (filter (.∈ b) a)).
Proof.
  intros Ha Hb.
  rewrite (twoPointer_count String.eqb String.ltb
             str_eqb_eq str_ltb_irrefl str_ltb_trans str_ltb_total)
    by by apply Array_sort_increasing.
  rewrite (count_perm _ a _ b) by apply Array_sort_perm. lia.
Qed.

Lemma optimized_eq_standard (a b : list string) :
  NoDup a → NoDup b →
  jaccardSimilarityOptimized a b = jaccardSimilarityStandard a b.
Proof.
  intros Ha Hb. unfold jaccardSimilarityOptimized, jaccardSimilarityStandard.
  cbv zeta. rewrite optimized_shared, forEach_has_count, !Array_sort_length by done.
  unfold Set_size. by rewrite Z.add_0_l.
Qed.

Lemma jaccardSimilarity_standard (a b : list string) :
  NoDup a → NoDup b → jaccardSimilarity a b = jaccardSimilarityStandard a b.
Proof.
  intros Ha Hb. unfold jaccardSimilarity. cbv zeta.
  destruct (_ && _); [done|]. by apply optimized_eq_standard.
Qed.

Lemma standard_fields (a b : list string) :
  NoDup a → NoDup b →
  let X : gset string := list_to_set a in
  let Y : gset string := list_to_set b in
  shared (jaccardSimilarityStandard a b) = Z.of_nat (size (X ∩ Y)) ∧
  unionSize (jaccardSimilarityStandard a b) = Z.of_nat (size (X ∪ Y)).
Proof.
  intros Ha Hb X Y. unfold jaccardSimilarityStandard. cbn [shared unionSize].
  rewrite forEach_has_count, count_inter by done. fold X Y.
  split; [lia|]. rewrite size_union_inter. unfold Set_size, X, Y.
  rewrite !size_list_to_set by done. lia.
Qed.

Lemma standard_score (a b : list string) :
  score (jaccardSimilarityStandard a b)
  = if 0 <? unionSize (jaccardSimilarityStandard a b)
    then num_div (shared (jaccardSimilarityStandard a b))
                 (unionSize (jaccardSimilarityStandard a b))
    else 0%Q.
Proof. reflexivity. Qed.

Lemma score_empty_r (a : list string) :
  NoDup a → score (jaccardSimilarity a []) = 0%Q.
Proof.
  intros Ha. rewrite jaccardSimilarity_standard by (done || constructor).
  rewrite standard_score.
  destruct (standard_fields a [] Ha (NoDup_nil_2 (A:=string))) as [-> _].
  replace (list_to_set a ∩ list_to_set [] : gset string) with (∅ : gset string)
    by set_solver.
  rewrite size_empty. change (Z.of_nat 0) with 0. rewrite num_div_zero.
  by destruct (0 <? _).
Qed.

Lemma score_empty_l (a : list string) :
  NoDup a → score (jaccardSimilarity [] a) = 0%Q.
Proof.
  intros Ha. rewrite jaccardSimilarity_standard by (done || constructor).
  rewrite standard_score.
  destruct (standard_fields [] a (NoDup_nil_2 (A:=string)) Ha) as [-> _].
  replace (list_to_set [] ∩ list_to_set a : gset string) with (∅ : gset string)
    by set_solver.
  rewrite size_empty. change (Z.of_nat 0) with 0. rewrite num_div_zero.
  by destruct (0 <? _).
Qed.

Lemma score_le_size_ratio (b c : list string) :
  NoDup b → NoDup c → c ≠ [] → b ≠ [] →
  (score (jaccardSimilarity b c)
   <= num_div (Z.min (Set_size c) (Set_size b)) (Z.max (Set_size c) (Set_size b)))%Q.
Proof.
  intros Hb Hc Hcn Hbn. rewrite jaccardSimilarity_standard by done.
  rewrite standard_score.
  destruct (standard_fields b c Hb Hc) as [-> ->].
  set (X := list_to_set b : gset string). set (Y := list_to_set c : gset string).
  assert (Set_size b = Z.of_nat (size X)) as Eb
    by (unfold Set_size, X; by rewrite size_list_to_set).
  assert (Set_size c = Z.of_nat (size Y)) as Ec
    by (unfold Set_size, Y; by rewrite size_list_to_set).
  assert (0 < Set_size b) by (unfold Set_size; destruct b; [done|simpl; lia]).
  assert (0 < Set_size c) by (unfold Set_size; destruct c; [done|simpl; lia]).
  assert (size (X ∩ Y) ≤ size X)%nat by (apply subseteq_size; set_solver).
  assert (size (X ∩ Y) ≤ size Y)%nat by (apply subseteq_size; set_solver).
  assert (size X ≤ size (X ∪ Y))%nat by (apply subseteq_size; set_solver).
  assert (size Y ≤ size (X ∪ Y))%nat by (apply subseteq_size; set_solver).
  destruct (Z.ltb_spec 0 (Z.of_nat (size (X ∪ Y)))); [|lia].
  apply num_div_le; [lia|lia|]. rewrite Eb, Ec. nia.
Qed.

(** ** Claims about [jaccardSimilarity] and [canMeetThreshold] *)

(** C10. For all sets [a] and [b], [jaccardSimilarityStandard] and
    [jaccardSimilarityOptimized] return the same record (score, shared and
    unionSize), so the size test in [jaccardSimilarity] never changes the
    value returned. *)
Theorem jaccard_standard_optimized_agree (a b : list string) :
  NoDup a → NoDup b →
  jaccardSimilarityOptimized a b = jaccardSimilarityStandard a b ∧
  jaccardSimilarity a b = jaccardSimilarityStandard a b ∧
  jaccardSimilarity a b = jaccardSimilarityOptimized a b.
Proof.
  intros Ha Hb. split; [by apply optimized_eq_standard|].
  split; [by apply jaccardSimilarity_standard|].
  rewrite optimized_eq_standard by done. by apply jaccardSimilarity_standard.
Qed.

Lemma jaccard_standard_optimized_agree_witness :
  let a := ["requests"; "numpy"; "flask"]%string in
  let b := ["numpy"; "django"; "flask"; "scipy"]%string in
  jaccardSimilarityOptimized a b = jaccardSimilarityStandard a b ∧
  jaccardSimilarity a b = jaccardSimilarityStandard a b ∧
  jaccardSimilarity a b = jaccardSimilarityOptimized a b.
Proof.
  apply jaccard_standard_optimized_agree;
    apply (bool_decide_unpack _); vm_compute; reflexivity.
Defined.

(** C2. For all sets [A] and [B], [jaccardSimilarity] returns
    shared = |A ∩ B|, unionSize = |A ∪ B| and score = |A ∩ B| / |A ∪ B|
    (0 when the union is empty), the quotient being the one the division of
    numbers gives ([num_div]); hence it is symmetric, gives 1 on [(A, A)]
    for non-empty [A], and 0 against the empty set. *)
Theorem jaccardSimilarity_correct (a b : list string) :
  NoDup a → NoDup b →
  let X : gset string := list_to_set a in
  let Y : gset string := list_to_set b in
  shared (jaccardSimilarity a b) = Z.of_nat (size (X ∩ Y)) ∧
  unionSize (jaccardSimilarity a b) = Z.of_nat (size (X ∪ Y)) ∧
  score (jaccardSimilarity a b)
    = (if decide (size (X ∪ Y) = 0%nat) then 0%Q
       else num_div (Z.of_nat (size (X ∩ Y))) (Z.of_nat (size (X ∪ Y)))) ∧
  jaccardSimilarity a b = jaccardSimilarity b a ∧
  (a ≠ [] → score (jaccardSimilarity a a) = 1%Q) ∧
  score (jaccardSimilarity a []) = 0%Q ∧
  score (jaccardSimilarity [] a) = 0%Q.
Proof.
  intros Ha Hb X Y.
  rewrite !jaccardSimilarity_standard by (done || constructor).
  destruct (standard_fields a b Ha Hb) as [Hs Hu]. fold X Y in Hs, Hu.
  split; [done|]. split; [done|]. split.
  { rewrite standard_score, Hs, Hu.
    destruct (decide (size (X ∪ Y) = 0%nat)) as [->|Hne]; [done|].
    destruct (Z.ltb_spec 0 (Z.of_nat (size (X ∪ Y)))); [done|lia]. }
  split.
  { destruct (standard_fields b a Hb Ha) as [Hs' Hu']. fold X Y in Hs', Hu'.
    assert (shared (jaccardSimilarityStandard a b)
            = shared (jaccardSimilarityStandard b a)) as Es.
    { rewrite Hs, Hs'. do 2 f_equal. set_solver. }
    assert (unionSize (jaccardSimilarityStandard a b)
            = unionSize (jaccardSimilarityStandard b a)) as Eu.
    { rewrite Hu, Hu'. do 2 f_equal. set_solver. }
    pose proof (standard_score a b) as Sab. pose proof (standard_score b a) as Sba.
    rewrite Es, Eu in Sab. rewrite <- Sba in Sab.
    destruct (jaccardSimilarityStandard a b), (jaccardSimilarityStandard b a).
    simpl in *. congruence. }
  split.
  { intros Hne. destruct (standard_fields a a Ha Ha) as [Hs' Hu'].
    rewrite standard_score, Hs', Hu'.
    replace (list_to_set a ∪ list_to_set a : gset string) with X by set_solver.
    replace (list_to_set a ∩ list_to_set a : gset string) with X by set_solver.
    assert (0 < Z.of_nat (size X)) as Hpos.
    { unfold X. rewrite size_list_to_set by done. destruct a; [done|simpl; lia]. }
    destruct (Z.ltb_spec 0 (Z.of_nat (size X))); [|lia].
    by apply num_div_same. }
  rewrite <- !jaccardSimilarity_standard by (done || constructor).
  split; [by apply score_empty_r|by apply score_empty_l].
Qed.

Lemma jaccardSimilarity_correct_witness :
  let a := ["a"; "b"; "c"]%string in
  let b := ["b"; "c"; "d"]%string in
  shared (jaccardSimilarity a b)
    = Z.of_nat (size (list_to_set a ∩ list_to_set b : gset string)) ∧
  unionSize (jaccardSimilarity a b)
    = Z.of_nat (size (list_to_set a ∪ list_to_set b : gset string)).
Proof.
  intros a b.
  assert (NoDup a) as Ha by (apply (bool_decide_unpack _); vm_compute; reflexivity).
  assert (NoDup b) as Hb by (apply (bool_decide_unpack _); vm_compute; reflexivity).
  pose proof (jaccardSimilarity_correct a b Ha Hb) as H. cbv zeta in H.
  split; [apply H|apply H].
Defined.

(** C4 (as amended).  The size-only pre-filter is a sound
    over-approximation: min(|c|,|B|)/max(|c|,|B|) bounds the exact Jaccard
    score of any two non-empty sets of those sizes from above (both as the
    numbers the division gives: rounding is monotone), and whenever
    [canMeetThreshold] answers false for a positive threshold, or for any
    threshold when both sets are non-empty, the exact score computed by
    [jaccardSimilarity] is below the threshold. *)
Theorem canMeetThreshold_sound (b c : list string) (t : Q) :
  NoDup b → NoDup c →
  (c ≠ [] → b ≠ [] →
   (score (jaccardSimilarity b c)
    <= num_div (Z.min (Set_size c) (Set_size b)) (Z.max (Set_size c) (Set_size b)))%Q) ∧
  ((0 < t)%Q ∨ (c ≠ [] ∧ b ≠ []) →
   canMeetThreshold (Set_size c) (Set_size b) t = false →
   (score (jaccardSimilarity b c) < t)%Q).
Proof.
  intros Hb Hc. split; [by apply score_le_size_ratio|].
  intros Hpos Hcan. unfold canMeetThreshold in Hcan.
  destruct c as [|y c]; [|destruct b as [|x b]].
  - destruct Hpos as [Ht|[? _]]; [|done]. by rewrite score_empty_r.
  - destruct Hpos as [Ht|[_ ?]]; [|done]. by rewrite score_empty_l.
  - assert ((Set_size (y :: c) =? 0) = false) as Ec by (unfold Set_size; simpl; lia).
    assert ((Set_size (x :: b) =? 0) = false) as Eb by (unfold Set_size; simpl; lia).
    rewrite Ec, Eb in Hcan.
    cbn [orb] in Hcan. cbv zeta in Hcan. unfold num_geb in Hcan.
    eapply Qle_lt_trans; [by apply score_le_size_ratio|].
    apply Qnot_le_lt. intros Hle. apply Qle_bool_iff in Hle. congruence.
Qed.

Lemma canMeetThreshold_sound_witness :
  let b := ["a"; "b"; "c"; "d"; "e"; "f"; "g"; "h"; "i"; "j"]%string in
  let c := ["a"]%string in
  canMeetThreshold (Set_size c) (Set_size b) (1 # 2) = false ∧
  (score (jaccardSimilarity b c) < 1 # 2)%Q.
Proof.
  intros b c. split; [reflexivity|].
  assert (NoDup b) as Hb by (apply (bool_decide_unpack _); vm_compute; reflexivity).
  assert (NoDup c) as Hc by (apply (bool_decide_unpack _); vm_compute; reflexivity).
  apply (proj2 (canMeetThreshold_sound b c (1 # 2) Hb Hc)).
  - left. reflexivity.
  - reflexivity.
Defined.

(** The claim as stated ("any threshold") fails at threshold 0 against an
    empty set: the pre-filter answers false, and the exact score, 0, is not
    below 0. *)
Lemma canMeetThreshold_zero_threshold_counterexample :
  canMeetThreshold (Set_size []) (Set_size ["x"%string]) 0 = false ∧
  ¬ (score (jaccardSimilarity ["x"%string] []) < 0)%Q.
Proof. split; [reflexivity|]. vm_compute. discriminate. Qed.

(** ** The bounded top-K selector *)

Section Heap.
Implicit Types (heap h : list SimilarItem) (i j k : nat) (x y : SimilarItem).

Lemma parent_lt i : (0 < i)%nat → ((i - 1) / 2 < i)%nat.
Proof. intros. apply Nat.Div0.div_lt_upper_bound. lia. Qed.

Lemma parent_child i j :
  (0 < j)%nat → ((j - 1) / 2)%nat = i ↔ (j = 2 * i + 1 ∨ j = 2 * i + 2)%nat.
Proof.
  intros Hj. split.
  - intros <-. pose proof (Nat.div_mod_eq (j - 1) 2) as E.
    pose proof (Nat.mod_upper_bound (j - 1) 2). lia.
  - intros [->| ->].
    + replace (2 * i + 1 - 1)%nat with (i * 2)%nat by lia. by rewrite Nat.div_mul.
    + replace (2 * i + 2 - 1)%nat with (1 + i * 2)%nat by lia.
      by rewrite Nat.div_add.
Qed.

Lemma heapSwap_length h i j : length (heapSwap h i j) = length h.
Proof.
  unfold heapSwap. destruct (h !! i), (h !! j); try done.
  by rewrite !length_insert.
Qed.

Lemma heapSwap_lookup h i j k :
  (i < length h)%nat → (j < length h)%nat →
  heapSwap h i j !! k
  = if decide (k = j) then h !! i else if decide (k = i) then h !! j else h !! k.
Proof.
  intros Hi Hj. unfold heapSwap.
  destruct (lookup_lt_is_Some_2 h i Hi) as [t Ht].
  destruct (lookup_lt_is_Some_2 h j Hj) as [u Hu].
  rewrite Ht, Hu.
  destruct (decide (k = j)) as [->|Hkj].
  - rewrite list_lookup_insert_eq; [done|]. by rewrite length_insert.
  - rewrite list_lookup_insert_ne by done.
    destruct (decide (k = i)) as [->|Hki].
    + by rewrite list_lookup_insert_eq.
    + by rewrite list_lookup_insert_ne.
Qed.

Lemma heapSwap_key h i j k :
  (i < length h)%nat → (j < length h)%nat →
  key (heapSwap h i j) k
  = if decide (k = j) then key h i else if decide (k = i) then key h j else key h k.
Proof.
  intros Hi Hj. unfold key. rewrite heapSwap_lookup by done.
  by repeat case_decide.
Qed.

Lemma heapSwap_perm h i j : heapSwap h i j ≡ₚ h.
Proof.
  unfold heapSwap. destruct (h !! i) eqn:Hi, (h !! j) eqn:Hj; try done.
  by eapply Permutation_insert_swap.
Qed.

Lemma heap_leb_key h a b :
  (a < length h)%nat → (b < length h)%nat →
  heap_leb h a b = true ↔ (key h a <= key h b)%Q.
Proof.
  intros Ha Hb. unfold heap_leb, key.
  destruct (lookup_lt_is_Some_2 h a Ha) as [t ->].
  destruct (lookup_lt_is_Some_2 h b Hb) as [u ->]. simpl.
  apply Qle_bool_iff.
Qed.

Lemma heap_ltb_key h a b :
  (a < length h)%nat → (b < length h)%nat →
  heap_ltb h a b = true ↔ (key h a < key h b)%Q.
Proof.
  intros Ha Hb. unfold heap_ltb, key, num_ltb.
  destruct (lookup_lt_is_Some_2 h a Ha) as [t ->].
  destruct (lookup_lt_is_Some_2 h b Hb) as [u ->]. simpl.
  rewrite negb_true_iff, <- not_true_iff_false, Qle_bool_iff.
  split; [apply Qnot_le_lt|apply Qlt_not_le].
Qed.

Lemma heap_ordered_key h :
  heap_ordered h ↔
  ∀ i, (0 < i < length h)%nat → (key h ((i - 1) / 2) <= key h i)%Q.
Proof.
  unfold heap_ordered, key. split.
  - intros H i [Hi Hn].
    destruct (lookup_lt_is_Some_2 h i Hn) as [x Hx].
    assert ((i - 1) / 2 < length h)%nat as Hp by (pose proof (parent_lt i Hi); lia).
    destruct (lookup_lt_is_Some_2 h _ Hp) as [y Hy].
    rewrite Hx, Hy. simpl. by eapply H.
  - intros H i x y Hi Hx Hy. specialize (H i).
    rewrite Hx, Hy in H. apply H. split; [done|]. by eapply lookup_lt_Some.
Qed.

(** *** [heapSiftUp] *)

Lemma heapSiftUp_loop_fuel f1 f2 h i :
  (i ≤ f1)%nat → (i ≤ f2)%nat → heapSiftUp_loop f1 h i = heapSiftUp_loop f2 h i.
Proof.
  revert f2 h i. induction f1 as [|f1 IH]; intros [|f2] h i H1 H2; try done.
  - assert (i = 0%nat) as -> by lia. done.
  - assert (i = 0%nat) as -> by lia. done.
  - cbn [heapSiftUp_loop]. destruct (Nat.ltb_spec 0 i) as [Hi|_]; [|done].
    cbv zeta. destruct (heap_leb h _ i); [done|].
    pose proof (parent_lt i Hi). apply IH; lia.
Qed.

Lemma ordered_but_up_swap h i :
  (0 < i < length h)%nat → ordered_but_up h i →
  ¬ (key h ((i - 1) / 2) <= key h i)%Q →
  ordered_but_up (heapSwap h i ((i - 1) / 2)) ((i - 1) / 2).
Proof.
  intros [Hi Hn] [U1 U2] Hlt. apply Qnot_le_lt in Hlt.
  set (p := ((i - 1) / 2)%nat) in *.
  assert (p < i)%nat as Hpi by by apply parent_lt.
  assert (p < length h)%nat as Hpn by lia.
  split.
  - intros j [Hj Hjn] Hjp. rewrite heapSwap_length in Hjn.
    set (q := ((j - 1) / 2)%nat).
    assert (q < j)%nat as Hqj by by apply parent_lt.
    rewrite !heapSwap_key by done.
    destruct (decide (j = i)) as [->|Hji].
    + fold p in q. subst q. rewrite decide_True by done.
      destruct (decide (i = p)); [lia|]. by apply Qlt_le_weak.
    + rewrite (decide_False (P := j = p)) by done.
      pose proof (U1 j (conj Hj Hjn) Hji) as Hq. fold q in Hq.
      destruct (decide (q = p)) as [Eq|Nq].
      * rewrite Eq in Hq. lra.
      * destruct (decide (q = i)) as [Eq|Nq']; [|done].
        specialize (U2 j (conj Hj Hjn) Eq Hi). fold p in U2. done.
  - intros j [Hj Hjn] Hjp Hp. rewrite heapSwap_length in Hjn.
    rewrite !heapSwap_key by done.
    pose proof (parent_lt p Hp) as Hpp.
    rewrite (decide_False (P := (p - 1) / 2 = p)%nat) by lia.
    rewrite (decide_False (P := (p - 1) / 2 = i)%nat) by lia.
    assert (key h ((p - 1) / 2) <= key h p)%Q as Hgp by (apply U1; lia).
    rewrite (decide_False (P := j = p)) by (pose proof (parent_lt j Hj); lia).
    destruct (decide (j = i)) as [->|Hji]; [done|].
    pose proof (U1 j (conj Hj Hjn) Hji) as Hq. rewrite Hjp in Hq. lra.
Qed.

Lemma heapSiftUp_loop_spec fuel h i :
  (i < length h)%nat → (i ≤ fuel)%nat → ordered_but_up h i →
  heap_ordered (heapSiftUp_loop fuel h i) ∧
  heapSiftUp_loop fuel h i ≡ₚ h.
Proof.
  revert h i. induction fuel as [|fuel IH]; intros h i Hn Hf Hup.
  { assert (i = 0%nat) as -> by lia. simpl. split; [|done].
    apply heap_ordered_key. intros j Hj. apply Hup; lia. }
  cbn [heapSiftUp_loop]. cbv zeta. destruct (Nat.ltb_spec 0 i) as [Hi|Hi].
  2:{ assert (i = 0%nat) as -> by lia. split; [|done].
      apply heap_ordered_key. intros j Hj. apply Hup; lia. }
  pose proof (parent_lt i Hi) as Hp.
  destruct (heap_leb h ((i - 1) / 2) i) eqn:E.
  - apply heap_leb_key in E; [|lia|done]. split; [|done].
    apply heap_ordered_key. intros j Hj.
    destruct (decide (j = i)) as [->|Hji]; [done|]. by apply Hup.
  - assert (¬ (key h ((i - 1) / 2) <= key h i)%Q) as Hlt.
    { intros Hle. apply heap_leb_key in Hle; [congruence|lia|done]. }
    destruct (IH (heapSwap h i ((i - 1) / 2)) ((i - 1) / 2)%nat) as [Ho Hperm].
    + rewrite heapSwap_length. lia.
    + lia.
    + by apply ordered_but_up_swap.
    + split; [done|]. by rewrite Hperm, heapSwap_perm.
Qed.

(** *** [heapSiftDown] *)

Lemma heapSiftDown_min_spec h i :
  let m := heapSiftDown_min h i in
  (m ≠ i → (i < m < length h)%nat ∧ ((m - 1) / 2)%nat = i ∧ (key h m < key h i)%Q) ∧
  ((i < length h)%nat →
   ∀ c, (0 < c < length h)%nat → ((c - 1) / 2)%nat = i → (key h m <= key h c)%Q).
Proof.
  unfold heapSiftDown_min. cbv zeta.
  set (l := (2 * i + 1)%nat). set (r := (l + 1)%nat).
  assert (((l - 1) / 2)%nat = i) as Pl by (apply parent_child; lia).
  assert (((r - 1) / 2)%nat = i) as Pr by (apply parent_child; lia).
  assert (∀ c, (0 < c)%nat → ((c - 1) / 2)%nat = i → c = l ∨ c = r) as Hc.
  { intros c Hc E. apply parent_child in E; lia. }
  destruct (Nat.ltb_spec l (length h)) as [Hl|Hl]; cbn [andb].
  - destruct (heap_ltb h l i) eqn:El.
    + apply heap_ltb_key in El; [|lia..].
      destruct (Nat.ltb_spec r (length h)) as [Hr|Hr]; cbn [andb].
      * destruct (heap_ltb h r l) eqn:Er.
        -- apply heap_ltb_key in Er; [|lia..]. split.
           ++ intros _. split; [lia|]. split; [done|]. lra.
           ++ intros Hi c Hcn E. destruct (Hc c) as [->| ->]; [lia|done| |]; lra.
        -- assert (¬ (key h r < key h l)%Q) as Nr.
           { intros H. apply heap_ltb_key in H; [congruence|lia..]. }
           apply Qnot_lt_le in Nr. split.
           ++ intros _. split; [lia|]. done.
           ++ intros Hi c Hcn E. destruct (Hc c) as [->| ->]; [lia|done| |]; lra.
      * split.
        -- intros _. split; [lia|]. done.
        -- intros Hi c Hcn E. destruct (Hc c) as [->| ->]; [lia|done| |]; [lra|lia].
    + assert (i < length h)%nat as Hi by lia.
      assert (¬ (key h l < key h i)%Q) as Nl.
      { intros H. apply heap_ltb_key in H; [congruence|lia..]. }
      apply Qnot_lt_le in Nl.
      destruct (Nat.ltb_spec r (length h)) as [Hr|Hr]; cbn [andb].
      * destruct (heap_ltb h r i) eqn:Er.
        -- apply heap_ltb_key in Er; [|lia..]. split.
           ++ intros _. split; [lia|]. done.
           ++ intros _ c Hcn E. destruct (Hc c) as [->| ->]; [lia|done| |]; lra.
        -- assert (¬ (key h r < key h i)%Q) as Nr.
           { intros H. apply heap_ltb_key in H; [congruence|lia..]. }
           apply Qnot_lt_le in Nr. split; [done|].
           intros _ c Hcn E. destruct (Hc c) as [->| ->]; [lia|done| |]; lra.
      * split; [done|].
        intros _ c Hcn E. destruct (Hc c) as [->| ->]; [lia|done| |]; [lra|lia].
  - destruct (Nat.ltb_spec r (length h)) as [Hr|Hr]; [unfold r in Hr; lia|].
    cbn [andb]. split; [done|].
    intros _ c Hcn E. destruct (Hc c) as [->| ->]; [lia|done| |]; lia.
Qed.

Lemma heapSiftDown_loop_fuel f1 f2 h i :
  (length h - i ≤ f1)%nat → (length h - i ≤ f2)%nat →
  heapSiftDown_loop f1 h i = heapSiftDown_loop f2 h i.
Proof.
  revert f2 h i. induction f1 as [|f1 IH]; intros f2 h i H1 H2.
  - destruct f2 as [|f2]; [done|]. cbn [heapSiftDown_loop]. cbv zeta.
    destruct (heapSiftDown_min_spec h i) as [Hm _].
    destruct (Nat.eqb_spec (heapSiftDown_min h i) i) as [|Hne]; [done|].
    destruct (Hm Hne) as [? _]. lia.
  - destruct f2 as [|f2]; cbn [heapSiftDown_loop]; cbv zeta;
      destruct (heapSiftDown_min_spec h i) as [Hm _];
      destruct (Nat.eqb_spec (heapSiftDown_min h i) i) as [|Hne]; try done.
    + destruct (Hm Hne) as [? _]. lia.
    + destruct (Hm Hne) as [? _]. apply IH; rewrite heapSwap_length; lia.
Qed.

Lemma ordered_but_down_swap h i :
  let m := heapSiftDown_min h i in
  ordered_but_down h i → m ≠ i → ordered_but_down (heapSwap h i m) m.
Proof.
  intros m [D1 D2] Hne.
  destruct (heapSiftDown_min_spec h i) as [Hm Hc]. fold m in Hm, Hc.
  destruct (Hm Hne) as ([Him Hmn] & Pm & Hlt).
  assert (i < length h)%nat as Hin by lia. specialize (Hc Hin).
  split.
  - intros j [Hj Hjn] Hjp. rewrite heapSwap_length in Hjn.
    set (q := ((j - 1) / 2)%nat) in *.
    assert (q < j)%nat as Hqj by by apply parent_lt.
    rewrite !heapSwap_key by done.
    destruct (decide (j = m)) as [->|Hjm].
    + assert (q = i) as -> by done.
      rewrite (decide_False (P := i = m)) by lia.
      rewrite decide_True by done. by apply Qlt_le_weak.
    + destruct (decide (j = i)) as [->|Hji].
      * rewrite (decide_False (P := q = m)) by lia.
        rewrite (decide_False (P := q = i)) by lia.
        apply D2; [lia|done|lia].
      * rewrite (decide_False (P := q = m)) by done.
        destruct (decide (q = i)) as [Eq|Nq].
        -- apply Hc; [lia|done].
        -- by apply D1.
  - intros j [Hj Hjn] Hjp Hm0. rewrite heapSwap_length in Hjn.
    rewrite !heapSwap_key by done. rewrite Pm.
    rewrite (decide_False (P := i = m)) by lia.
    rewrite decide_True by done.
    pose proof (parent_lt j Hj).
    rewrite (decide_False (P := j = m)) by lia.
    rewrite (decide_False (P := j = i)) by lia.
    pose proof (D1 j (conj Hj Hjn)) as Hq. rewrite Hjp in Hq. apply Hq. lia.
Qed.

Lemma heapSiftDown_loop_spec fuel h i :
  (length h - i ≤ fuel)%nat → ordered_but_down h i →
  heap_ordered (heapSiftDown_loop fuel h i) ∧
  heapSiftDown_loop fuel h i ≡ₚ h.
Proof.
  revert h i. induction fuel as [|fuel IH]; intros h i Hf Hd.
  { simpl. split; [|done]. apply heap_ordered_key. intros j Hj.
    apply Hd; [done|]. pose proof (parent_lt j); lia. }
  cbn [heapSiftDown_loop]. cbv zeta.
  destruct (heapSiftDown_min_spec h i) as [Hm Hc].
  destruct (Nat.eqb_spec (heapSiftDown_min h i) i) as [E|Hne].
  - split; [|done]. apply heap_ordered_key. intros j Hj.
    destruct (decide (((j - 1) / 2)%nat = i)) as [Ej|Nj]; [|by apply Hd].
    rewrite Ej. rewrite E in Hc. apply Hc; [|done..].
    pose proof (parent_lt j); lia.
  - destruct (Hm Hne) as ([Him Hmn] & _).
    destruct (IH (heapSwap h i (heapSiftDown_min h i)) (heapSiftDown_min h i))
      as [Ho Hperm].
    + rewrite heapSwap_length. lia.
    + by apply ordered_but_down_swap.
    + split; [done|]. by rewrite Hperm, heapSwap_perm.
Qed.

(** *** [heapPushBounded] *)

Lemma heap_root_min h r :
  heap_ordered h → h !! 0%nat = Some r →
  ∀ y, y ∈ h → (jaccard r <= jaccard y)%Q.
Proof.
  intros Ho Hr y [i Hy]%list_elem_of_lookup. revert y Hy.
  induction (lt_wf i) as [i _ IH]. intros y Hy.
  destruct (decide (i = 0%nat)) as [->|Hi].
  { assert (y = r) as -> by congruence. apply Qle_refl. }
  assert ((i - 1) / 2 < i)%nat as Hp by (apply parent_lt; lia).
  assert ((i - 1) / 2 < length h)%nat as Hpn.
  { apply lookup_lt_Some in Hy. lia. }
  destruct (lookup_lt_is_Some_2 h _ Hpn) as [z Hz].
  eapply Qle_trans; [by apply (IH _ Hp z)|].
  eapply Ho; [|done..]. lia.
Qed.

Lemma key_app_l h x j : (j < length h)%nat → key (h ++ [x]) j = key h j.
Proof. intros Hj. unfold key. by rewrite lookup_app_l. Qed.

Lemma ordered_but_up_push h x :
  heap_ordered h → ordered_but_up (h ++ [x]) (length h).
Proof.
  intros Ho. rewrite heap_ordered_key in Ho. split.
  - intros j [Hj Hjn] Hne. rewrite length_app in Hjn. simpl in Hjn.
    pose proof (parent_lt j Hj).
    rewrite !key_app_l by lia. apply Ho. lia.
  - intros j [Hj Hjn] Hp _. rewrite length_app in Hjn. simpl in Hjn.
    pose proof (parent_lt j Hj). lia.
Qed.

Lemma ordered_but_down_root h x :
  heap_ordered h → ordered_but_down (<[0%nat := x]> h) 0.
Proof.
  intros Ho. rewrite heap_ordered_key in Ho. split; [|lia].
  intros j [Hj Hjn] Hne. rewrite length_insert in Hjn.
  unfold key.
  rewrite !list_lookup_insert_ne by lia. apply Ho. lia.
Qed.

Lemma heapPushBounded_room (limit : Q) h x :
  heap_ordered h → (length h < cap limit)%nat →
  heap_ordered (heapPushBounded limit h x) ∧ heapPushBounded limit h x ≡ₚ x :: h.
Proof.
  intros Ho Hlen. unfold heapPushBounded. rewrite num_ltb_length_cap.
  destruct (Nat.ltb_spec (length h) (cap limit)) as [_|]; [|lia]. cbv zeta.
  rewrite length_app. simpl length.
  replace (length h + 1 - 1)%nat with (length h) by lia.
  unfold heapSiftUp.
  destruct (heapSiftUp_loop_spec (length h) (h ++ [x]) (length h)) as [Ho' Hp].
  - rewrite length_app. simpl. lia.
  - done.
  - by apply ordered_but_up_push.
  - split; [done|]. rewrite Hp. by rewrite Permutation_app_comm.
Qed.

Lemma heapPushBounded_full (limit : Q) r t x :
  heap_ordered (r :: t) → length (r :: t) = cap limit →
  heap_ordered (heapPushBounded limit (r :: t) x) ∧
  (¬ (jaccard r < jaccard x)%Q → heapPushBounded limit (r :: t) x = r :: t) ∧
  ((jaccard r < jaccard x)%Q → heapPushBounded limit (r :: t) x ≡ₚ x :: t).
Proof.
  intros Ho Hlen. unfold heapPushBounded.
  rewrite num_ltb_length_cap, num_leb_0_cap.
  destruct (Nat.ltb_spec (length (r :: t)) (cap limit)) as [|_]; [lia|].
  destruct (Nat.eqb_spec (cap limit) 0) as [|_]; [simpl in Hlen; lia|].
  cbn [lookup list_lookup]. unfold num_geb.
  destruct (Qle_bool (jaccard x) (jaccard r)) eqn:E.
  - apply Qle_bool_iff in E. split; [done|]. split; [done|].
    intros Hlt. exfalso. by apply (Qlt_not_le _ _ Hlt).
  - assert (jaccard r < jaccard x)%Q as Hlt.
    { apply Qnot_le_lt. intros Hle. apply Qle_bool_iff in Hle. congruence. }
    unfold heapSiftDown.
    destruct (heapSiftDown_loop_spec (length (<[0%nat := x]> (r :: t)))
                (<[0%nat := x]> (r :: t)) 0) as [Ho' Hp].
    + lia.
    + by apply ordered_but_down_root.
    + split; [done|]. split; [intros Hn; by destruct Hn|].
      intros _. by rewrite Hp.
Qed.

Lemma heapPushBounded_zero (limit : Q) h x :
  cap limit = 0%nat → heapPushBounded limit h x = h.
Proof.
  intros E. unfold heapPushBounded. rewrite num_ltb_length_cap, num_leb_0_cap, E.
  by destruct (Nat.ltb_spec (length h) 0); [lia|].
Qed.

Lemma selector_inv_empty limit : selector_inv limit [] [].
Proof.
  split; [by intros i x y _ Hx|]. split; [simpl; lia|].
  exists []. split; [done|]. intros d y Hd. by apply elem_of_nil in Hd.
Qed.

Lemma selector_inv_push (limit : Q) seen h x :
  selector_inv (cap limit) seen h →
  selector_inv (cap limit) (seen ++ [x]) (heapPushBounded limit h x).
Proof.
  intros (Ho & Hlen & dropped & Hperm & Hle).
  assert (length h + length dropped = length seen)%nat as Hsum.
  { by rewrite <- Hperm, length_app. }
  unfold selector_inv. rewrite length_app. simpl length.
  destruct (decide (length h < cap limit)%nat) as [Hroom|Hfull].
  - destruct (heapPushBounded_room limit h x Ho Hroom) as [Ho' Hp].
    assert (dropped = []) as -> by (apply nil_length_inv; lia).
    rewrite app_nil_r in Hperm.
    split; [done|]. split; [rewrite Hp; simpl; lia|].
    exists []. rewrite app_nil_r. split.
    + rewrite Hp, Hperm. by rewrite Permutation_app_comm.
    + intros d y Hd. by apply elem_of_nil in Hd.
  - destruct h as [|r t].
    + assert (cap limit = 0%nat) as E0 by (simpl in *; lia).
      rewrite heapPushBounded_zero by done. rewrite E0 in *.
      split; [done|]. split; [done|]. exists (x :: dropped). split.
      * simpl in *. rewrite Hperm. by rewrite Permutation_app_comm.
      * intros d y _ Hy. by apply elem_of_nil in Hy.
    + assert (length (r :: t) = cap limit) as Hl by lia.
      destruct (heapPushBounded_full limit r t x Ho Hl) as (Ho' & Hsame & Hrepl).
      pose proof (heap_root_min (r :: t) r Ho eq_refl) as Hmin.
      split; [done|].
      destruct (Qlt_le_dec (jaccard r) (jaccard x)) as [Hlt|Hge].
      * specialize (Hrepl Hlt). split; [rewrite Hrepl; simpl in *; lia|].
        exists (r :: dropped). split.
        -- rewrite Hrepl. rewrite <- Hperm. simpl.
           rewrite <- Permutation_middle.
           rewrite <- (Permutation_cons_append (t ++ dropped) x). apply perm_swap.
        -- intros d y Hd Hy. rewrite Hrepl in Hy.
           assert (jaccard r <= jaccard y)%Q as Hry.
           { apply elem_of_cons in Hy as [->|Hy]; [by apply Qlt_le_weak|].
             apply Hmin. by right. }
           apply elem_of_cons in Hd as [->|Hd]; [done|].
           eapply Qle_trans; [|exact Hry]. apply Hle; [done|by left].
      * rewrite Hsame by by apply Qle_not_lt.
        split; [simpl in *; lia|]. exists (x :: dropped). split.
        -- rewrite <- Hperm. rewrite <- Permutation_middle.
           by rewrite <- Permutation_cons_append.
        -- intros d y Hd Hy. apply elem_of_cons in Hd as [->|Hd]; [|by apply Hle].
           eapply Qle_trans; [exact Hge|]. by apply Hmin.
Qed.

Lemma selector_inv_foldl (limit : Q) items seen h :
  selector_inv (cap limit) seen h →
  selector_inv (cap limit) (seen ++ items) (foldl (heapPushBounded limit) h items).
Proof.
  revert seen h. induction items as [|x items IH]; intros seen h Hinv.
  { by rewrite app_nil_r. }
  simpl. replace (seen ++ x :: items) with ((seen ++ [x]) ++ items)
    by by rewrite <- app_assoc.
  apply IH. by apply selector_inv_push.
Qed.

Lemma selector_inv_pushAll (limit : Q) items :
  selector_inv (cap limit) items (heapPushAll limit items).
Proof. apply (selector_inv_foldl limit items [] []), selector_inv_empty. Qed.

Lemma length_filter_all {A} (P : A → Prop) `{∀ a, Decision (P a)} (l : list A) :
  Forall P l → length (filter P l) = length l.
Proof.
  induction 1 as [|a l Ha _ IH]; [done|].
  rewrite filter_cons, decide_True by done. simpl. by rewrite IH.
Qed.

(** How many retained scores are above [s] depends only on how many pushed
    scores are. *)
Lemma selector_inv_count limit seen h (s : Q) :
  selector_inv limit seen h →
  length (filter (λ y, (s < jaccard y)%Q) h)
  = min limit (length (filter (λ y, (s < jaccard y)%Q) seen)).
Proof.
  intros (Ho & Hlen & dropped & Hperm & Hle).
  assert (length h + length dropped = length seen)%nat as Hsum.
  { by rewrite <- Hperm, length_app. }
  rewrite <- Hperm, filter_app, length_app.
  pose proof (length_filter (λ y, (s < jaccard y)%Q) h) as Hfh.
  destruct (filter (λ y, (s < jaccard y)%Q) dropped) as [|d ds] eqn:Ed.
  { simpl. lia. }
  assert (d ∈ filter (λ y, (s < jaccard y)%Q) dropped) as Hd by (rewrite Ed; by left).
  apply list_elem_of_filter in Hd as [Hsd Hd].
  rewrite (length_filter_all (λ y, (s < jaccard y)%Q) h).
  2:{ apply Forall_forall. intros y Hy.
      eapply Qlt_le_trans; [exact Hsd|]. by apply Hle. }
  assert (dropped ≠ []) as Hne by (intros ->; by apply elem_of_nil in Hd).
  assert (0 < length dropped)%nat by (destruct dropped; [done|simpl; lia]).
  simpl. lia.
Qed.

End Heap.

(** C3 (as amended).  [limit] is a number and the selector takes an item
    while [heap.length < limit]: its capacity is [cap limit], the least
    natural number not below [limit], which is [limit] itself when [limit]
    is a natural number and exceeds a fractional [limit] by less than one.
    The selector never holds more than [cap limit] elements at any point of
    a push sequence; a push arriving with the selector full leaves it
    unchanged unless the incoming score is strictly greater than the
    current minimum (the heap root), in which case it replaces that
    minimum; and for any insertion order of the pushed items the selector
    ends holding the [cap limit] highest scores seen, counted with
    multiplicity: it holds min(cap limit, n) of the items, every item it
    does not hold scores no more than every item it holds, and the number
    of held scores above any bound [s] is min(cap limit, number of pushed
    scores above [s]) whatever the order. *)
Theorem bounded_topk_selector (limit : Q) (items : list SimilarItem) :
  (∀ K : nat, (limit == num_of_nat K)%Q → cap limit = K) ∧
  ((0 <= limit)%Q →
   (limit <= num_of_nat (cap limit))%Q ∧ (num_of_nat (cap limit) < limit + 1)%Q) ∧
  (∀ k, (length (heapPushAll limit (take k items)) ≤ cap limit)%nat) ∧
  (∀ k item,
     let h := heapPushAll limit (take k items) in
     length h = cap limit → (0 < cap limit)%nat →
     ∃ root rest, h = root :: rest ∧
       (∀ y, y ∈ h → (jaccard root <= jaccard y)%Q) ∧
       (¬ (jaccard root < jaccard item)%Q → heapPushBounded limit h item = h) ∧
       ((jaccard root < jaccard item)%Q →
        heapPushBounded limit h item ≡ₚ item :: rest)) ∧
  length (heapPushAll limit items) = min (cap limit) (length items) ∧
  (∃ dropped, heapPushAll limit items ++ dropped ≡ₚ items ∧
     ∀ d y, d ∈ dropped → y ∈ heapPushAll limit items →
            (jaccard d <= jaccard y)%Q) ∧
  (∀ items' s, items' ≡ₚ items →
     length (filter (λ y, (s < jaccard y)%Q) (heapPushAll limit items'))
     = min (cap limit) (length (filter (λ y, (s < jaccard y)%Q) items))).
Proof.
  split; [intros K; apply cap_integer|].
  split.
  { intros H0. split; [|by apply cap_lt]. unfold num_of_nat, cap.
    pose proof (Qle_ceiling limit) as Hc.
    assert (0 <= Qceiling limit).
    { apply Qceiling_resp_le in H0. change 0%Q with (inject_Z 0) in H0.
      by rewrite Qceiling_Z in H0. }
    by rewrite Z2Nat.id. }
  split.
  { intros k. destruct (selector_inv_pushAll limit (take k items)) as (_ & -> & _).
    lia. }
  split.
  { intros k item h Hlen Hpos.
    destruct (selector_inv_pushAll limit (take k items)) as (Ho & _). fold h in Ho.
    destruct h as [|root rest] eqn:Eh; [simpl in Hlen; lia|].
    exists root, rest. split; [done|].
    destruct (heapPushBounded_full limit root rest item Ho Hlen) as (_ & Hs & Hr).
    split; [|done]. by apply heap_root_min. }
  destruct (selector_inv_pushAll limit items) as (_ & Hlen & Hdrop).
  split; [done|]. split; [done|].
  intros items' s Hperm.
  rewrite (selector_inv_count (cap limit) items' _ s (selector_inv_pushAll limit items')).
  by rewrite Hperm.
Qed.

(** The claim as stated fails in two ways.  "The K highest distinct
    scores": with limit 2 and pushes scored 1/2, 1/2 and 3/10 the selector
    ends with both 1/2 entries, and 3/10, the second highest distinct
    score, is not held.  "Never more than K = limit elements": with the
    limit 5/2 the same three pushes are all held, three elements being
    more than 5/2. *)
Lemma bounded_topk_selector_counterexample :
  let items := [mkSimilarItem "a" (1 # 2) 1; mkSimilarItem "b" (1 # 2) 1;
                mkSimilarItem "c" (3 # 10) 1] in
  (jaccard <$> heapPushAll 2 items) = [(1 # 2)%Q; (1 # 2)%Q] ∧
  among_highest_distinct 2 (jaccard <$> items) (3 # 10) ∧
  ((3 # 10)%Q ∉ jaccard <$> heapPushAll 2 items) ∧
  length (heapPushAll (5 # 2) items) = 3%nat ∧
  ¬ (num_of_nat (length (heapPushAll (5 # 2) items)) <= 5 # 2)%Q.
Proof.
  split; [reflexivity|]. split.
  - split; [|vm_compute; lia]. apply (bool_decide_unpack _). by vm_compute.
  - split; [apply (bool_decide_unpack _); by vm_compute|].
    split; [reflexivity|]. by vm_compute.
Qed.

(** ** [fetchJsonWithCache]: retries *)

Lemma retryLoop_attempts (cfg : Config) (fenv : FetchEnv) (url : string)
    (remaining attempt : nat) (lastError : option JsError) :
  (attemptsMade (retryLoop cfg fenv url remaining attempt lastError).2 ≤ remaining)%nat.
Proof.
  revert attempt lastError. induction remaining as [|remaining IH];
    intros attempt lastError; [done|].
  cbn [retryLoop].
  set (tried := match outcome fenv (S attempt) with Failed _ => _ | _ => _ end).
  destruct tried as [[[j|]|[]] thrown].
  - cbn. lia.
  - destruct (negb _ || _).
    + cbn. lia.
    + specialize (IH (S attempt) (Some (default (new_Error "") thrown))).
      destruct (retryLoop cfg fenv url remaining (S attempt) _) as [[r e] evs].
      cbn in *. unfold attemptsMade in *. cbn. lia.
  - specialize (IH (S attempt) lastError).
    destruct (retryLoop cfg fenv url remaining (S attempt) _) as [[r e] evs].
    cbn in *. unfold attemptsMade in *. cbn. lia.
Qed.

(** The call makes at most [MAX_RETRY_ATTEMPTS] attempts. *)
Lemma fetchJsonWithCache_attempts (cfg : Config) (fenv : FetchEnv) (url : string) :
  (attemptsMade (fetchJsonWithCache cfg fenv url).2 ≤ MAX_RETRY_ATTEMPTS cfg)%nat.
Proof.
  unfold fetchJsonWithCache. destruct (lruHit fenv); [cbn; lia|].
  pose proof (retryLoop_attempts cfg fenv url (MAX_RETRY_ATTEMPTS cfg) 0 None) as H.
  destruct (retryLoop cfg fenv url (MAX_RETRY_ATTEMPTS cfg) 0 None) as [[r e] evs].
  cbn in *. done.
Qed.

Lemma retryLoop_throws (cfg : Config) (fenv : FetchEnv) (url : string)
    (remaining attempt : nat) (lastError : option JsError) :
  (retryLoop cfg fenv url remaining attempt lastError).1.1 = Throw →
  is_Some (retryLoop cfg fenv url remaining attempt lastError).1.2.
Proof.
  revert attempt lastError. induction remaining as [|remaining IH];
    intros attempt lastError; [by eexists|].
  cbn [retryLoop].
  set (tried := match outcome fenv (S attempt) with Failed _ => _ | _ => _ end).
  destruct tried as [[[j|]|[]] thrown].
  - done.
  - destruct (negb _ || _); [by eexists|].
    specialize (IH (S attempt) (Some (default (new_Error "") thrown))).
    by destruct (retryLoop cfg fenv url remaining (S attempt) _) as [[r e] evs].
  - specialize (IH (S attempt) lastError).
    by destruct (retryLoop cfg fenv url remaining (S attempt) _) as [[r e] evs].
Qed.

(** A call that does not return a document throws an error: a failure is
    never swallowed. *)
Lemma fetchJsonWithCache_returns_or_throws (cfg : Config) (fenv : FetchEnv)
    (url : string) :
  (∃ json, (fetchJsonWithCache cfg fenv url).1.1 = Ok json) ∨
  ((fetchJsonWithCache cfg fenv url).1.1 = Throw ∧
   is_Some (fetchJsonWithCache cfg fenv url).1.2).
Proof.
  unfold fetchJsonWithCache. destruct (lruHit fenv) as [hit|]; [left; by eexists|].
  pose proof (retryLoop_throws cfg fenv url (MAX_RETRY_ATTEMPTS cfg) 0 None) as H.
  destruct (retryLoop cfg fenv url (MAX_RETRY_ATTEMPTS cfg) 0 None) as [[[j|] e] evs];
    cbn in *; [left; by eexists|right; auto].
Qed.

(** C9, at the failing input.  A 404 answer is not among the failures the
    loop means to retry (it retries 429 and 5xx answers and connection
    errors), yet for a package whose name contains "timeout" the error
    thrown for the 404 carries the URL in its message, [isRetryableError]
    finds "timeout" in it, and the loop sleeps and fetches again until the
    attempt cap: five fetches with delays 1000, 2000, 4000 and 8000 ms.  For
    a name without such a word the same 404 is thrown after one fetch. *)
Example fetchPackageMeta_404_retried :
  let fenv :=
    mkFetchEnv None (λ _, Responded 404 Throw) (λ _, 0%Q) (new_Error "") in
  fetchPackageMeta defaultConfig fenv "pytest-timeoutt"
  = (Throw,
     Some (new_Error "HTTP 404 for https://pypi.org/pypi/pytest-timeoutt/json"),
     [EvRateLimit;
      EvFetch 1; EvSleep 1000; EvRateLimit;
      EvFetch 2; EvSleep 2000; EvRateLimit;
      EvFetch 3; EvSleep 4000; EvRateLimit;
      EvFetch 4; EvSleep 8000; EvRateLimit;
      EvFetch 5]) ∧
  fetchPackageMeta defaultConfig fenv "pytest-tmeoutt"
  = (Throw,
     Some (new_Error "HTTP 404 for https://pypi.org/pypi/pytest-tmeoutt/json"),
     [EvRateLimit; EvFetch 1]).
Proof. split; vm_compute; reflexivity. Qed.

(** ** The bitset fast path of [evaluateCandidate] *)

Lemma bitsetFastPath_item (cfg : Config) (env : Env) (base : list string)
    (baseBitset : list Z) (depSet : list string) (cand : string) (item : SimilarItem) :
  bitsetFastPath cfg env base baseBitset depSet cand = Some item →
  ∃ candBitset,
    dependentsBitset env cand = Some candBitset ∧
    baseBitset ≠ [] ∧ candBitset ≠ [] ∧
    item = mkSimilarItem cand (toFixed6 (jaccardBitset baseBitset candBitset)) 0.
Proof.
  unfold bitsetFastPath. intros H.
  destruct ((Set_size depSet =? 0) && (0 <? length baseBitset)%nat) eqn:E1; [|done].
  destruct (dependentsBitset env cand) as [candBitset|]; [|done].
  destruct (0 <? length candBitset)%nat eqn:E2; [|done].
  cbv zeta in H. destruct (num_geb _ _); [|done].
  exists candBitset. split; [done|].
  apply andb_true_iff in E1 as [_ E1].
  split; [by destruct baseBitset|]. split; [by destruct candBitset|]. congruence.
Qed.

Lemma jaccardBitset_value (a b : list Z) :
  a ≠ [] → b ≠ [] →
  jaccardBitset a b
  = num_div (twoPointer Z.eqb Z.ltb a b 0)
            (Z.of_nat (length a) + Z.of_nat (length b) - twoPointer Z.eqb Z.ltb a b 0).
Proof. intros Ha Hb. unfold jaccardBitset. by destruct a, b. Qed.

Lemma twoPointer_bound {A : Type} (eqb ltb : A → A → bool) (la lb : list A) (acc : Z) :
  acc ≤ twoPointer eqb ltb la lb acc
  ≤ acc + Z.min (Z.of_nat (length la)) (Z.of_nat (length lb)).
Proof.
  revert lb acc. induction la as [|x la IHa]; intros lb acc.
  { destruct lb; simpl; lia. }
  induction lb as [|y lb IHb] in acc |- *; [simpl; lia|].
  rewrite twoPointer_cons.
  destruct (eqb x y).
  - specialize (IHa lb (acc + 1)). cbn [length]. lia.
  - destruct (ltb x y).
    + specialize (IHa (y :: lb) acc). cbn [length] in *. lia.
    + specialize (IHb acc). cbn [length] in *. lia.
Qed.

(** The score of [jaccardBitset] is between 0 and 1. *)
Lemma jaccardBitset_unit (a b : list Z) :
  (0 <= jaccardBitset a b)%Q ∧ (jaccardBitset a b <= 1)%Q.
Proof.
  unfold jaccardBitset.
  destruct ((length a =? 0)%nat || (length b =? 0)%nat) eqn:E; [done|].
  apply orb_false_iff in E as [Ea Eb].
  apply Nat.eqb_neq in Ea, Eb. cbv zeta.
  pose proof (twoPointer_bound Z.eqb Z.ltb a b 0) as Hb.
  split; [apply num_div_nonneg|apply num_div_le_1]; lia.
Qed.

(** [Number(x.toFixed(6))] for [0 <= x < 10^21]: the number that the
    decimal [n / 10^6] denotes, [n] being the integer nearest to [x * 10^6]
    (the larger one when two are equally near). *)
Lemma toFixed6_decimal (x : Q) :
  (0 <= x)%Q → (x < inject_Z (10 ^ 21))%Q →
  toFixed6 x = decimal (Qfloor (x * inject_Z 1000000 + (1 # 2))) 1000000.
Proof.
  intros H0 Hlt. unfold toFixed6, toFixed6_abs, decimal.
  destruct (Qle_bool_spec 0 x) as [_|]; [|done].
  destruct (Qle_bool_spec (inject_Z (10 ^ 21)) x) as [Hge|_].
  { exfalso. by apply (Qlt_not_le _ _ Hlt). }
  apply double_proper. symmetry. apply Qmake_Qdiv.
Qed.

(** The rounding reads the number, not the quotient it stands for: 3/640
    is 0.0046875, a tie between 0.004687 and 0.004688; the number nearest
    to 3/640 is below it, and [toFixed(6)] gives 0.004687. *)
Example toFixed6_rounds_the_number :
  toFixed6 (num_div 3 640) = decimal 4687 1000000 ∧
  (num_div 3 640 < 46875 # 10000000)%Q ∧
  (inject_Z 3 / inject_Z 640 == 46875 # 10000000)%Q.
Proof. by vm_compute. Qed.

(** C7 (as amended).  Whenever [evaluateCandidate] accepts a candidate
    through the bitset fast path, the item it pushes has
    [sharedDependents = 0]; no shared count is reported on this path.  Its
    [jaccard] is not the value that [jaccardBitset] returns but
    [Number(x.toFixed(6))] of that value [x]: [x] is the number
    inter / (|a| + |b| − inter) that the two-pointer merge over the two ID
    arrays gives (the quotient, rounded as every division of numbers is),
    and the item carries the number that the decimal [n / 10^6] denotes,
    [n] being the integer nearest to [x * 10^6]. *)
Theorem bitset_path_reports_no_shared_count
    (cfg : Config) (env : Env) (pkg : string) (limit : Q) (base : list string)
    (baseBitset : list Z) (maxLive : nat) (cand : string) (st : ScoringState)
    (item : SimilarItem) :
  let depSet :=
    Set_from (default [] (cache_lookup2 (reverseDepsCache env)
                            (normalizePackageName cand) (toLowerCase cand))) in
  normalizePackageName cand ≠ normalizePackageName pkg →
  bitsetFastPath cfg env base baseBitset depSet cand = Some item →
  evaluateCandidate cfg env pkg limit base baseBitset maxLive cand st
  = mkScoringState (heapPushBounded limit (heap st) item)
                   (liveFetches st) (checkedCount st) ∧
  name item = cand ∧
  sharedDependents item = 0 ∧
  ∃ candBitset inter,
    dependentsBitset env cand = Some candBitset ∧
    inter = twoPointer Z.eqb Z.ltb baseBitset candBitset 0 ∧
    jaccardBitset baseBitset candBitset
    = num_div inter (Z.of_nat (length baseBitset) + Z.of_nat (length candBitset) - inter) ∧
    jaccard item = toFixed6 (jaccardBitset baseBitset candBitset) ∧
    jaccard item
    = decimal (Qfloor (jaccardBitset baseBitset candBitset * inject_Z 1000000 + (1 # 2)))
              1000000.
Proof.
  intros depSet Hne Hfast. split.
  - unfold evaluateCandidate. cbv zeta.
    destruct (String.eqb_spec (normalizePackageName cand) (normalizePackageName pkg));
      [done|].
    fold depSet. by rewrite Hfast.
  - destruct (bitsetFastPath_item _ _ _ _ _ _ _ Hfast) as (cb & Hcb & Ha & Hb & ->).
    split; [done|]. split; [done|].
    exists cb, (twoPointer Z.eqb Z.ltb baseBitset cb 0).
    split; [done|]. split; [done|]. split; [by apply jaccardBitset_value|].
    split; [done|]. cbn [jaccard].
    destruct (jaccardBitset_unit baseBitset cb) as [H0 H1].
    apply toFixed6_decimal; [done|].
    eapply Qle_lt_trans; [exact H1|done].
Qed.

Lemma bitset_path_reports_no_shared_count_witness :
  let env :=
    mkEnv ∅ [] None (λ _ _, None) (λ _, None)
          (λ p, if String.eqb p "numpy" then Some [1; 2; 3] else None)
          (λ _ n, seq 0 n) 0 in
  let item := mkSimilarItem "numpy" (decimal 333333 1000000) 0 in
  evaluateCandidate defaultConfig env "requests" 10 ["a"%string] [1] 200 "numpy"
    (mkScoringState [] 0 0)
  = mkScoringState (heapPushBounded 10 [] item) 0 0 ∧
  sharedDependents item = 0.
Proof.
  intros env item.
  pose proof (bitset_path_reports_no_shared_count defaultConfig env "requests" 10
                ["a"%string] [1] 200 "numpy" (mkScoringState [] 0 0) item) as H.
  cbv zeta in H.
  destruct H as (H1 & _ & H2 & _); [by vm_compute|by vm_compute|].
  split; [exact H1|exact H2].
Defined.

(** The claim as stated fails on the score: with ID arrays [1] and
    [1; 2; 3] the merge gives inter = 1 and [jaccardBitset] returns the
    number nearest to 1/3, while the item pushed carries 0.333333. *)
Lemma bitset_path_score_counterexample :
  let env :=
    mkEnv ∅ [] None (λ _ _, None) (λ _, None)
          (λ p, if String.eqb p "numpy" then Some [1; 2; 3] else None)
          (λ _ n, seq 0 n) 0 in
  let st := evaluateCandidate defaultConfig env "requests" 10 ["a"%string] [1] 200
              "numpy" (mkScoringState [] 0 0) in
  heap st = [mkSimilarItem "numpy" (decimal 333333 1000000) 0] ∧
  twoPointer Z.eqb Z.ltb [1] [1; 2; 3] 0 = 1 ∧
  jaccardBitset [1] [1; 2; 3] = num_div 1 3 ∧
  ¬ Qeq (decimal 333333 1000000) (jaccardBitset [1] [1; 2; 3]).
Proof.
  split; [by vm_compute|]. split; [done|]. split; [by vm_compute|].
  vm_compute. discriminate.
Qed.

(** ** Arrays: [sort], [slice], completed tasks *)

Lemma foldl_invariant {A B : Type} (P : A → Prop) (f : A → B → A) (l : list B) (a : A) :
  (∀ a x, x ∈ l → P a → P (f a x)) → P a → P (foldl f a l).
Proof.
  revert a. induction l as [|x l IH]; intros a Hf Ha; [done|].
  simpl. apply IH.
  - intros a' y Hy. apply Hf. by right.
  - apply Hf; [by left|done].
Qed.

Lemma completed_elem {A : Type} (env : Env) (st : Stage) (tasks : list A) (x : A) :
  x ∈ completed env st tasks → x ∈ tasks.
Proof.
  unfold completed. intros (i & _ & Hi)%list_elem_of_omap.
  by eapply list_elem_of_lookup_2.
Qed.

Lemma insert_by_perm {A : Type} (cmp : A → A → comparison) (x : A) (l : list A) :
  insert_by cmp x l ≡ₚ x :: l.
Proof.
  induction l as [|y l IH]; [done|]. simpl.
  destruct (cmp x y); try done. rewrite IH. apply perm_swap.
Qed.

Lemma Array_sortBy_perm {A : Type} (cmp : A → A → comparison) (l : list A) :
  Array_sortBy cmp l ≡ₚ l.
Proof.
  induction l as [|x l IH]; [done|]. simpl.
  rewrite insert_by_perm. by rewrite IH.
Qed.

Lemma Array_sortBy_length {A : Type} (cmp : A → A → comparison) (l : list A) :
  length (Array_sortBy cmp l) = length l.
Proof. by rewrite Array_sortBy_perm. Qed.

Lemma Array_sortBy_elem {A : Type} (cmp : A → A → comparison) (l : list A) (x : A) :
  x ∈ Array_sortBy cmp l ↔ x ∈ l.
Proof. by rewrite Array_sortBy_perm. Qed.

(** Sorting with a comparator puts the array in the order [R] when, on the
    elements of the array (those satisfying [P]), a non-positive result
    means [R x y], a positive one [R y x], and [R] is transitive. *)
Lemma Array_sortBy_sorted {A : Type} (cmp : A → A → comparison)
    (R : A → A → Prop) (P : A → Prop) (l : list A) :
  (∀ x y z, P x → P y → P z → R x y → R y z → R x z) →
  (∀ x y, P x → P y → cmp x y ≠ Gt → R x y) →
  (∀ x y, P x → P y → cmp x y = Gt → R y x) →
  Forall P l →
  StronglySorted R (Array_sortBy cmp l).
Proof.
  intros Htrans Hle Hgt HP.
  assert (∀ x s, P x → Forall P s → StronglySorted R s →
                  StronglySorted R (insert_by cmp x s)) as Hins.
  { intros x s Hx. induction s as [|y s IH]; intros Hs Hsorted; simpl.
    { repeat constructor. }
    apply Forall_cons in Hs as [Hy Hs].
    apply StronglySorted_inv in Hsorted as [Hsorted Hall].
    destruct (cmp x y) eqn:E.
    - constructor; [by constructor|]. constructor.
      + apply Hle; [done..|]. by rewrite E.
      + rewrite Forall_forall in Hall, Hs. apply Forall_forall. intros z Hz.
        eapply (Htrans x y z); auto. apply Hle; [done..|]. by rewrite E.
    - constructor; [by constructor|]. constructor.
      + apply Hle; [done..|]. by rewrite E.
      + rewrite Forall_forall in Hall, Hs. apply Forall_forall. intros z Hz.
        eapply (Htrans x y z); auto. apply Hle; [done..|]. by rewrite E.
    - constructor; [by apply IH|].
      rewrite insert_by_perm. constructor; [by apply Hgt|done]. }
  induction HP as [|x l Hx HP IH]; simpl; [constructor|].
  apply Hins; [done| |done].
  by rewrite Array_sortBy_perm.
Qed.

Lemma StronglySorted_take {A : Type} (R : A → A → Prop) (n : nat) (l : list A) :
  StronglySorted R l → StronglySorted R (take n l).
Proof.
  revert n. induction l as [|x l IH]; intros n Hl; [by destruct n|].
  destruct n as [|n]; [constructor|]. simpl.
  apply StronglySorted_inv in Hl as [Hl Hall].
  constructor; [by apply IH|].
  rewrite Forall_forall in Hall. apply Forall_forall.
  intros y Hy. apply Hall. by eapply subseteq_take.
Qed.

Lemma StronglySorted_fmap_const {A B : Type} (R : B → B → Prop) (f : A → B) (l : list A) :
  (∀ x y, R (f x) (f y)) → StronglySorted R (f <$> l).
Proof.
  intros HR. induction l as [|x l IH]; simpl; [constructor|].
  constructor; [done|]. apply Forall_forall. intros y (z & -> & _)%list_elem_of_fmap.
  apply HR.
Qed.

Lemma StronglySorted_impl {A : Type} (R S : A → A → Prop) (l : list A) :
  (∀ x y, x ∈ l → y ∈ l → R x y → S x y) →
  StronglySorted R l → StronglySorted S l.
Proof.
  intros H Hl. induction Hl as [|x l Hl IH Hall]; [constructor|].
  constructor.
  - apply IH. intros a b Ha Hb. apply H; by right.
  - rewrite Forall_forall in Hall. apply Forall_forall. intros y Hy.
    apply H; [by left|by right|by apply Hall].
Qed.

Lemma elem_of_take_elem {A : Type} (n : nat) (l : list A) (x : A) :
  x ∈ take n l → x ∈ l.
Proof. apply subseteq_take. Qed.

Lemma length_take_le' {A : Type} (n : nat) (l : list A) : (length (take n l) ≤ n)%nat.
Proof. rewrite length_take. lia. Qed.

(** ** The comparators *)

Lemma sign_sub_Q_le (x y : Q) : sign_sub_Q x y ≠ Gt → (x <= y)%Q.
Proof.
  unfold sign_sub_Q. intros H. destruct (x ?= y)%Q eqn:E; [| |done].
  - apply Qeq_alt in E. by apply Qle_lteq; right.
  - apply Qlt_alt in E. by apply Qlt_le_weak.
Qed.

Lemma sign_sub_Q_gt (x y : Q) : sign_sub_Q x y = Gt → (y < x)%Q.
Proof. unfold sign_sub_Q. intros H. by apply Qgt_alt in H. Qed.

Lemma byJaccard_sorted (l : list SimilarItem) :
  descending_by_jaccard (Array_sortBy byJaccard l).
Proof.
  apply (Array_sortBy_sorted byJaccard _ (λ _, True)).
  - intros x y z _ _ _ H1 H2. by eapply Qle_trans.
  - intros x y _ _ H. by apply sign_sub_Q_le.
  - intros x y _ _ H. apply sign_sub_Q_gt in H. by apply Qlt_le_weak.
  - by apply Forall_forall.
Qed.

(** ** [heapPushBounded] keeps the size bound and adds only the pushed item *)

Lemma heapSiftUp_loop_perm fuel (h : list SimilarItem) i :
  heapSiftUp_loop fuel h i ≡ₚ h.
Proof.
  revert h i. induction fuel as [|fuel IH]; intros h i; [done|].
  cbn [heapSiftUp_loop]. cbv zeta. destruct (0 <? i)%nat; [|done].
  destruct (heap_leb h _ i); [done|]. by rewrite IH, heapSwap_perm.
Qed.

Lemma heapSiftDown_loop_perm fuel (h : list SimilarItem) i :
  heapSiftDown_loop fuel h i ≡ₚ h.
Proof.
  revert h i. induction fuel as [|fuel IH]; intros h i; [done|].
  cbn [heapSiftDown_loop]. cbv zeta. destruct (_ =? i)%nat; [done|].
  by rewrite IH, heapSwap_perm.
Qed.

Lemma heapPushBounded_cases (limit : Q) (h : list SimilarItem) x :
  (heapPushBounded limit h x ≡ₚ x :: h ∧ (length h < cap limit)%nat) ∨
  heapPushBounded limit h x = h ∨
  (∃ r t, h = r :: t ∧ heapPushBounded limit h x ≡ₚ x :: t).
Proof.
  unfold heapPushBounded. rewrite num_ltb_length_cap.
  destruct (Nat.ltb_spec (length h) (cap limit)) as [Hlt|Hge].
  - left. split; [|done]. cbv zeta. unfold heapSiftUp.
    rewrite heapSiftUp_loop_perm. by rewrite Permutation_app_comm.
  - destruct (num_leb limit 0); [by right; left|].
    destruct h as [|r t]; [by right; left|]. cbn [lookup list_lookup].
    destruct (num_geb _ _); [by right; left|].
    right; right. exists r, t. split; [done|].
    unfold heapSiftDown. by rewrite heapSiftDown_loop_perm.
Qed.

Lemma heapPushBounded_length_le (limit : Q) (h : list SimilarItem) x :
  (length h ≤ cap limit)%nat → (length (heapPushBounded limit h x) ≤ cap limit)%nat.
Proof.
  intros Hlen.
  destruct (heapPushBounded_cases limit h x) as [[-> ?]|[->|(r & t & -> & ->)]];
    simpl in *; lia.
Qed.

Lemma heapPushBounded_elem (limit : Q) (h : list SimilarItem) x y :
  y ∈ heapPushBounded limit h x → y = x ∨ y ∈ h.
Proof.
  destruct (heapPushBounded_cases limit h x) as [[-> ?]|[->|(r & t & -> & ->)]].
  - by rewrite elem_of_cons.
  - auto.
  - rewrite !elem_of_cons. tauto.
Qed.

(** ** Sets and maps *)

Lemma Set_has_true (s : list string) (x : string) : Set_has s x = true ↔ x ∈ s.
Proof. unfold Set_has. apply bool_decide_eq_true. Qed.

Lemma Set_add_elem (s : list string) (x y : string) :
  y ∈ Set_add s x ↔ y ∈ s ∨ y = x.
Proof.
  unfold Set_add. destruct (Set_has s x) eqn:E.
  - apply Set_has_true in E. split; [auto|]. by intros [?| ->].
  - rewrite elem_of_app, list_elem_of_singleton. tauto.
Qed.

Lemma foldl_Set_add_elem (l acc : list string) (x : string) :
  x ∈ foldl Set_add acc l ↔ x ∈ acc ∨ x ∈ l.
Proof.
  revert acc. induction l as [|y l IH]; intros acc; simpl.
  - rewrite elem_of_nil. tauto.
  - rewrite IH, Set_add_elem, elem_of_cons. tauto.
Qed.

Lemma Set_from_elem (l : list string) (x : string) : x ∈ Set_from l ↔ x ∈ l.
Proof. unfold Set_from. rewrite foldl_Set_add_elem, elem_of_nil. tauto. Qed.

Lemma Map_set_elem {V : Type} (m : list (string * V)) (k : string) (v : V) e :
  e ∈ Map_set m k v → e = (k, v) ∨ e ∈ m.
Proof.
  induction m as [|[k' v'] m IH]; simpl.
  - rewrite list_elem_of_singleton. auto.
  - destruct (String.eqb k' k).
    + rewrite !elem_of_cons. tauto.
    + rewrite !elem_of_cons. intros [->|H]; [auto|]. destruct (IH H); auto.
Qed.

Lemma filter_elem {A : Type} (f : A → bool) (l : list A) (x : A) :
  x ∈ List.filter f l ↔ x ∈ l ∧ f x = true.
Proof. rewrite !list_elem_of_In. apply filter_In. Qed.

Lemma eqb_false_other (pkg n : string) :
  String.eqb (normalizePackageName n) (normalizePackageName pkg) = false →
  otherName pkg n.
Proof. intros H. by apply String.eqb_neq. Qed.

(** ** The query is never among the names collected *)

Lemma Forall_if_snoc {A : Type} (P : A → Prop) (c : bool) (acc : list A) (x : A) :
  P x → Forall P acc → Forall P (if c then acc ++ [x] else acc).
Proof.
  intros Hx Hacc. destruct c; [|done]. apply Forall_app. split; [done|]. by constructor.
Qed.

Lemma similarNameLoop_other (env : Env) (pkg : string) (limit : Q)
    (pops acc : list string) :
  Forall (otherName pkg) acc →
  Forall (otherName pkg) (similarNameLoop env pkg limit pops acc).
Proof.
  revert acc. induction pops as [|pop pops IH]; intros acc Hacc; [done|].
  cbn [similarNameLoop]. cbv zeta.
  destruct (String.eqb (normalizePackageName pop) (normalizePackageName pkg)) eqn:E;
    [by apply IH|].
  apply eqb_false_other in E.
  lazymatch goal with
  | |- Forall _ (if _ then ?X else _) => assert (Forall (otherName pkg) X) as HX
  end.
  { destruct (reverseDepsCache env !! normalizePackageName pop) as [[|d ds]|];
      repeat apply Forall_if_snoc; done. }
  destruct (num_geb _ _); [done|by apply IH].
Qed.

Lemma computeSimilarNameBasedFallback_other (cfg : Config) (env : Env)
    (pkg : string) (limit : Q) (r : SimilarItem) :
  r ∈ computeSimilarNameBasedFallback cfg env pkg limit → otherName pkg (name r).
Proof.
  unfold computeSimilarNameBasedFallback. cbv zeta.
  pose proof (similarNameLoop_other env pkg limit (popularPackages env) []
                (Forall_nil_2 _)) as H.
  destruct (similarNameLoop env pkg limit (popularPackages env) []) as [|n l] eqn:E.
  { by intros ?%elem_of_nil. }
  intros (x & -> & Hx)%list_elem_of_fmap. simpl.
  apply Array_slice0_elem in Hx. rewrite Forall_forall in H. by apply H.
Qed.

Lemma nameLoop_other (pkg : string) (bound : Q) (once : bool)
    (pops acc : list string) :
  Forall (otherName pkg) acc →
  Forall (otherName pkg) (nameLoop pkg bound once pops acc).
Proof.
  revert acc. induction pops as [|pop pops IH]; intros acc Hacc; [done|].
  cbn [nameLoop]. cbv zeta.
  destruct (String.eqb (normalizePackageName pop) (normalizePackageName pkg)) eqn:E;
    [by apply IH|].
  apply eqb_false_other in E.
  lazymatch goal with
  | |- Forall _ (if _ then ?X else _) => assert (Forall (otherName pkg) X) as HX
  end.
  { by apply Forall_if_snoc. }
  destruct (num_geb _ _); [done|by apply IH].
Qed.

Lemma nameBasedStrategy_other (cfg : Config) (env : Env) (pkg : string)
    (limit : Q) (r : SimilarItem) :
  r ∈ nameBasedStrategy cfg env pkg limit → otherName pkg (name r).
Proof.
  unfold nameBasedStrategy. cbv zeta.
  intros (x & -> & Hx)%list_elem_of_fmap. simpl.
  pose proof (nameLoop_other pkg limit false
    (take (Nat.min (length (popularPackages env)) (MAX_POPULAR_FOR_NAME_BASED cfg))
          (popularPackages env)) [] (Forall_nil_2 _)) as H.
  rewrite Forall_forall in H. by apply H.
Qed.

Lemma forwardDepsTask_other (env : Env) (pkg : string) (pkgDepsSet : list string)
    (candidate : string) (similar : list (string * Z)) :
  Forall (λ e, otherName pkg e.1) similar →
  Forall (λ e, otherName pkg e.1) (forwardDepsTask env pkg pkgDepsSet candidate similar).
Proof.
  intros H. unfold forwardDepsTask.
  destruct (String.eqb _ _) eqn:E; [done|]. apply eqb_false_other in E.
  destruct (packageDeps env candidate); [|done]. cbv zeta.
  destruct (0 <? _)%nat; [|done].
  apply Forall_forall. intros e He. apply Map_set_elem in He as [->|He]; [done|].
  rewrite Forall_forall in H. by apply H.
Qed.

Lemma forwardDepsResults_names (cfg : Config) (limit : Q) (totalDeps : Z)
    (similar : list (string * Z)) (r : SimilarItem) :
  r ∈ forwardDepsResults cfg limit totalDeps similar →
  ∃ e, e ∈ similar ∧ name r = e.1.
Proof.
  unfold forwardDepsResults. cbv zeta. intros Hr.
  apply Array_slice0_elem in Hr. apply Array_sortBy_elem in Hr.
  apply filter_elem in Hr as [Hr _].
  apply list_elem_of_fmap in Hr as (e & -> & He). by exists e.
Qed.

Lemma computeSimilarForwardDeps_other (cfg : Config) (env : Env) (pkg : string)
    (limit : Q) (rs : list SimilarItem) (r : SimilarItem) :
  computeSimilarForwardDeps cfg env pkg limit = Ok rs → r ∈ rs →
  otherName pkg (name r).
Proof.
  unfold computeSimilarForwardDeps. intros H Hr.
  assert (∀ rs', Ok (computeSimilarNameBasedFallback cfg env pkg limit) = Ok rs' →
                 r ∈ rs' → otherName pkg (name r)) as Hfb.
  { intros rs' [= <-]. apply computeSimilarNameBasedFallback_other. }
  destruct (packageDeps env pkg) as [pkgDeps|]; [|by eapply Hfb].
  destruct (length pkgDeps =? 0)%nat; [by eapply Hfb|]. cbv zeta in H.
  destruct (Z.of_nat (length pkgDeps) =? 0); [by eapply Hfb|].
  destruct (0 <? length _)%nat; [|by eapply Hfb].
  cbn in H. injection H as <-.
  apply forwardDepsResults_names in Hr as (e & He & ->).
  revert e He. apply Forall_forall.
  apply (foldl_invariant (Forall (λ e, otherName pkg e.1))); [|done].
  intros m c _. apply forwardDepsTask_other.
Qed.

(** The heap of the scoring pass holds no item named like the query, and
    stays within its capacity. *)
Lemma evaluateCandidate_heap (cfg : Config) (env : Env) (pkg : string) (limit : Q)
    (base : list string) (baseBitset : list Z) (maxLive : nat) (cand : string)
    (st : ScoringState) (P : list SimilarItem → Prop) :
  P (heap st) →
  (∀ item, name item = cand → otherName pkg cand →
           P (heapPushBounded limit (heap st) item)) →
  P (heap (evaluateCandidate cfg env pkg limit base baseBitset maxLive cand st)).
Proof.
  intros Hst Hpush.
  unfold evaluateCandidate. cbv zeta.
  destruct (String.eqb _ _) eqn:E; [done|]. apply eqb_false_other in E.
  destruct (bitsetFastPath _ _ _ _ _ _) as [item|] eqn:Ef.
  { apply bitsetFastPath_item in Ef as (cb & _ & _ & _ & ->). cbn [heap].
    by apply Hpush. }
  destruct (_ && _)%bool; cbn [heap].
  - destruct (Set_size _ =? 0); cbn [heap]; [done|].
    destruct (negb _); cbn [heap]; [done|].
    destruct (_ && _)%bool; cbn [heap]; [|done]. by apply Hpush.
  - destruct (Set_size _ =? 0); cbn [heap]; [done|].
    destruct (negb _); cbn [heap]; [done|].
    destruct (_ && _)%bool; cbn [heap]; [|done]. by apply Hpush.
Qed.

Lemma evaluateCandidate_other (cfg : Config) (env : Env) (pkg : string) (limit : Q)
    (base : list string) (baseBitset : list Z) (maxLive : nat) (cand : string)
    (st : ScoringState) :
  Forall (λ r, otherName pkg (name r)) (heap st) →
  Forall (λ r, otherName pkg (name r))
         (heap (evaluateCandidate cfg env pkg limit base baseBitset maxLive cand st)).
Proof.
  intros Hall. apply evaluateCandidate_heap; [done|].
  intros item Hname Hcand. apply Forall_forall. intros y Hy.
  apply heapPushBounded_elem in Hy as [->|Hy]; [by rewrite Hname|].
  rewrite Forall_forall in Hall. by apply Hall.
Qed.

Lemma evaluateCandidate_length (cfg : Config) (env : Env) (pkg : string) (limit : Q)
    (base : list string) (baseBitset : list Z) (maxLive : nat) (cand : string)
    (st : ScoringState) :
  (length (heap st) ≤ cap limit)%nat →
  (length (heap (evaluateCandidate cfg env pkg limit base baseBitset maxLive cand st))
   ≤ cap limit)%nat.
Proof.
  intros Hlen. apply (evaluateCandidate_heap _ _ _ _ _ _ _ _ _
                        (λ h, (length h ≤ cap limit)%nat)); [done|].
  intros item _ _. by apply heapPushBounded_length_le.
Qed.

Lemma relaxedPass_other (cfg : Config) (env : Env) (pkg : string) (limit : Q)
    (base sortedCandidates : list string) (r : SimilarItem) :
  r ∈ relaxedPass cfg env pkg limit base sortedCandidates → otherName pkg (name r).
Proof.
  unfold relaxedPass. cbv zeta. intros Hr.
  apply Array_slice0_elem in Hr. apply Array_sortBy_elem in Hr.
  revert r Hr. apply Forall_forall.
  apply (foldl_invariant (Forall (λ r, otherName pkg (name r)))); [|done].
  intros alt cand _ Halt.
  destruct (String.eqb _ _) eqn:E; [done|]. apply eqb_false_other in E.
  destruct (cache_lookup2 _ _ _) as [[|d ds]|]; try done.
  destruct (_ && _)%bool; [|done].
  apply Forall_app. split; [done|]. by constructor.
Qed.

(** The heap at the end of the scoring pass. *)
Lemma scoring_inv (cfg : Config) (env : Env) (pkg : string) (limit : Q)
    (base : list string) (baseBitset : list Z) (maxLive : nat) (cands : list string) :
  let st := foldl (λ st cand,
                     evaluateCandidate cfg env pkg limit base baseBitset maxLive cand st)
                  (mkScoringState [] 0 0) cands in
  (length (heap st) ≤ cap limit)%nat ∧ Forall (λ r, otherName pkg (name r)) (heap st).
Proof.
  apply (foldl_invariant
    (λ st, (length (heap st) ≤ cap limit)%nat
           ∧ Forall (λ r, otherName pkg (name r)) (heap st))).
  - intros st cand _ [Hlen Hall].
    split; [by apply evaluateCandidate_length|by apply evaluateCandidate_other].
  - simpl. split; [lia|done].
Qed.

(** The shape of what [computeSimilarOnDemand] returns when the base is not
    empty: the drained heap, the relaxed pass, or the name-based list. *)
Lemma computeSimilarOnDemand_main (cfg : Config) (env : Env) (pkg : string)
    (limit : Q) (options : Options) (rs : list SimilarItem) :
  (Set_size (getReverseDeps env pkg) <? 1) = false →
  computeSimilarOnDemand cfg env pkg limit options = Ok rs →
  ∃ baseBitset maxLive cands sortedCandidates,
    let st := foldl (λ st cand,
                       evaluateCandidate cfg env pkg limit (getReverseDeps env pkg)
                         baseBitset maxLive cand st)
                    (mkScoringState [] 0 0) cands in
    rs = Array_sortBy byJaccard (heap st) ∨
    rs = relaxedPass cfg env pkg limit (getReverseDeps env pkg) sortedCandidates ∨
    rs = Array_slice0 (nameBasedStrategy cfg env pkg limit) limit.
Proof.
  intros Hbase H. unfold computeSimilarOnDemand in H. cbv zeta in H.
  rewrite Hbase in H.
  destruct (dependentsBitset env pkg) as [baseBitset|]; [|done].
  eexists baseBitset, _, _, _. cbv zeta.
  destruct (length (Array_sortBy byJaccard _) =? 0)%nat.
  - destruct (_ && _ && _)%bool.
    + destruct (0 <? _)%nat; injection H as <-; [by right; right|by right; left].
    + injection H as <-. by right; left.
  - injection H as <-. by left.
Qed.

Lemma computeSimilarOnDemand_other (cfg : Config) (env : Env) (pkg : string)
    (limit : Q) (options : Options) (rs : list SimilarItem) (r : SimilarItem) :
  computeSimilarOnDemand cfg env pkg limit options = Ok rs → r ∈ rs →
  otherName pkg (name r).
Proof.
  intros H Hr.
  destruct (Set_size (getReverseDeps env pkg) <? 1) eqn:Hbase.
  { unfold computeSimilarOnDemand in H. cbv zeta in H. rewrite Hbase in H.
    by eapply computeSimilarForwardDeps_other. }
  destruct (computeSimilarOnDemand_main cfg env pkg limit options rs Hbase H)
    as (bb & ml & cands & sorted & Hrs). cbv zeta in Hrs.
  destruct Hrs as [->|[->| ->]].
  - apply Array_sortBy_elem in Hr.
    destruct (scoring_inv cfg env pkg limit (getReverseDeps env pkg) bb ml cands)
      as [_ Hall].
    rewrite Forall_forall in Hall. by apply Hall.
  - by eapply relaxedPass_other.
  - apply Array_slice0_elem in Hr. by eapply nameBasedStrategy_other.
Qed.

(** C6.  For every query and every limit (any number) the query never
    appears in the list [computeSimilarOnDemand] returns for it: no returned
    item's name normalises to the normalised name of the query.  This holds
    on the main scoring path (every state of [evaluateCandidate]'s heap), on
    the relaxed cache-only fallback and on the name-based fallbacks alike. *)
Theorem computeSimilar_excludes_query (cfg : Config) (env : Env) (pkg : string)
    (limit : Q) (options : Options) :
  (∀ rs r, computeSimilarOnDemand cfg env pkg limit options = Ok rs → r ∈ rs →
           normalizePackageName (name r) ≠ normalizePackageName pkg) ∧
  (∀ base baseBitset maxLive cand st r,
     (∀ r', r' ∈ heap st → otherName pkg (name r')) →
     r ∈ heap (evaluateCandidate cfg env pkg limit base baseBitset maxLive cand st) →
     normalizePackageName (name r) ≠ normalizePackageName pkg) ∧
  (∀ base sortedCandidates r,
     r ∈ relaxedPass cfg env pkg limit base sortedCandidates →
     normalizePackageName (name r) ≠ normalizePackageName pkg) ∧
  (∀ r, r ∈ nameBasedStrategy cfg env pkg limit →
        normalizePackageName (name r) ≠ normalizePackageName pkg) ∧
  (∀ r, r ∈ computeSimilarNameBasedFallback cfg env pkg limit →
        normalizePackageName (name r) ≠ normalizePackageName pkg).
Proof.
  split; [intros rs r; apply computeSimilarOnDemand_other|].
  split.
  { intros base bb ml cand st r Hall Hr.
    pose proof (evaluateCandidate_other cfg env pkg limit base bb ml cand st) as H.
    rewrite !Forall_forall in H. by apply H. }
  split; [intros base sorted r; apply relaxedPass_other|].
  split; [intros r; apply nameBasedStrategy_other|].
  intros r; apply computeSimilarNameBasedFallback_other.
Qed.

(** ** Length and order of what [computeSimilarOnDemand] returns *)

Lemma nameBasedItems_descending (cfg : Config) (names : list string) :
  descending_by_jaccard (nameBasedItem cfg <$> names).
Proof. apply StronglySorted_fmap_const. intros x y. simpl. apply Qle_refl. Qed.

Lemma Array_slice0_sorted {A : Type} (R : A → A → Prop) (l : list A) (e : Q) :
  StronglySorted R l → StronglySorted R (Array_slice0 l e).
Proof. apply StronglySorted_take. Qed.

Lemma computeSimilarNameBasedFallback_shape (cfg : Config) (env : Env)
    (pkg : string) (limit : Q) :
  ((0 <= limit)%Q →
   (length (computeSimilarNameBasedFallback cfg env pkg limit) ≤ cut limit)%nat) ∧
  descending_by_jaccard (computeSimilarNameBasedFallback cfg env pkg limit).
Proof.
  unfold computeSimilarNameBasedFallback. cbv zeta.
  destruct (similarNameLoop _ _ _ _ _) as [|n l].
  { split; [simpl; lia|constructor]. }
  split; [intros H0; rewrite length_fmap; by apply Array_slice0_length
         |apply nameBasedItems_descending].
Qed.

(** On the forward-dependency path the score is a non-decreasing function of
    the shared count, so the order by shared count is also descending in
    the score. *)
Lemma bySharedThenJaccard_descending (totalDeps : Z) (l : list SimilarItem) :
  0 < totalDeps →
  Forall (λ r, jaccard r = toFixed6 (num_div (sharedDependents r) totalDeps)) l →
  descending_by_jaccard (Array_sortBy bySharedThenJaccard l).
Proof.
  intros Ht Hl.
  apply (Array_sortBy_sorted bySharedThenJaccard _
           (λ r, jaccard r = toFixed6 (num_div (sharedDependents r) totalDeps)));
    [| | |done].
  - intros x y z _ _ _ H1 H2. by eapply Qle_trans.
  - intros x y Hx Hy Hc. unfold bySharedThenJaccard in Hc.
    destruct (Z.eqb_spec (sharedDependents y) (sharedDependents x)) as [Es|Ns];
      cbn [negb] in Hc.
    + by apply sign_sub_Q_le.
    + rewrite Hx, Hy. apply toFixed6_mono, num_div_mono; [done|].
      apply Z.compare_le_iff. exact Hc.
  - intros x y Hx Hy Hc. unfold bySharedThenJaccard in Hc.
    destruct (Z.eqb_spec (sharedDependents y) (sharedDependents x)) as [Es|Ns];
      cbn [negb] in Hc.
    + apply sign_sub_Q_gt in Hc. by apply Qlt_le_weak.
    + rewrite Hx, Hy. apply toFixed6_mono, num_div_mono; [done|].
      unfold sign_sub_Z in Hc. apply Z.compare_gt_iff in Hc. lia.
Qed.

Lemma forwardDepsResults_shape (cfg : Config) (limit : Q) (totalDeps : Z)
    (similar : list (string * Z)) :
  0 < totalDeps →
  ((0 <= limit)%Q →
   (length (forwardDepsResults cfg limit totalDeps similar) ≤ cut limit)%nat) ∧
  descending_by_jaccard (forwardDepsResults cfg limit totalDeps similar).
Proof.
  intros Ht. unfold forwardDepsResults. cbv zeta.
  split; [intros H0; by apply Array_slice0_length|].
  apply Array_slice0_sorted, (bySharedThenJaccard_descending totalDeps); [done|].
  apply Forall_forall. intros r [Hr _]%filter_elem.
  by apply list_elem_of_fmap in Hr as (e & -> & _).
Qed.

Lemma computeSimilarForwardDeps_shape (cfg : Config) (env : Env) (pkg : string)
    (limit : Q) (rs : list SimilarItem) :
  computeSimilarForwardDeps cfg env pkg limit = Ok rs →
  ((0 <= limit)%Q → (length rs ≤ cut limit)%nat) ∧ descending_by_jaccard rs.
Proof.
  unfold computeSimilarForwardDeps. intros H.
  assert (∀ rs', Ok (computeSimilarNameBasedFallback cfg env pkg limit) = Ok rs' →
                 ((0 <= limit)%Q → (length rs' ≤ cut limit)%nat)
                 ∧ descending_by_jaccard rs') as Hfb.
  { intros rs' [= <-]. apply computeSimilarNameBasedFallback_shape. }
  destruct (packageDeps env pkg) as [pkgDeps|]; [|by eapply Hfb].
  destruct (length pkgDeps =? 0)%nat; [by eapply Hfb|]. cbv zeta in H.
  destruct (Z.eqb_spec (Z.of_nat (length pkgDeps)) 0) as [|Hne]; [by eapply Hfb|].
  destruct (0 <? length _)%nat; [|by eapply Hfb].
  cbn in H. injection H as <-. apply forwardDepsResults_shape. lia.
Qed.

Lemma relaxedPass_shape (cfg : Config) (env : Env) (pkg : string) (limit : Q)
    (base sortedCandidates : list string) :
  ((0 <= limit)%Q →
   (length (relaxedPass cfg env pkg limit base sortedCandidates) ≤ cut limit)%nat) ∧
  descending_by_jaccard (relaxedPass cfg env pkg limit base sortedCandidates).
Proof.
  unfold relaxedPass. cbv zeta. split; [intros H0; by apply Array_slice0_length|].
  apply Array_slice0_sorted, byJaccard_sorted.
Qed.

(** The list of [computeSimilarOnDemand]: at most [cap limit] entries, in
    descending order of [jaccard]. *)
Lemma computeSimilarOnDemand_shape (cfg : Config) (env : Env) (pkg : string)
    (limit : Q) (options : Options) (rs : list SimilarItem) :
  computeSimilarOnDemand cfg env pkg limit options = Ok rs →
  ((0 <= limit)%Q → (length rs ≤ cap limit)%nat) ∧ descending_by_jaccard rs.
Proof.
  intros H. pose proof (cut_le_cap limit) as Hcc.
  destruct (Set_size (getReverseDeps env pkg) <? 1) eqn:Hbase.
  { unfold computeSimilarOnDemand in H. cbv zeta in H. rewrite Hbase in H.
    destruct (computeSimilarForwardDeps_shape cfg env pkg limit rs H) as [Hl Hd].
    split; [|done]. intros H0. specialize (Hl H0). lia. }
  destruct (computeSimilarOnDemand_main cfg env pkg limit options rs Hbase H)
    as (bb & ml & cands & sorted & Hrs). cbv zeta in Hrs.
  destruct Hrs as [->|[->| ->]].
  - split; [|apply byJaccard_sorted]. intros _. rewrite Array_sortBy_length.
    apply (scoring_inv cfg env pkg limit (getReverseDeps env pkg) bb ml cands).
  - destruct (relaxedPass_shape cfg env pkg limit (getReverseDeps env pkg) sorted)
      as [Hl Hd].
    split; [|done]. intros H0. specialize (Hl H0). lia.
  - split.
    + intros H0. pose proof (Array_slice0_length (nameBasedStrategy cfg env pkg limit)
                               limit H0). lia.
    + unfold nameBasedStrategy. cbv zeta.
      apply Array_slice0_sorted, nameBasedItems_descending.
Qed.

(** ** [computeCooccurrence] *)

Lemma cooccurRanked_shape (limit : Q) (scannedCount : nat) (minShared : Z)
    (minJaccard : Q) (entries : list (string * Z)) :
  ((0 <= limit)%Q →
   (length (cooccurRanked limit scannedCount minShared minJaccard entries)
    ≤ cut limit)%nat) ∧
  descending_by_jaccard (cooccurRanked limit scannedCount minShared minJaccard entries).
Proof.
  unfold cooccurRanked. cbv zeta. split; [intros H0; by apply Array_slice0_length|].
  apply Array_slice0_sorted, byJaccard_sorted.
Qed.

Lemma computeCooccurrenceFromReverseDeps_shape (cfg : Config) (env : Env)
    (pkg : string) (limit : Q) (base : list string) (maxScan : option nat) :
  ((0 <= limit)%Q →
   (length (computeCooccurrenceFromReverseDeps cfg env pkg limit base maxScan)
    ≤ cut limit)%nat) ∧
  descending_by_jaccard (computeCooccurrenceFromReverseDeps cfg env pkg limit base maxScan).
Proof.
  unfold computeCooccurrenceFromReverseDeps. cbv zeta.
  destruct (_ && _)%bool; [|apply cooccurRanked_shape].
  destruct (0 <? _)%nat; apply cooccurRanked_shape.
Qed.

(** *** Keys of a map *)

Lemma filter_sublist {A : Type} (f : A → bool) (l : list A) :
  List.filter f l `sublist_of` l.
Proof.
  induction l as [|x l IH]; simpl; [done|].
  destruct (f x); [by apply sublist_skip|by apply sublist_cons].
Qed.

Lemma Map_set_keys {V : Type} (m : list (string * V)) (k : string) (v : V) :
  (Map_set m k v).*1 = if bool_decide (k ∈ m.*1) then m.*1 else m.*1 ++ [k].
Proof.
  induction m as [|[k' v'] m IH]; [done|].
  cbn [Map_set]. rewrite fmap_cons. cbn [fst].
  destruct (String.eqb_spec k' k) as [->|Hne].
  - rewrite bool_decide_eq_true_2 by by left. done.
  - rewrite fmap_cons, IH. cbn [fst].
    destruct (decide (k ∈ m.*1)) as [Hin|Hin].
    + rewrite !bool_decide_eq_true_2; [done|by right|done].
    + rewrite !bool_decide_eq_false_2; [done| |done].
      intros [?|?]%elem_of_cons; [congruence|done].
Qed.

Lemma Map_set_keys_elem {V : Type} (m : list (string * V)) (k : string) (v : V) k' :
  k' ∈ (Map_set m k v).*1 ↔ k' = k ∨ k' ∈ m.*1.
Proof.
  rewrite Map_set_keys. case_bool_decide as Hin.
  - split; [auto|]. by intros [->|?].
  - rewrite elem_of_app, list_elem_of_singleton. tauto.
Qed.

Lemma Map_set_keys_NoDup {V : Type} (m : list (string * V)) (k : string) (v : V) :
  NoDup m.*1 → NoDup (Map_set m k v).*1.
Proof.
  intros Hm. rewrite Map_set_keys. case_bool_decide as Hin; [done|].
  apply NoDup_app. split; [done|]. split.
  - intros x Hx ->%list_elem_of_singleton. done.
  - apply NoDup_singleton.
Qed.

(** *** The entries of the forward-dependency strategy *)

Lemma isDirectDep_of_dep (pkgDeps : list string) (dep : string) :
  dep ∈ pkgDeps →
  isDirectDep (Set_from (normalizePackageName <$> pkgDeps)) dep = true.
Proof.
  intros Hdep. unfold isDirectDep. apply Set_has_true, Set_from_elem.
  apply list_elem_of_fmap. by exists dep.
Qed.

Lemma addDirectDependencies_inv (popularSet pkgDeps : list string) :
  forward_inv popularSet pkgDeps (addDirectDependencies popularSet pkgDeps).
Proof.
  unfold addDirectDependencies.
  assert (∀ done todo (m : list (string * Z)),
    NoDup m.*1 →
    (∀ dep, dep ∈ done → Set_has popularSet (normalizePackageName dep) = true →
            dep ∈ m.*1) →
    (∀ k, k ∈ m.*1 → k ∈ done ∧ Set_has popularSet (normalizePackageName k) = true) →
    let m' := foldl (λ cooccur dep,
                       if Set_has popularSet (normalizePackageName dep)
                       then Map_set cooccur dep 1 else cooccur) m todo in
    NoDup m'.*1 ∧
    (∀ dep, dep ∈ done ++ todo →
            Set_has popularSet (normalizePackageName dep) = true → dep ∈ m'.*1) ∧
    (∀ k, k ∈ m'.*1 →
          k ∈ done ++ todo ∧ Set_has popularSet (normalizePackageName k) = true)) as H.
  { intros done todo. revert done. induction todo as [|d todo IH]; intros done m Hnd H1 H2.
    { simpl. rewrite app_nil_r. done. }
    simpl. replace (done ++ d :: todo) with ((done ++ [d]) ++ todo)
      by by rewrite <- app_assoc.
    apply IH.
    - destruct (Set_has _ _); [by apply Map_set_keys_NoDup|done].
    - intros dep [Hdep| ->%list_elem_of_singleton]%elem_of_app Hpop.
      + destruct (Set_has popularSet (normalizePackageName d));
          [apply Map_set_keys_elem; right|]; by apply H1.
      + rewrite Hpop. apply Map_set_keys_elem. by left.
    - intros k Hk. rewrite elem_of_app, list_elem_of_singleton.
      destruct (Set_has popularSet (normalizePackageName d)) eqn:Ed.
      + apply Map_set_keys_elem in Hk as [->|Hk]; [auto|].
        destruct (H2 k Hk). auto.
      + destruct (H2 k Hk). auto. }
  destruct (H [] pkgDeps []) as (Hnd & H1 & H2); [constructor|..].
  - by intros ? ?%elem_of_nil.
  - by intros ? ?%elem_of_nil.
  - split; [done|]. split; [done|]. intros k Hk _. by apply H2.
Qed.

Lemma cooccurForwardTask_inv (env : Env) (pkg : string) (popularSet pkgDeps : list string)
    (pop : string) (m : list (string * Z)) :
  forward_inv popularSet pkgDeps m →
  forward_inv popularSet pkgDeps
    (cooccurForwardTask env pkg (Set_from (normalizePackageName <$> pkgDeps)) pop m).
Proof.
  intros (Hnd & H1 & H2). unfold cooccurForwardTask. cbv zeta.
  destruct (String.eqb _ _); [done|].
  destruct (Set_has _ (normalizePackageName pop)) eqn:Edir; [done|].
  destruct (packageDeps env pop); [|done].
  assert (∀ v, forward_inv popularSet pkgDeps (Map_set m pop v)) as Hset.
  { intros v. split; [by apply Map_set_keys_NoDup|]. split.
    - intros dep Hdep Hpop. apply Map_set_keys_elem. right. by apply H1.
    - intros k Hk Hd. apply Map_set_keys_elem in Hk as [->|Hk]; [|by apply H2].
      unfold isDirectDep in Hd. congruence. }
  destruct (0 <? _); [|done].
  destruct (Map_get m pop); [|by apply Hset].
  destruct (_ <? _); [by apply Hset|done].
Qed.

Lemma forward_inv_final (env : Env) (pkg : string) (popularSet pkgDeps : list string)
    (tasks : list string) :
  forward_inv popularSet pkgDeps
    (foldl (λ m pop, cooccurForwardTask env pkg
                       (Set_from (normalizePackageName <$> pkgDeps)) pop m)
           (addDirectDependencies popularSet pkgDeps) tasks).
Proof.
  apply (foldl_invariant (forward_inv popularSet pkgDeps)).
  - intros m pop _. apply cooccurForwardTask_inv.
  - apply addDirectDependencies_inv.
Qed.

(** *** The order of the forward-dependency strategy *)

Lemma bySharedThenJaccard_le (a b : SimilarItem) :
  bySharedThenJaccard a b ≠ Gt →
  sharedDependents b < sharedDependents a ∨
  (sharedDependents b = sharedDependents a ∧ (jaccard b <= jaccard a)%Q).
Proof.
  unfold bySharedThenJaccard. intros Hc.
  destruct (Z.eqb_spec (sharedDependents b) (sharedDependents a)) as [Es|Ns];
    cbn [negb] in Hc.
  - right. split; [done|]. by apply sign_sub_Q_le.
  - left. unfold sign_sub_Z in Hc.
    assert (sharedDependents b <= sharedDependents a) by (by apply Z.compare_le_iff).
    lia.
Qed.

Lemma bySharedThenJaccard_gt (a b : SimilarItem) :
  bySharedThenJaccard a b = Gt →
  sharedDependents a < sharedDependents b ∨
  (sharedDependents a = sharedDependents b ∧ (jaccard a <= jaccard b)%Q).
Proof.
  unfold bySharedThenJaccard. intros Hc.
  destruct (Z.eqb_spec (sharedDependents b) (sharedDependents a)) as [Es|Ns];
    cbn [negb] in Hc.
  - right. split; [done|]. apply sign_sub_Q_gt in Hc. by apply Qlt_le_weak.
  - left. unfold sign_sub_Z in Hc. apply Z.compare_gt_iff in Hc. lia.
Qed.

Lemma shared_jaccard_trans (x y z : SimilarItem) :
  sharedDependents y < sharedDependents x ∨
  (sharedDependents y = sharedDependents x ∧ (jaccard y <= jaccard x)%Q) →
  sharedDependents z < sharedDependents y ∨
  (sharedDependents z = sharedDependents y ∧ (jaccard z <= jaccard y)%Q) →
  sharedDependents z < sharedDependents x ∨
  (sharedDependents z = sharedDependents x ∧ (jaccard z <= jaccard x)%Q).
Proof.
  intros [?|[? ?]] [?|[? ?]]; try (left; lia).
  right. split; [lia|]. by eapply Qle_trans.
Qed.

Lemma byDirectThenShared_sorted (pkgDepsSet : list string) (l : list SimilarItem) :
  direct_shared_jaccard_order pkgDepsSet (Array_sortBy (byDirectThenShared pkgDepsSet) l).
Proof.
  apply (Array_sortBy_sorted (byDirectThenShared pkgDepsSet) _ (λ _, True));
    [| | |by apply Forall_forall].
  - intros x y z _ _ _ [[Hx Hy]|[Exy Oxy]] [[Hy' Hz]|[Eyz Oyz]].
    + congruence.
    + left. split; congruence.
    + left. split; congruence.
    + right. split; [congruence|]. by apply (shared_jaccard_trans x y z).
  - intros a b _ _ Hc. unfold byDirectThenShared in Hc. cbv zeta in Hc.
    destruct (isDirectDep pkgDepsSet (name a)) eqn:Ea,
             (isDirectDep pkgDepsSet (name b)) eqn:Eb; cbn in Hc; try done.
    + right. split; [done|]. by apply bySharedThenJaccard_le.
    + by left.
    + right. split; [done|]. by apply bySharedThenJaccard_le.
  - intros a b _ _ Hc. unfold byDirectThenShared in Hc. cbv zeta in Hc.
    destruct (isDirectDep pkgDepsSet (name a)) eqn:Ea,
             (isDirectDep pkgDepsSet (name b)) eqn:Eb; cbn in Hc; try done.
    + right. split; [done|]. by apply bySharedThenJaccard_gt.
    + by left.
    + right. split; [done|]. by apply bySharedThenJaccard_gt.
Qed.

Lemma bySharedThenJaccard_sorted (l : list SimilarItem) :
  StronglySorted
    (λ a b, sharedDependents b < sharedDependents a ∨
            (sharedDependents b = sharedDependents a ∧ (jaccard b <= jaccard a)%Q))
    (Array_sortBy bySharedThenJaccard l).
Proof.
  apply (Array_sortBy_sorted bySharedThenJaccard _ (λ _, True));
    [| | |by apply Forall_forall].
  - intros x y z _ _ _. apply shared_jaccard_trans.
  - intros a b _ _. apply bySharedThenJaccard_le.
  - intros a b _ _. apply bySharedThenJaccard_gt.
Qed.

Lemma direct_order_direct_first (pkgDepsSet : list string) (l : list SimilarItem) :
  direct_shared_jaccard_order pkgDepsSet l → direct_first pkgDepsSet l.
Proof.
  apply StronglySorted_impl. intros a b _ _ [[Ha Hb]|[E _]] Hd; congruence.
Qed.

(** A list without direct dependencies that is ordered by shared count and
    score is in the order of the strategy. *)
Lemma no_direct_order (pkgDepsSet : list string) (l : list SimilarItem) :
  Forall (λ r, isDirectDep pkgDepsSet (name r) = false) l →
  StronglySorted
    (λ a b, sharedDependents b < sharedDependents a ∨
            (sharedDependents b = sharedDependents a ∧ (jaccard b <= jaccard a)%Q)) l →
  direct_shared_jaccard_order pkgDepsSet l.
Proof.
  intros Hnd. apply StronglySorted_impl. intros a b Ha Hb Ho.
  rewrite Forall_forall in Hnd. right. split; [|done].
  by rewrite (Hnd a Ha), (Hnd b Hb).
Qed.

(** *** Direct dependencies survive the cut at [limit] *)

Lemma direct_first_take (pkgDepsSet : list string) (n : nat) (l : list SimilarItem)
    (r : SimilarItem) :
  direct_first pkgDepsSet l →
  (length (List.filter (λ x, isDirectDep pkgDepsSet (name x)) l) ≤ n)%nat →
  r ∈ l → isDirectDep pkgDepsSet (name r) = true → r ∈ take n l.
Proof.
  revert n. induction l as [|y l IH]; intros n Hs Hn Hr Hd.
  { by apply elem_of_nil in Hr. }
  apply StronglySorted_inv in Hs as [Hs Hall]. rewrite Forall_forall in Hall.
  assert (isDirectDep pkgDepsSet (name y) = true) as Hy.
  { apply elem_of_cons in Hr as [->|Hr]; [done|]. by apply (Hall r). }
  simpl in Hn. rewrite Hy in Hn. simpl in Hn.
  destruct n as [|n]; [lia|]. simpl.
  apply elem_of_cons in Hr as [->|Hr]; [by left|]. right.
  apply IH; [done|lia|done..].
Qed.

Lemma filter_perm {A : Type} (f : A → bool) (l l' : list A) :
  l ≡ₚ l' → List.filter f l ≡ₚ List.filter f l'.
Proof.
  induction 1 as [|x l l' _ IH|x y l|l l' l'' _ IH1 _ IH2]; simpl.
  - done.
  - destruct (f x); [by f_equiv|done].
  - destruct (f x), (f y); try done. apply perm_swap.
  - by etransitivity.
Qed.

Lemma filter_length_sublist {A : Type} (f : A → bool) (l1 l2 : list A) :
  l1 `sublist_of` l2 →
  (length (List.filter f l1) ≤ length (List.filter f l2))%nat.
Proof.
  induction 1 as [|x l1 l2 _ IH|x l1 l2 _ IH]; simpl; [done| |].
  - destruct (f x); simpl; lia.
  - destruct (f x); simpl; lia.
Qed.

Lemma filter_fmap_length {A B : Type} (f : B → bool) (g : A → B) (l : list A) :
  length (List.filter f (g <$> l)) = length (List.filter (λ x, f (g x)) l).
Proof.
  induction l as [|x l IH]; [done|]. rewrite fmap_cons. simpl.
  destruct (f (g x)); simpl; by rewrite IH.
Qed.

(** The number of direct dependencies among the ranked entries is at most
    the number of popular dependencies of the query. *)
Lemma direct_entries_bound (popularSet pkgDeps : list string) (m : list (string * Z)) :
  forward_inv popularSet pkgDeps m →
  (length (List.filter
             (λ e : string * Z,
                isDirectDep (Set_from (normalizePackageName <$> pkgDeps)) e.1) m)
   ≤ length (List.filter (λ d, Set_has popularSet (normalizePackageName d)) pkgDeps))%nat.
Proof.
  intros (Hnd & _ & H2).
  set (D := Set_from (normalizePackageName <$> pkgDeps)) in *.
  rewrite <- (filter_fmap_length (isDirectDep D) fst m).
  change (fst <$> m) with (m.*1).
  apply submseteq_length, NoDup_submseteq.
  - by apply NoDup_ListNoDup, List.NoDup_filter, NoDup_ListNoDup.
  - intros k [Hk Hd]%filter_elem. apply filter_elem.
    by apply H2.
Qed.

(** *** The name-based fallback *)

Lemma nameLoop_elem (pkg : string) (bound : Q) (once : bool)
    (pops acc : list string) (x : string) :
  x ∈ nameLoop pkg bound once pops acc → x ∈ acc ∨ x ∈ pops.
Proof.
  revert acc. induction pops as [|pop pops IH]; intros acc H; [by left|].
  cbn [nameLoop] in H. cbv zeta in H.
  destruct (String.eqb _ _).
  { apply IH in H as [H|H]; [by left|right; by right]. }
  match type of H with
  | context [if ?c then acc ++ [pop] else acc] => destruct c
  end;
  (destruct (num_geb _ _); [|apply IH in H as [H|H]; [|by right; right]]);
  set_solver.
Qed.

Lemma StronglySorted_all {A : Type} (R : A → A → Prop) (l : list A) :
  (∀ x y, x ∈ l → y ∈ l → R x y) → StronglySorted R l.
Proof.
  induction l as [|x l IH]; intros H; constructor.
  - apply IH. intros a b Ha Hb. apply H; by right.
  - apply Forall_forall. intros y Hy. apply H; [by left|by right].
Qed.

Lemma computeCooccurrenceNameBasedFallback_spec (cfg : Config) (env : Env)
    (pkg : string) (limit : Q) :
  ((0 <= limit)%Q →
   (length (computeCooccurrenceNameBasedFallback cfg env pkg limit) ≤ cut limit)%nat) ∧
  ∀ r, r ∈ computeCooccurrenceNameBasedFallback cfg env pkg limit →
       ∃ n, n ∈ popularPackages env ∧ r = nameBasedItem cfg n.
Proof.
  unfold computeCooccurrenceNameBasedFallback. cbv zeta.
  set (scanned := take _ (popularPackages env)).
  pose proof (nameLoop_elem pkg (num_mul limit 2) true scanned []) as Hel.
  destruct (nameLoop pkg (num_mul limit 2) true scanned []) as [|c l].
  { split; [simpl; lia|]. by intros r Hr%elem_of_nil. }
  split; [intros H0; rewrite length_fmap; by apply Array_slice0_length|].
  intros r (n & -> & Hn)%list_elem_of_fmap. exists n. split; [|done].
  apply Array_slice0_elem in Hn. apply Hel in Hn as [Hn|Hn].
  - by apply elem_of_nil in Hn.
  - by apply elem_of_take_elem in Hn.
Qed.

Lemma computeCooccurrenceNameBasedFallback_descending (cfg : Config) (env : Env)
    (pkg : string) (limit : Q) :
  descending_by_jaccard (computeCooccurrenceNameBasedFallback cfg env pkg limit).
Proof.
  unfold computeCooccurrenceNameBasedFallback. cbv zeta.
  destruct (nameLoop _ _ _ _ _); [constructor|apply nameBasedItems_descending].
Qed.

Lemma computeCooccurrenceNameBasedFallback_order (cfg : Config) (env : Env)
    (pkg : string) (limit : Q) (pkgDepsSet : list string) :
  (∀ n, n ∈ popularPackages env → isDirectDep pkgDepsSet n = false) →
  direct_shared_jaccard_order pkgDepsSet
    (computeCooccurrenceNameBasedFallback cfg env pkg limit).
Proof.
  intros Hnd. apply StronglySorted_all. intros a b Ha Hb.
  apply computeCooccurrenceNameBasedFallback_spec in Ha as (na & Hna & ->).
  apply computeCooccurrenceNameBasedFallback_spec in Hb as (nb & Hnb & ->).
  right. simpl. rewrite (Hnd na Hna), (Hnd nb Hnb).
  split; [done|]. right. split; [done|]. apply Qle_refl.
Qed.

(** *** The ranked, relaxed and fallback results of the forward strategy *)

Lemma cooccurForwardRanked_shape (cfg : Config) (limit : Q)
    (pkgDepsSet : list string) (totalDeps : Z) (m : list (string * Z)) :
  ((0 <= limit)%Q →
   (length (cooccurForwardRanked cfg limit pkgDepsSet totalDeps m) ≤ cut limit)%nat) ∧
  direct_shared_jaccard_order pkgDepsSet
    (cooccurForwardRanked cfg limit pkgDepsSet totalDeps m).
Proof.
  unfold cooccurForwardRanked. cbv zeta.
  split; [intros H0; by apply Array_slice0_length|].
  apply Array_slice0_sorted, byDirectThenShared_sorted.
Qed.

(** An empty ranking with a [limit] of at least 1 means that no key of the
    map is a direct dependency: the filter keeps every direct dependency. *)
Lemma cooccurForwardRanked_nil (cfg : Config) (limit : Q)
    (pkgDepsSet : list string) (totalDeps : Z) (m : list (string * Z)) :
  (0 <= limit)%Q → cut limit ≠ 0%nat →
  cooccurForwardRanked cfg limit pkgDepsSet totalDeps m = [] →
  ∀ k, k ∈ m.*1 → isDirectDep pkgDepsSet k = false.
Proof.
  unfold cooccurForwardRanked. cbv zeta. intros H0 Hl Hnil k Hk.
  rewrite Array_slice0_nonneg in Hnil by done.
  destruct (isDirectDep pkgDepsSet k) eqn:Ek; [exfalso|done].
  apply list_elem_of_fmap in Hk as ([k' c] & -> & He). simpl in Ek.
  match type of Hnil with
  | take (cut limit) (Array_sortBy ?cmp ?l) = [] =>
      assert (Array_sortBy cmp l = []) as Hs;
      [destruct (cut limit); [done|]; by destruct (Array_sortBy cmp l)|];
      assert (l = []) as Hf;
      [apply Permutation_nil_r; rewrite <- Hs; by rewrite Array_sortBy_perm|]
  end.
  match type of Hf with
  | List.filter ?f (?g <$> m) = [] =>
      assert (g (k', c) ∈ List.filter f (g <$> m)) as Hin
  end.
  { apply filter_elem. split.
    - apply list_elem_of_fmap. by exists (k', c).
    - cbv beta zeta. cbn [name fst]. by rewrite Ek. }
  rewrite Hf in Hin. by apply elem_of_nil in Hin.
Qed.

(** Every popular dependency of the query is in the ranking when the number
    of popular dependencies does not exceed [limit]. *)
Lemma cooccurForwardRanked_direct (cfg : Config) (limit : Q)
    (popularSet pkgDeps : list string) (totalDeps : Z) (m : list (string * Z))
    (dep : string) :
  forward_inv popularSet pkgDeps m →
  (num_of_nat
     (length (List.filter (λ d, Set_has popularSet (normalizePackageName d)) pkgDeps))
   <= limit)%Q →
  dep ∈ pkgDeps → Set_has popularSet (normalizePackageName dep) = true →
  ∃ r, r ∈ cooccurForwardRanked cfg limit
             (Set_from (normalizePackageName <$> pkgDeps)) totalDeps m ∧
       name r = dep.
Proof.
  intros Hinv Hcount Hdep Hpop.
  assert (0 <= limit)%Q as H0
    by (eapply Qle_trans; [apply num_of_nat_nonneg|exact Hcount]).
  apply le_cut in Hcount.
  pose proof (direct_entries_bound _ _ _ Hinv) as Hbound.
  destruct Hinv as (Hnd & H1 & H2).
  set (D := Set_from (normalizePackageName <$> pkgDeps)) in *.
  pose proof (H1 dep Hdep Hpop) as Hk.
  apply list_elem_of_fmap in Hk as ([k c] & Hk & He). simpl in Hk. subst k.
  pose proof (isDirectDep_of_dep pkgDeps dep Hdep) as Hd. fold D in Hd.
  unfold cooccurForwardRanked. cbv zeta. rewrite Array_slice0_nonneg by done.
  match goal with
  | |- ∃ r, r ∈ take (cut limit) (Array_sortBy ?cmp (List.filter ?f (?g <$> m))) ∧ _ =>
      set (mapped := g <$> m); set (filtered := List.filter f mapped);
      exists (g (dep, c)); assert (g (dep, c) ∈ filtered) as Hin
  end.
  { apply filter_elem. split.
    - apply list_elem_of_fmap. by exists (dep, c).
    - cbv beta zeta. cbn [name fst]. by rewrite Hd. }
  split; [|done].
  apply (direct_first_take D).
  - apply direct_order_direct_first, byDirectThenShared_sorted.
  - rewrite (Permutation_length
               (filter_perm _ _ _ (Array_sortBy_perm (byDirectThenShared D) filtered))).
    etransitivity; [apply filter_length_sublist, filter_sublist|].
    unfold mapped. rewrite filter_fmap_length. cbn [name]. lia.
  - by apply Array_sortBy_elem.
  - done.
Qed.

Lemma cooccurForwardRelaxed_shape (cfg : Config) (limit : Q)
    (pkgDepsSet : list string) (totalDeps : Z) (m : list (string * Z)) :
  (∀ k, k ∈ m.*1 → isDirectDep pkgDepsSet k = false) →
  ((0 <= limit)%Q →
   (length (cooccurForwardRelaxed cfg limit totalDeps m) ≤ cut limit)%nat) ∧
  direct_shared_jaccard_order pkgDepsSet (cooccurForwardRelaxed cfg limit totalDeps m).
Proof.
  intros Hnd. unfold cooccurForwardRelaxed. cbv zeta.
  split; [intros H0; by apply Array_slice0_length|].
  apply Array_slice0_sorted, no_direct_order; [|apply bySharedThenJaccard_sorted].
  apply Forall_forall. intros r Hr. apply Array_sortBy_elem in Hr.
  apply filter_elem in Hr as [Hr _].
  apply list_elem_of_fmap in Hr as (e & -> & He). simpl.
  apply Hnd. apply list_elem_of_fmap. by exists e.
Qed.

(** When no key of the map is a direct dependency, no dependency of the query
    is a popular package, and no popular package is a direct dependency. *)
Lemma forward_inv_no_direct (popularPkgs pkgDeps : list string) (m : list (string * Z)) :
  forward_inv (Set_from (normalizePackageName <$> popularPkgs)) pkgDeps m →
  (∀ k, k ∈ m.*1 →
        isDirectDep (Set_from (normalizePackageName <$> pkgDeps)) k = false) →
  (∀ dep, dep ∈ pkgDeps →
          Set_has (Set_from (normalizePackageName <$> popularPkgs))
                  (normalizePackageName dep) = false) ∧
  (∀ n, n ∈ popularPkgs →
        isDirectDep (Set_from (normalizePackageName <$> pkgDeps)) n = false).
Proof.
  intros (_ & H1 & _) Hnd.
  assert (∀ dep, dep ∈ pkgDeps →
            Set_has (Set_from (normalizePackageName <$> popularPkgs))
                    (normalizePackageName dep) = false) as Hno.
  { intros dep Hdep.
    destruct (Set_has _ (normalizePackageName dep)) eqn:E; [|done].
    pose proof (Hnd dep (H1 dep Hdep E)) as Hd.
    by rewrite (isDirectDep_of_dep pkgDeps dep Hdep) in Hd. }
  split; [done|]. intros n Hn.
  destruct (isDirectDep _ n) eqn:E; [|done]. exfalso.
  unfold isDirectDep in E. apply (proj1 (Set_has_true _ _)) in E.
  apply (proj1 (Set_from_elem _ _)) in E.
  apply list_elem_of_fmap in E as (dep & Hnorm & Hdep).
  specialize (Hno dep Hdep). rewrite <- Hnorm in Hno.
  assert (Set_has (Set_from (normalizePackageName <$> popularPkgs))
                  (normalizePackageName n) = true) as Ht.
  { apply Set_has_true, Set_from_elem, list_elem_of_fmap. by exists n. }
  congruence.
Qed.

(** *** [computeCooccurrenceFromForwardDeps] *)

Lemma computeCooccurrenceFromForwardDeps_spec (cfg : Config) (env : Env)
    (pkg : string) (limit : Q) (pkgDeps : list string) (rs : list SimilarItem) :
  (0 <= limit)%Q →
  packageDeps env pkg = Some pkgDeps →
  computeCooccurrenceFromForwardDeps cfg env pkg limit = Ok rs →
  (length rs ≤ cut limit)%nat ∧
  direct_shared_jaccard_order (Set_from (normalizePackageName <$> pkgDeps)) rs ∧
  ((num_of_nat
      (length (List.filter
                 (λ d, Set_has (Set_from (normalizePackageName <$> popularPackages env))
                               (normalizePackageName d)) pkgDeps)) <= limit)%Q →
   ∀ dep, dep ∈ pkgDeps →
     Set_has (Set_from (normalizePackageName <$> popularPackages env))
             (normalizePackageName dep) = true →
     ∃ r, r ∈ rs ∧ name r = dep).
Proof.
  intros H0 Hdeps H. unfold computeCooccurrenceFromForwardDeps in H. rewrite Hdeps in H.
  set (D := Set_from (normalizePackageName <$> pkgDeps)) in *.
  set (P := Set_from (normalizePackageName <$> popularPackages env)) in *.
  pose proof (computeCooccurrenceNameBasedFallback_spec cfg env pkg limit) as [Hfl Hfe].
  specialize (Hfl H0).
  destruct (Nat.eqb_spec (length pkgDeps) 0) as [Hz|Hnz].
  { cbn in H. injection H as <-. apply nil_length_inv in Hz. subst pkgDeps.
    split; [done|]. split.
    - apply computeCooccurrenceNameBasedFallback_order. intros n _.
      unfold isDirectDep, D. by vm_compute.
    - by intros _ dep Hdep%elem_of_nil. }
  cbv zeta in H.
  destruct (Z.eqb_spec (Z.of_nat (length pkgDeps)) 0) as [Hz|_]; [lia|].
  match type of H with
  | context [cooccurForwardRanked cfg limit D ?t ?m0] =>
      set (totalDeps := t) in *; set (m := m0) in *
  end.
  assert (forward_inv P pkgDeps m) as Hinv by apply forward_inv_final.
  destruct (0 <? length (cooccurForwardRanked cfg limit D totalDeps m))%nat eqn:Eres.
  { cbn in H. injection H as <-.
    split; [by apply cooccurForwardRanked_shape|].
    split; [apply cooccurForwardRanked_shape|].
    intros Hcount dep Hdep Hpop.
    by apply (cooccurForwardRanked_direct cfg limit P pkgDeps totalDeps m dep). }
  apply Nat.ltb_ge in Eres.
  assert (cooccurForwardRanked cfg limit D totalDeps m = []) as Hnil.
  { apply nil_length_inv. lia. }
  (* Nothing is returned for [limit < 1]; otherwise no key is direct. *)
  destruct (decide (cut limit = 0%nat)) as [Hc|Hl].
  { assert (rs = []) as ->.
    { destruct (0 <? _)%nat in H; cbn in H; injection H as <-.
      - pose proof (cooccurForwardRelaxed_shape cfg limit [] totalDeps m) as [Hlen _].
        { by intros k _. }
        specialize (Hlen H0). apply nil_length_inv. lia.
      - apply nil_length_inv. lia. }
    split; [simpl; lia|]. split; [constructor|].
    intros Hcount dep Hdep Hpop. exfalso. apply le_cut in Hcount.
    assert (dep ∈ List.filter (λ d, Set_has P (normalizePackageName d)) pkgDeps) as Hin.
    { by apply filter_elem. }
    destruct (List.filter _ pkgDeps); [by apply elem_of_nil in Hin|simpl in Hcount; lia]. }
  pose proof (cooccurForwardRanked_nil cfg limit D totalDeps m H0 Hl Hnil) as Hnd.
  destruct (forward_inv_no_direct (popularPackages env) pkgDeps m Hinv Hnd) as [Hnp Hpn].
  fold P in Hnp. fold D in Hpn.
  assert (∀ dep, dep ∈ pkgDeps → Set_has P (normalizePackageName dep) = true →
            ∃ r, r ∈ rs ∧ name r = dep) as Hvac.
  { intros dep Hdep Hpop. rewrite (Hnp dep Hdep) in Hpop. done. }
  destruct (0 <? _)%nat in H; cbn in H; injection H as <-.
  - split; [by apply (cooccurForwardRelaxed_shape cfg limit D)|].
    split; [by apply cooccurForwardRelaxed_shape|done].
  - split; [done|].
    split; [by apply computeCooccurrenceNameBasedFallback_order|done].
Qed.

(** Without the package's metadata the forward strategy returns the
    name-based fallback. *)
Lemma computeCooccurrenceFromForwardDeps_no_meta (cfg : Config) (env : Env)
    (pkg : string) (limit : Q) :
  packageDeps env pkg = None →
  computeCooccurrenceFromForwardDeps cfg env pkg limit
  = Ok (computeCooccurrenceNameBasedFallback cfg env pkg limit).
Proof. intros H. unfold computeCooccurrenceFromForwardDeps. by rewrite H. Qed.

Lemma computeCooccurrenceFromForwardDeps_length (cfg : Config) (env : Env)
    (pkg : string) (limit : Q) (rs : list SimilarItem) :
  (0 <= limit)%Q →
  computeCooccurrenceFromForwardDeps cfg env pkg limit = Ok rs →
  (length rs ≤ cut limit)%nat.
Proof.
  intros H0 H. destruct (packageDeps env pkg) as [pkgDeps|] eqn:E.
  - by apply (computeCooccurrenceFromForwardDeps_spec cfg env pkg limit pkgDeps).
  - rewrite computeCooccurrenceFromForwardDeps_no_meta in H by done.
    injection H as <-. by apply computeCooccurrenceNameBasedFallback_spec.
Qed.

(** [getReverseDeps] returns a set; it is empty exactly when its size is 0. *)
Lemma Set_size_pos (s : list string) : (0 <? Set_size s) = false ↔ s = [].
Proof.
  unfold Set_size. rewrite Z.ltb_ge. split.
  - intros H. apply nil_length_inv. lia.
  - by intros ->.
Qed.

(** ** What [computeSimilarOnDemand] and [computeCooccurrence] return *)

Lemma computeSimilarForwardDeps_returns (cfg : Config) (env : Env) (pkg : string)
    (limit : Q) :
  ∃ rs, computeSimilarForwardDeps cfg env pkg limit = Ok rs.
Proof.
  unfold computeSimilarForwardDeps.
  destruct (packageDeps env pkg) as [pkgDeps|]; [|by eexists].
  destruct (length pkgDeps =? 0)%nat; [by eexists|]. cbv zeta.
  destruct (_ =? 0); [by eexists|].
  destruct (0 <? _)%nat; by eexists.
Qed.

(** [computeSimilarOnDemand] returns a list unless the query has reverse
    dependents and its bitset cannot be loaded. *)
Lemma computeSimilarOnDemand_returns (cfg : Config) (env : Env) (pkg : string)
    (limit : Q) (options : Options) :
  is_Some (dependentsBitset env pkg) ∨ getReverseDeps env pkg = [] →
  ∃ rs, computeSimilarOnDemand cfg env pkg limit options = Ok rs.
Proof.
  intros H. unfold computeSimilarOnDemand. cbv zeta.
  destruct (Set_size (getReverseDeps env pkg) <? 1) eqn:Eb.
  { apply computeSimilarForwardDeps_returns. }
  destruct H as [[bs Hbs]|Hnil].
  - rewrite Hbs.
    destruct (length _ =? 0)%nat; [|by eexists].
    destruct (_ && _ && _); [|by eexists].
    destruct (0 <? _)%nat; by eexists.
  - rewrite Hnil in Eb. done.
Qed.


Lemma computeCooccurrenceFromForwardDeps_returns (cfg : Config) (env : Env)
    (pkg : string) (limit : Q) :
  ∃ rs, computeCooccurrenceFromForwardDeps cfg env pkg limit = Ok rs.
Proof.
  unfold computeCooccurrenceFromForwardDeps.
  destruct (packageDeps env pkg) as [pkgDeps|]; [|by eexists].
  destruct (length pkgDeps =? 0)%nat; [by eexists|]. cbv zeta.
  destruct (_ =? 0); [by eexists|].
  destruct (0 <? _)%nat; [by eexists|].
  destruct (0 <? _)%nat; by eexists.
Qed.

Lemma computeCooccurrence_returns (cfg : Config) (env : Env) (pkg : string)
    (limit : Q) (maxScan : option nat) :
  ∃ rs, computeCooccurrence cfg env pkg limit maxScan = Ok rs.
Proof.
  unfold computeCooccurrence. cbv zeta.
  destruct (0 <? _); [by eexists|apply computeCooccurrenceFromForwardDeps_returns].
Qed.

Lemma computeCooccurrence_reverse (cfg : Config) (env : Env) (pkg : string)
    (limit : Q) (maxScan : option nat) :
  getReverseDeps env pkg ≠ [] →
  computeCooccurrence cfg env pkg limit maxScan
  = Ok (computeCooccurrenceFromReverseDeps cfg env pkg limit
          (getReverseDeps env pkg) maxScan).
Proof.
  intros Hne. unfold computeCooccurrence. cbv zeta.
  destruct (0 <? _) eqn:E; [done|]. by apply Set_size_pos in E.
Qed.

Lemma computeCooccurrence_forward (cfg : Config) (env : Env) (pkg : string)
    (limit : Q) (maxScan : option nat) :
  getReverseDeps env pkg = [] →
  computeCooccurrence cfg env pkg limit maxScan
  = computeCooccurrenceFromForwardDeps cfg env pkg limit.
Proof. intros Hnil. unfold computeCooccurrence. by rewrite Hnil. Qed.

(** C5 (as the code has it), for a [limit] that is not negative.  [limit]
    is a number, and the route passes on a fractional one.  Every list that
    [computeCooccurrence] returns has at most [limit] entries.  Every list
    that [computeSimilarOnDemand] returns has at most [cap limit] entries,
    the least natural number not below [limit]: at most [limit] when
    [limit] is a natural number.  The list of [computeSimilarOnDemand] is in
    descending order of [jaccard] (and one is returned whenever the query's
    bitset can be loaded or the query has no reverse dependents).
    [computeCooccurrence] always returns a list; it is in descending order
    of [jaccard] when the query has reverse dependents or its metadata
    cannot be fetched, and otherwise in the order: direct dependencies of
    the query first, then [sharedDependents] descending, then [jaccard]
    descending. *)
Theorem ranked_result_shape (cfg : Config) (env : Env) (pkg : string)
    (limit : Q) (options : Options) (maxScan : option nat) :
  (0 <= limit)%Q →
  (∀ rs, computeSimilarOnDemand cfg env pkg limit options = Ok rs →
         (length rs ≤ cap limit)%nat ∧
         (∀ K : nat, (limit == num_of_nat K)%Q → (length rs ≤ K)%nat) ∧
         descending_by_jaccard rs) ∧
  (is_Some (dependentsBitset env pkg) ∨ getReverseDeps env pkg = [] →
   ∃ rs, computeSimilarOnDemand cfg env pkg limit options = Ok rs) ∧
  (∃ rs, computeCooccurrence cfg env pkg limit maxScan = Ok rs ∧
         (num_of_nat (length rs) <= limit)%Q ∧
         (getReverseDeps env pkg ≠ [] → descending_by_jaccard rs) ∧
         (getReverseDeps env pkg = [] → packageDeps env pkg = None →
          descending_by_jaccard rs) ∧
         (getReverseDeps env pkg = [] →
          ∀ pkgDeps, packageDeps env pkg = Some pkgDeps →
            direct_shared_jaccard_order
              (Set_from (normalizePackageName <$> pkgDeps)) rs)).
Proof.
  intros H0.
  assert (∀ n : nat, (n ≤ cut limit)%nat → (num_of_nat n <= limit)%Q) as Hcut.
  { intros n Hn. eapply Qle_trans; [|by apply cut_le]. by apply num_of_nat_le. }
  split.
  { intros rs Hrs.
    destruct (computeSimilarOnDemand_shape cfg env pkg limit options rs Hrs) as [Hl Hd].
    specialize (Hl H0). split; [done|]. split; [|done].
    intros K HK. by rewrite <- (cap_integer limit K HK). }
  split; [apply computeSimilarOnDemand_returns|].
  destruct (computeCooccurrence_returns cfg env pkg limit maxScan) as [rs Hrs].
  exists rs. split; [done|].
  destruct (decide (getReverseDeps env pkg = [])) as [Hnil|Hne].
  - rewrite computeCooccurrence_forward in Hrs by done.
    split; [by eapply Hcut, computeCooccurrenceFromForwardDeps_length|].
    split; [done|]. split.
    + intros _ Hnone.
      rewrite computeCooccurrenceFromForwardDeps_no_meta in Hrs by done.
      injection Hrs as <-. apply computeCooccurrenceNameBasedFallback_descending.
    + intros _ pkgDeps Hdeps.
      by apply (computeCooccurrenceFromForwardDeps_spec cfg env pkg limit pkgDeps).
  - rewrite computeCooccurrence_reverse in Hrs by done. injection Hrs as <-.
    split; [by apply Hcut, computeCooccurrenceFromReverseDeps_shape|].
    split; [intros _; apply computeCooccurrenceFromReverseDeps_shape|].
    split; by intros Hnil.
Qed.

Lemma ranked_result_shape_witness :
  (0 <= 10)%Q ∧
  (∃ rs, computeCooccurrence defaultConfig env_cooccur "q" 10 None = Ok rs ∧
         (num_of_nat (length rs) <= 10)%Q ∧ descending_by_jaccard rs) ∧
  (∀ rs, computeSimilarOnDemand defaultConfig env_cooccur "q" 10 noOptions = Ok rs →
         (length rs ≤ 10)%nat ∧ descending_by_jaccard rs).
Proof.
  assert (0 <= 10)%Q as H0 by done.
  destruct (ranked_result_shape defaultConfig env_cooccur "q" 10 noOptions None H0)
    as (Hs & _ & rs & Hrs & Hlen & Hd & _).
  split; [done|]. split.
  - exists rs. split; [done|]. split; [done|]. by apply Hd.
  - intros rs' Hrs'. destruct (Hs rs' Hrs') as (_ & HK & Hdesc).
    split; [|done]. by apply (HK 10%nat).
Defined.

(** C5 (as stated) fails in three ways.  In [env_ties] the candidates [x]
    (one shared dependent) and [y] (two shared dependents) both score 1/2
    and [computeSimilarOnDemand] returns [x] before [y]: ties are not in
    descending order of the shared count.  In [env_fwd] the query depends on
    [numpy] and [computeCooccurrence] returns [numpy] (score 1/2) before
    [scipy] (score 3/4): the list is not in descending order of [jaccard].
    In [env_three], with the limit 2.5 (which the route's clamp leaves as it
    is), [computeSimilarOnDemand] and the route return three entries, more
    than the limit. *)
Lemma ranked_result_order_counterexample :
  (∃ rs, computeSimilarOnDemand defaultConfig env_ties "q" 10 noOptions = Ok rs ∧
         ¬ descending_ties_by_shared rs) ∧
  (∃ rs, computeCooccurrence defaultConfig env_fwd "q" 10 None = Ok rs ∧
         ¬ descending_by_jaccard rs) ∧
  clampLimit (Finite (5 # 2)) = (5 # 2)%Q ∧
  (∃ rs, computeSimilarOnDemand defaultConfig env_three "q" (5 # 2) noOptions = Ok rs ∧
         length rs = 3%nat ∧ ¬ (num_of_nat (length rs) <= 5 # 2)%Q) ∧
  length (similarBody (GET defaultConfig env_three "q" (Finite (5 # 2)) true)) = 3%nat.
Proof.
  split.
  { eexists. split; [by vm_compute|]. intros H.
    apply StronglySorted_inv in H as [_ H].
    apply Forall_cons in H as [[H|[_ H]] _].
    + by vm_compute in H.
    + cbn in H. lia. }
  split.
  { eexists. split; [by vm_compute|]. intros H.
    apply StronglySorted_inv in H as [_ H].
    apply Forall_cons in H as [H _]. by vm_compute in H. }
  split; [by vm_compute|]. split; [|by vm_compute].
  eexists. split; [by vm_compute|]. split; [done|]. by vm_compute.
Qed.




(** ** The route and the errors of the pipeline *)

(** An empty package name is answered with status 400. *)
Lemma GET_empty_name (cfg : Config) (env : Env) (limitParam : JsNumber)
    (nocache : bool) :
  status (GET cfg env "" limitParam nocache) = 400%nat.
Proof. done. Qed.

(** C1 (evaluation at the failing input).  With cached reverse dependents
    for [requests] and a bitset index that cannot be read,
    [computeSimilarOnDemand] throws and the route (called without a [limit]
    parameter) answers 500 for the valid name [requests]; the empty name is
    answered with 400. *)
Example computeSimilarOnDemand_throws_on_bitset_failure :
  computeSimilarOnDemand defaultConfig env_broken "requests" 10 noOptions = Throw ∧
  status (GET defaultConfig env_broken "requests" (Finite 0) true) = 500%nat ∧
  status (GET defaultConfig env_broken "" (Finite 0) true) = 400%nat.
Proof. by vm_compute. Qed.

(** ** [fetchJsonWithCache]: the shape of a call *)



(** The trace of the retry loop entered after [attempt] attempts with
    [remaining] more allowed. *)
Lemma retryLoop_trace (cfg : Config) (fenv : FetchEnv) (url : string)
    (remaining attempt : nat) (lastError : option JsError) :
  (attempt + remaining)%nat = MAX_RETRY_ATTEMPTS cfg →
  ∃ k, (k ≤ remaining)%nat ∧ ((1 ≤ remaining)%nat → (1 ≤ k)%nat) ∧
       fetchAttempts (retryLoop cfg fenv url remaining attempt lastError).2
       = seq (S attempt) k ∧
       sleeps (retryLoop cfg fenv url remaining attempt lastError).2
       = (λ a, retryDelay cfg fenv a) <$> seq (S attempt) (k - 1).
Proof.
  revert attempt lastError. induction remaining as [|remaining IH];
    intros attempt lastError Hinv.
  { exists 0%nat. cbn. split; [lia|]. split; [lia|done]. }
  cbn [retryLoop].
  set (tried := match outcome fenv (S attempt) with Failed _ => _ | _ => _ end).
  assert (∀ r e evs k,
            (k ≤ remaining)%nat → ((1 ≤ remaining)%nat → (1 ≤ k)%nat) →
            (1 ≤ remaining)%nat →
            fetchAttempts evs = seq (S (S attempt)) k →
            sleeps evs = (λ a, retryDelay cfg fenv a) <$> seq (S (S attempt)) (k - 1) →
            ∃ k', (k' ≤ S remaining)%nat ∧ ((1 ≤ S remaining)%nat → (1 ≤ k')%nat) ∧
              fetchAttempts ((r : result string, e : option JsError,
                              EvFetch (S attempt)
                              :: EvSleep (retryDelay cfg fenv (S attempt))
                              :: EvRateLimit :: evs).2)
              = seq (S attempt) k' ∧
              sleeps ((r, e, EvFetch (S attempt)
                              :: EvSleep (retryDelay cfg fenv (S attempt))
                              :: EvRateLimit :: evs).2)
              = (λ a, retryDelay cfg fenv a) <$> seq (S attempt) (k' - 1)) as Hstep.
  { intros r e evs k Hk Hk1 Hrem Hf Hs. exists (S k).
    split; [lia|]. split; [lia|]. cbn [snd]. split.
    - unfold fetchAttempts in *. cbn. by rewrite Hf.
    - unfold sleeps in *. cbn. rewrite Hs.
      destruct k as [|k]; [lia|]. cbn. by rewrite Nat.sub_0_r. }
  destruct tried as [[[j|]|[]] thrown] eqn:Et.
  - exists 1%nat. split; [lia|]. split; [lia|]. by cbn.
  - destruct (negb _ || (MAX_RETRY_ATTEMPTS cfg <=? S attempt)%nat) eqn:E.
    + exists 1%nat. split; [lia|]. split; [lia|]. by cbn.
    + apply orb_false_iff in E as [_ E]. apply Nat.leb_gt in E.
      destruct (IH (S attempt) (Some (default (new_Error "") thrown)))
        as (k & Hk & Hk1 & Hf & Hs); [lia|].
      destruct (retryLoop cfg fenv url remaining (S attempt) _) as [[r e] evs].
      apply (Hstep r e evs k); [done|done|lia|done|done].
  - assert (S attempt < MAX_RETRY_ATTEMPTS cfg)%nat as E.
    { unfold tried in Et.
      destruct (outcome fenv (S attempt)) as [st json|err]; [|done].
      destruct (negb _); [|by destruct json].
      destruct (_ && (S attempt <? MAX_RETRY_ATTEMPTS cfg)%nat) eqn:E; [|done].
      apply andb_true_iff in E as [_ E]. by apply Nat.ltb_lt in E. }
    destruct (IH (S attempt) lastError) as (k & Hk & Hk1 & Hf & Hs); [lia|].
    destruct (retryLoop cfg fenv url remaining (S attempt) _) as [[r e] evs].
    apply (Hstep r e evs k); [done|done|lia|done|done].
Qed.

Lemma fetchJsonWithCache_trace (cfg : Config) (fenv : FetchEnv) (url : string) :
  lruHit fenv = None →
  ∃ k, (k ≤ MAX_RETRY_ATTEMPTS cfg)%nat ∧
       fetchAttempts (fetchJsonWithCache cfg fenv url).2 = seq 1 k ∧
       sleeps (fetchJsonWithCache cfg fenv url).2
       = (λ a, retryDelay cfg fenv a) <$> seq 1 (k - 1).
Proof.
  intros Hmiss. unfold fetchJsonWithCache. rewrite Hmiss.
  destruct (retryLoop_trace cfg fenv url (MAX_RETRY_ATTEMPTS cfg) 0 None)
    as (k & Hk & _ & Hf & Hs); [lia|].
  destruct (retryLoop cfg fenv url (MAX_RETRY_ATTEMPTS cfg) 0 None) as [[r e] evs].
  exists k. by cbn in *.
Qed.

(** A cache hit is returned without any request; otherwise the attempts of
    a call are numbered 1, 2, ..., k with k at most [MAX_RETRY_ATTEMPTS], and
    after each attempt but the last the call sleeps for the retry delay of
    that attempt. *)
Theorem fetchJsonWithCache_attempts_in_order (cfg : Config) (fenv : FetchEnv)
    (url : string) :
  (∀ hit, lruHit fenv = Some hit →
          fetchJsonWithCache cfg fenv url = (Ok hit, None, [])) ∧
  (lruHit fenv = None →
   ∃ k, (k ≤ MAX_RETRY_ATTEMPTS cfg)%nat ∧
        fetchAttempts (fetchJsonWithCache cfg fenv url).2 = seq 1 k ∧
        sleeps (fetchJsonWithCache cfg fenv url).2
        = (λ a, retryDelay cfg fenv a) <$> seq 1 (k - 1)).
Proof.
  split.
  - intros hit Hhit. unfold fetchJsonWithCache. by rewrite Hhit.
  - apply fetchJsonWithCache_trace.
Qed.




(** A response with a status that is not 2xx, 429 or 5xx, for a URL in which
    [isRetryableError] finds none of its words, is thrown after the first
    attempt: nothing is retried and nothing is slept. *)
Theorem fetchJsonWithCache_http_error_propagates (cfg : Config) (fenv : FetchEnv)
    (url : string) (st : nat) (body : result string) :
  lruHit fenv = None →
  (0 < MAX_RETRY_ATTEMPTS cfg)%nat →
  outcome fenv 1 = Responded st body →
  (st < 200 ∨ 299 < st)%nat → st ≠ 429%nat → (st < 500)%nat →
  isRetryableError (new_Error ("HTTP " +:+ pretty st +:+ " for " +:+ url)) = false →
  fetchJsonWithCache cfg fenv url
  = (Throw, Some (new_Error ("HTTP " +:+ pretty st +:+ " for " +:+ url)),
     [EvRateLimit; EvFetch 1]).
Proof.
  intros Hmiss Hmax Ho Hnok H429 H500 Hnr.
  unfold fetchJsonWithCache. rewrite Hmiss.
  destruct (MAX_RETRY_ATTEMPTS cfg) as [|m] eqn:Em; [lia|].
  cbn [retryLoop]. rewrite Ho.
  assert (negb ((200 <=? st)%nat && (st <=? 299)%nat) = true) as ->.
  { apply negb_true_iff, andb_false_iff.
    destruct Hnok; [left; by apply Nat.leb_gt|right; by apply Nat.leb_gt]. }
  assert (((st =? 429)%nat || (500 <=? st)%nat) = false) as ->.
  { apply orb_false_iff. split; [by apply Nat.eqb_neq|by apply Nat.leb_gt]. }
  cbn [andb default]. unfold id. rewrite Hnr. by cbn.
Qed.

Lemma fetchJsonWithCache_http_error_propagates_witness :
  let fenv := mkFetchEnv None (λ _, Responded 404 Throw) (λ _, 0%Q) (new_Error "") in
  fetchJsonWithCache defaultConfig fenv "https://pypi.org/pypi/requests/json"
  = (Throw, Some (new_Error "HTTP 404 for https://pypi.org/pypi/requests/json"),
     [EvRateLimit; EvFetch 1]).
Proof.
  intros fenv.
  apply (fetchJsonWithCache_http_error_propagates defaultConfig fenv
           "https://pypi.org/pypi/requests/json" 404 Throw);
    try done; try (vm_compute; lia).
Defined.

(** ** Errors of [computeSimilarOnDemand] and answers of the route *)











(** ** The entries of [computeCooccurrence] *)

Lemma Map_get_elem {V : Type} (m : list (string * V)) (k : string) (v : V) :
  Map_get m k = Some v → (k, v) ∈ m.
Proof.
  induction m as [|[k' v'] m IH]; [done|]. cbn [Map_get].
  destruct (String.eqb_spec k' k) as [->|Hne].
  - intros [= ->]. by left.
  - intros H. right. by apply IH.
Qed.

(** What holds of the map [cooccur] of [computeCooccurrenceFromReverseDeps]:
    its keys are distinct, none of them is the query, every count is
    positive, and every key is a dependency of a dependent of the query. *)
Lemma tallyDependencies_inv (pkg : string) (bound : Q) (deps : list string)
    (m : list (string * Z)) (P : string → Prop) :
  (∀ d, d ∈ deps → P d) →
  NoDup m.*1 ∧ (∀ e, e ∈ m → otherName pkg e.1 ∧ 1 ≤ e.2 ∧ P e.1) →
  NoDup (tallyDependencies pkg bound deps m).*1 ∧
  (∀ e, e ∈ tallyDependencies pkg bound deps m → otherName pkg e.1 ∧ 1 ≤ e.2 ∧ P e.1).
Proof.
  revert m. induction deps as [|d deps IH]; intros m HP Hm; [done|].
  cbn [tallyDependencies].
  assert (∀ d', d' ∈ deps → P d') as HP' by (intros d' Hd'; apply HP; by right).
  destruct (String.eqb (normalizePackageName d) (normalizePackageName pkg)) eqn:E;
    cbn [negb]; [by apply IH|].
  cbv zeta.
  assert (NoDup (Map_set m d (default 0 (Map_get m d) + 1)).*1 ∧
          (∀ e, e ∈ Map_set m d (default 0 (Map_get m d) + 1) →
                otherName pkg e.1 ∧ 1 ≤ e.2 ∧ P e.1)) as Hm'.
  { destruct Hm as [Hnd Hall]. split; [by apply Map_set_keys_NoDup|].
    intros e [->|He]%Map_set_elem; [|by apply Hall]. cbn [fst snd].
    split; [by apply eqb_false_other|]. split; [|apply HP; by left].
    destruct (Map_get m d) as [c|] eqn:Eg; cbn; [|lia].
    apply Map_get_elem in Eg. apply Hall in Eg as (_ & Hc & _). cbn in Hc. lia. }
  destruct (num_geb _ _); [done|by apply IH].
Qed.

Lemma cooccurScan_inv (env : Env) (pkg : string) (limit : Q) (base tasks : list string) :
  (∀ t, t ∈ tasks → t ∈ base) →
  let st := foldl (λ st depPkg, cooccurScanTask env pkg limit depPkg st)
                  (mkCooccurState [] 0) tasks in
  NoDup (cooccur st).*1 ∧
  (∀ e, e ∈ cooccur st →
        otherName pkg e.1 ∧ 1 ≤ e.2 ∧
        ∃ depPkg deps, depPkg ∈ base ∧ packageDeps env depPkg = Some deps ∧ e.1 ∈ deps).
Proof.
  intros Hsub. cbv zeta.
  apply (foldl_invariant
           (λ st, NoDup (cooccur st).*1 ∧
                  (∀ e, e ∈ cooccur st →
                        otherName pkg e.1 ∧ 1 ≤ e.2 ∧
                        ∃ depPkg deps, depPkg ∈ base ∧
                          packageDeps env depPkg = Some deps ∧ e.1 ∈ deps))).
  - intros st depPkg Hdep Hst. unfold cooccurScanTask.
    destruct (packageDeps env depPkg) as [deps|] eqn:Ed; [|done]. cbn [cooccur].
    apply (tallyDependencies_inv pkg (num_mul limit 3) deps (cooccur st)
             (λ k, ∃ depPkg deps, depPkg ∈ base ∧
                     packageDeps env depPkg = Some deps ∧ k ∈ deps)); [|done].
    intros d Hd. exists depPkg, deps. split; [by apply Hsub|done].
  - cbn. split; [constructor|]. by intros e He%elem_of_nil.
Qed.

(** Filtering, sorting and cutting a list keeps a sublist of a permutation. *)
Lemma ranked_names_NoDup {A : Type} (f : A → bool) (cmp : A → A → comparison)
    (g : A → string) (n : nat) (l : list A) :
  NoDup (g <$> l) → NoDup (g <$> take n (Array_sortBy cmp (List.filter f l))).
Proof.
  intros Hl.
  eapply sublist_NoDup; [|apply fmap_sublist, sublist_take].
  rewrite Array_sortBy_perm.
  eapply sublist_NoDup; [exact Hl|apply fmap_sublist, filter_sublist].
Qed.

Lemma cooccurRanked_entries (limit : Q) (scannedCount : nat) (minShared : Z)
    (minJaccard : Q)
    (entries : list (string * Z)) :
  (NoDup entries.*1 →
   NoDup (name <$> cooccurRanked limit scannedCount minShared minJaccard entries)) ∧
  (∀ r, r ∈ cooccurRanked limit scannedCount minShared minJaccard entries →
        (name r, sharedDependents r) ∈ entries).
Proof.
  unfold cooccurRanked. cbv zeta. split.
  - intros Hnd. apply ranked_names_NoDup. rewrite <- list_fmap_compose.
    by replace (fmap _ entries) with (entries.*1) by (by apply list_fmap_ext).
  - intros r Hr%Array_slice0_elem. apply Array_sortBy_elem in Hr.
    apply filter_elem in Hr as [Hr _].
    apply list_elem_of_fmap in Hr as ([k c] & -> & He). done.
Qed.

Lemma computeCooccurrenceFromReverseDeps_entries (cfg : Config) (env : Env)
    (pkg : string) (limit : Q) (base : list string) (maxScan : option nat) :
  let rs := computeCooccurrenceFromReverseDeps cfg env pkg limit base maxScan in
  NoDup (name <$> rs) ∧
  (∀ r, r ∈ rs →
        otherName pkg (name r) ∧ 1 ≤ sharedDependents r ∧
        ∃ depPkg deps, depPkg ∈ base ∧ packageDeps env depPkg = Some deps ∧
                       name r ∈ deps).
Proof.
  unfold computeCooccurrenceFromReverseDeps. cbv zeta.
  match goal with
  | |- context [foldl ?f (mkCooccurState [] 0) ?tasks] =>
      pose proof (cooccurScan_inv env pkg limit base tasks) as Hinv;
      set (st := foldl f (mkCooccurState [] 0) tasks) in *
  end.
  destruct Hinv as [Hnd Hall].
  { intros t Ht%completed_elem. by apply elem_of_take_elem in Ht. }
  assert (∀ sc ms mj,
            NoDup (name <$> cooccurRanked limit sc ms mj (cooccur st)) ∧
            (∀ r, r ∈ cooccurRanked limit sc ms mj (cooccur st) →
                  otherName pkg (name r) ∧ 1 ≤ sharedDependents r ∧
                  ∃ depPkg deps, depPkg ∈ base ∧ packageDeps env depPkg = Some deps ∧
                                 name r ∈ deps)) as Hranked.
  { intros sc ms mj. destruct (cooccurRanked_entries limit sc ms mj (cooccur st))
      as [H1 H2].
    split; [by apply H1|]. intros r Hr. apply (Hall _ (H2 r Hr)). }
  destruct (_ && _)%bool; [|apply Hranked].
  destruct (0 <? _)%nat; apply Hranked.
Qed.

(** *** Distinct names *)





(** When the query has reverse dependents, every entry that
    [computeCooccurrence] returns names a package other than the query that
    is a dependency of one of the query's dependents, with a positive
    count. *)
Theorem computeCooccurrence_reverse_entries (cfg : Config) (env : Env) (pkg : string)
    (limit : Q) (maxScan : option nat) :
  getReverseDeps env pkg ≠ [] →
  ∃ rs, computeCooccurrence cfg env pkg limit maxScan = Ok rs ∧
    ∀ r, r ∈ rs →
      normalizePackageName (name r) ≠ normalizePackageName pkg ∧
      1 ≤ sharedDependents r ∧
      ∃ depPkg deps, depPkg ∈ getReverseDeps env pkg ∧
                     packageDeps env depPkg = Some deps ∧ name r ∈ deps.
Proof.
  intros Hne. eexists. split; [by apply computeCooccurrence_reverse|].
  apply computeCooccurrenceFromReverseDeps_entries.
Qed.

Lemma computeCooccurrence_reverse_entries_witness :
  ∃ rs, computeCooccurrence defaultConfig env_cooccur "q" 10 None = Ok rs ∧
    ∀ r, r ∈ rs →
      normalizePackageName (name r) ≠ normalizePackageName "q" ∧
      1 ≤ sharedDependents r ∧
      ∃ depPkg deps, depPkg ∈ getReverseDeps env_cooccur "q" ∧
                     packageDeps env_cooccur depPkg = Some deps ∧ name r ∈ deps.
Proof.
  apply (computeCooccurrence_reverse_entries defaultConfig env_cooccur "q" 10 None).
  by vm_compute.
Defined.

(** ** Range and extremes of the Jaccard score *)

(** Below 2^53 a proper fraction does not round to 1. *)
Lemma num_div_one_inv (s u : Z) : 0 < u < 2 ^ 53 → s ≤ u → num_div s u = 1%Q → s = u.
Proof.
  intros [Hu Hu'] Hs H. destruct (decide (s = u)) as [|Hne]; [done|]. exfalso.
  assert (num_div s u <= 1 - (1 # 2 ^ 53))%Q as Hle.
  { assert (double (1 - (1 # 2 ^ 53)) = Qred (1 - (1 # 2 ^ 53))) as Ed by (by vm_compute).
    rewrite <- (Qred_correct (1 - _)), <- Ed. unfold num_div. apply double_mono.
    assert (0 < inject_Z u)%Q by (change 0%Q with (inject_Z 0); by rewrite <- Zlt_Qlt).
    apply Qle_shift_div_r; [done|].
    assert (inject_Z s <= inject_Z u - 1)%Q as Hs'.
    { change 1%Q with (inject_Z 1). unfold Qminus. rewrite <- inject_Z_opp, <- inject_Z_plus.
      rewrite <- Zle_Qle. lia. }
    assert (inject_Z u <= inject_Z (2 ^ 53))%Q as Hu'' by (rewrite <- Zle_Qle; lia).
    eapply Qle_trans; [exact Hs'|].
    assert ((1 # 2 ^ 53) * inject_Z u <= 1)%Q as Hfrac.
    { eapply Qle_trans; [apply Qmult_le_l; [done|exact Hu'']|]. by vm_compute. }
    lra. }
  rewrite H in Hle. by vm_compute in Hle.
Qed.

(** A positive quotient does not round to 0. *)
Lemma num_div_zero_inv (s u : Z) : 0 < u → 0 ≤ s → num_div s u = 0%Q → s = 0.
Proof.
  intros Hu Hs H. destruct (decide (s = 0)) as [|Hne]; [done|]. exfalso.
  assert (0 < inject_Z s / inject_Z u)%Q as Hpos.
  { apply Qlt_shift_div_l.
    - change 0%Q with (inject_Z 0). by rewrite <- Zlt_Qlt.
    - rewrite Qmult_0_l. change 0%Q with (inject_Z 0). rewrite <- Zlt_Qlt. lia. }
  unfold num_div, double in H.
  destruct (Qcompare_spec (inject_Z s / inject_Z u) 0) as [E|E|E];
    [lra|lra|].
  pose proof (double_pos_pos _ Hpos) as Hd. rewrite H in Hd. by vm_compute in Hd.
Qed.

(** The score of two sets lies between 0 and 1; it is 0 exactly when they
    have no member in common and, for sets of fewer than 2^53 members in
    all (beyond that a quotient below 1 can round to 1), it is 1 exactly
    when the sets are non-empty and have the same members. *)
Theorem jaccardSimilarity_score_extremes (a b : list string) :
  NoDup a → NoDup b → Set_size a + Set_size b < 2 ^ 53 →
  ((0 <= score (jaccardSimilarity a b))%Q ∧ (score (jaccardSimilarity a b) <= 1)%Q) ∧
  (score (jaccardSimilarity a b) = 1%Q ↔ a ≠ [] ∧ ∀ x, x ∈ a ↔ x ∈ b) ∧
  (score (jaccardSimilarity a b) = 0%Q ↔ ∀ x, x ∈ a → x ∉ b).
Proof.
  intros Ha Hb Hsize. rewrite jaccardSimilarity_standard by done.
  rewrite standard_score.
  destruct (standard_fields a b Ha Hb) as [-> ->].
  set (X := list_to_set a : gset string). set (Y := list_to_set b : gset string).
  assert (size (X ∪ Y) ≤ length a + length b)%nat as Hub.
  { rewrite size_union_alt.
    assert (size (Y ∖ X) ≤ size Y)%nat by (apply subseteq_size; set_solver).
    assert (size X = length a) by (unfold X; by rewrite size_list_to_set).
    assert (size Y = length b) by (unfold Y; by rewrite size_list_to_set).
    lia. }
  unfold Set_size in Hsize.
  assert (∀ x, x ∈ X ↔ x ∈ a) as HX by (intros; apply elem_of_list_to_set).
  assert (∀ x, x ∈ Y ↔ x ∈ b) as HY by (intros; apply elem_of_list_to_set).
  assert (size (X ∩ Y) ≤ size (X ∪ Y))%nat as Hle by (apply subseteq_size; set_solver).
  destruct (Z.ltb_spec 0 (Z.of_nat (size (X ∪ Y)))) as [Hpos|Hzero].
  - split; [split; [apply num_div_nonneg; lia|apply num_div_le_1; lia]|].
    split; split.
    + intros H1%num_div_one_inv; [|lia|lia].
      assert (X ∩ Y = X ∪ Y) as Heq.
      { apply set_subseteq_size_eq; [set_solver|lia]. }
      split.
      * intros ->. assert (size (X ∩ Y) = 0%nat); [|lia].
        apply size_empty_iff. set_solver.
      * intros x. rewrite <- HX, <- HY. set_solver.
    + intros [_ Hsame].
      assert (X ∩ Y = X ∪ Y) as -> by (apply set_eq; intros x; set_solver).
      by apply num_div_same.
    + intros H0%num_div_zero_inv; [|done|lia].
      assert (X ∩ Y ≡ ∅) as He by (apply size_empty_iff; lia).
      intros x Hx Hx'. apply HX in Hx. apply HY in Hx'. set_solver.
    + intros Hdis.
      assert (X ∩ Y ≡ ∅) as He.
      { apply elem_of_equiv_empty. intros x [Hx Hx']%elem_of_intersection.
        apply HX in Hx. apply HY in Hx'. by apply (Hdis x). }
      apply size_empty_iff in He. rewrite He. apply num_div_zero.
  - assert (X ∪ Y ≡ ∅) as He by (apply size_empty_iff; lia).
    assert (a = []) as ->.
    { destruct a as [|x a]; [done|]. exfalso.
      assert (x ∈ X ∪ Y) as Hin by (apply elem_of_union_l, HX; by left).
      set_solver. }
    split; [split; [apply Qle_refl|done]|].
    split; split; try done.
    + by intros [? _].
    + by intros _ x Hx%elem_of_nil.
Qed.

Lemma jaccardSimilarity_score_extremes_witness :
  ((0 <= score (jaccardSimilarity ["a"; "b"] ["b"; "a"]))%Q ∧
   (score (jaccardSimilarity ["a"; "b"] ["b"; "a"]) <= 1)%Q) ∧
  (score (jaccardSimilarity ["a"; "b"] ["b"; "a"]) = 1%Q ↔
   ["a"; "b"] ≠ [] ∧ ∀ x : string, x ∈ ["a"; "b"] ↔ x ∈ ["b"; "a"]) ∧
  (score (jaccardSimilarity ["a"; "b"] ["b"; "a"]) = 0%Q ↔
   ∀ x : string, x ∈ ["a"; "b"] → x ∉ ["b"; "a"]).
Proof.
  apply (jaccardSimilarity_score_extremes ["a"; "b"] ["b"; "a"]);
    [apply (bool_decide_unpack _); by vm_compute..|by vm_compute].
Defined.

(** ** lib/jaccardBitset.ts *)

Lemma Z_ltb_trans (x y z : Z) : (x <? y) = true → (y <? z) = true → (x <? z) = true.
Proof. rewrite !Z.ltb_lt. lia. Qed.

Lemma Z_ltb_total (x y : Z) : (x <? y) = false → x ≠ y → (y <? x) = true.
Proof. rewrite Z.ltb_ge, Z.ltb_lt. lia. Qed.

Lemma increasing_Z_NoDup (l : list Z) : increasing Z.ltb l → NoDup l.
Proof.
  induction l as [|x l IH]; intros H; [constructor|].
  apply increasing_cons_inv in H as [H Hx]. constructor; [|by apply IH].
  by apply (below_all_not_elem Z.ltb Z.ltb_irrefl).
Qed.

Lemma twoPointer_Z_count (a b : list Z) :
  increasing Z.ltb a → increasing Z.ltb b →
  twoPointer Z.eqb Z.ltb a b 0
  = Z.of_nat (size (list_to_set a ∩ list_to_set b : gset Z)).
Proof.
  intros Ha Hb.
  rewrite (twoPointer_count Z.eqb Z.ltb Z.eqb_eq Z.ltb_irrefl Z_ltb_trans Z_ltb_total)
    by done.
  rewrite Z.add_0_l. f_equal.
  rewrite <- (size_list_to_set (C:=gset Z) (filter (.∈ b) a))
    by (by apply NoDup_filter, increasing_Z_NoDup).
  f_equal. apply set_eq. intros x.
  rewrite elem_of_intersection, !elem_of_list_to_set, list_elem_of_filter. tauto.
Qed.

Lemma size_union_inter_Z (X Y : gset Z) :
  Z.of_nat (size (X ∪ Y)) = Z.of_nat (size X) + Z.of_nat (size Y) - Z.of_nat (size (X ∩ Y)).
Proof.
  rewrite size_union_alt, size_difference_alt.
  assert (size (Y ∩ X) ≤ size Y)%nat by (apply subseteq_size; set_solver).
  replace (X ∩ Y) with (Y ∩ X) by set_solver. lia.
Qed.

(** [intersectCount] is between 0 and the length of the shorter array; on
    strictly increasing arrays it is the number of common elements, and it
    does not depend on the order of its arguments. *)
Theorem intersectCount_spec (a b : list Z) :
  0 ≤ intersectCount a b ≤ Z.min (Z.of_nat (length a)) (Z.of_nat (length b)) ∧
  (increasing Z.ltb a → increasing Z.ltb b →
   intersectCount a b = Z.of_nat (size (list_to_set a ∩ list_to_set b : gset Z)) ∧
   intersectCount a b = intersectCount b a).
Proof.
  assert (∀ a b : list Z, increasing Z.ltb a → increasing Z.ltb b →
            intersectCount a b
            = Z.of_nat (size (list_to_set a ∩ list_to_set b : gset Z))) as Hcount.
  { intros a' b' Ha Hb. unfold intersectCount.
    destruct a' as [|x a'].
    { cbn [length Nat.eqb orb].
      replace (list_to_set [] ∩ list_to_set b' : gset Z) with (∅ : gset Z) by set_solver.
      by rewrite size_empty. }
    destruct b' as [|y b'].
    { cbn [length Nat.eqb orb].
      replace (list_to_set (x :: a') ∩ list_to_set [] : gset Z) with (∅ : gset Z)
        by set_solver.
      by rewrite size_empty. }
    cbn [length Nat.eqb orb]. by apply twoPointer_Z_count. }
  split.
  - unfold intersectCount. destruct (_ || _); [lia|].
    pose proof (twoPointer_bound Z.eqb Z.ltb a b 0). lia.
  - intros Ha Hb. split; [by apply Hcount|].
    rewrite !Hcount by done. do 2 f_equal. set_solver.
Qed.

(** [jaccardBitset] is between 0 and 1 on all arrays; on strictly increasing
    arrays it is the Jaccard index of the two sets of identifiers, and it
    does not depend on the order of its arguments. *)
Theorem jaccardBitset_exact (a b : list Z) :
  ((0 <= jaccardBitset a b)%Q ∧ (jaccardBitset a b <= 1)%Q) ∧
  (increasing Z.ltb a → increasing Z.ltb b →
   let A : gset Z := list_to_set a in
   let B : gset Z := list_to_set b in
   jaccardBitset a b
   = (if decide (a = [] ∨ b = []) then 0%Q
      else num_div (Z.of_nat (size (A ∩ B))) (Z.of_nat (size (A ∪ B)))) ∧
   jaccardBitset a b = jaccardBitset b a).
Proof.
  assert (∀ a b : list Z, increasing Z.ltb a → increasing Z.ltb b →
            jaccardBitset a b
            = (if decide (a = [] ∨ b = []) then 0%Q
               else num_div (Z.of_nat (size (list_to_set a ∩ list_to_set b : gset Z)))
                            (Z.of_nat (size (list_to_set a ∪ list_to_set b : gset Z)))))
    as Hexact.
  { intros a' b' Ha Hb. unfold jaccardBitset.
    destruct a' as [|x a']; [by rewrite decide_True by by left|].
    destruct b' as [|y b']; [by rewrite decide_True by by right|].
    rewrite decide_False by (by intros [?|?]).
    cbn [length Nat.eqb orb]. cbv zeta.
    rewrite twoPointer_Z_count by done. f_equal.
    rewrite size_union_inter_Z.
    rewrite !size_list_to_set by by apply increasing_Z_NoDup. done. }
  split.
  - unfold jaccardBitset. destruct (_ || _) eqn:E; [done|]. cbv zeta.
    apply orb_false_iff in E as [Ea Eb].
    apply Nat.eqb_neq in Ea, Eb.
    pose proof (twoPointer_bound Z.eqb Z.ltb a b 0) as Hb.
    split; [apply num_div_nonneg; lia|apply num_div_le_1; lia].
  - intros Ha Hb A B. split; [by apply Hexact|].
    rewrite !Hexact by done.
    destruct (decide (a = [] ∨ b = [])) as [Hab|Hab].
    + rewrite decide_True by tauto. done.
    + rewrite decide_False by tauto.
      replace (list_to_set b ∩ list_to_set a : gset Z)
        with (list_to_set a ∩ list_to_set b : gset Z) by set_solver.
      replace (list_to_set b ∪ list_to_set a : gset Z)
        with (list_to_set a ∪ list_to_set b : gset Z) by set_solver.
      done.
Qed.

(** ** The two repairs of the heap *)

(** After an item is appended to an ordered heap, [heapSiftUp] from the last
    index gives an ordered heap with the same items; its loop ends within
    [length h] iterations (running it longer changes nothing). *)
Theorem heapSiftUp_restores_order (h : list SimilarItem) (x : SimilarItem) :
  heap_ordered h →
  heap_ordered (heapSiftUp (h ++ [x]) (length h)) ∧
  heapSiftUp (h ++ [x]) (length h) ≡ₚ x :: h ∧
  ∀ fuel, (length h ≤ fuel)%nat →
    heapSiftUp_loop fuel (h ++ [x]) (length h) = heapSiftUp (h ++ [x]) (length h).
Proof.
  intros Ho. unfold heapSiftUp.
  destruct (heapSiftUp_loop_spec (length h) (h ++ [x]) (length h)) as [Ho' Hp].
  - rewrite length_app. simpl. lia.
  - done.
  - by apply ordered_but_up_push.
  - split; [done|]. split.
    + rewrite Hp. by rewrite Permutation_app_comm.
    + intros fuel Hf. by apply heapSiftUp_loop_fuel.
Qed.

Lemma heapSiftUp_restores_order_witness :
  let h := [mkSimilarItem "a" (1 # 10) 1; mkSimilarItem "b" (3 # 10) 1;
            mkSimilarItem "c" (2 # 10) 1] in
  let x := mkSimilarItem "d" (1 # 20) 1 in
  heap_ordered (heapSiftUp (h ++ [x]) (length h)) ∧
  heapSiftUp (h ++ [x]) (length h) ≡ₚ x :: h ∧
  ∀ fuel, (length h ≤ fuel)%nat →
    heapSiftUp_loop fuel (h ++ [x]) (length h) = heapSiftUp (h ++ [x]) (length h).
Proof.
  intros h x. apply (heapSiftUp_restores_order h x).
  intros [|[|[|i]]] a b Hi Ha Hb; [lia| | |done];
    cbn in Ha, Hb; injection Ha as <-; injection Hb as <-; by vm_compute.
Defined.

(** After the root of a non-empty ordered heap is replaced, [heapSiftDown]
    from the root gives an ordered heap holding the new item and the old
    items but the old root; its loop ends within [length h] iterations. *)
Theorem heapSiftDown_restores_order (h : list SimilarItem) (x : SimilarItem) :
  heap_ordered h → h ≠ [] →
  heap_ordered (heapSiftDown (<[0%nat := x]> h) 0) ∧
  heapSiftDown (<[0%nat := x]> h) 0 ≡ₚ x :: tail h ∧
  ∀ fuel, (length h ≤ fuel)%nat →
    heapSiftDown_loop fuel (<[0%nat := x]> h) 0 = heapSiftDown (<[0%nat := x]> h) 0.
Proof.
  intros Ho Hne. unfold heapSiftDown.
  destruct (heapSiftDown_loop_spec (length (<[0%nat := x]> h)) (<[0%nat := x]> h) 0)
    as [Ho' Hp].
  - lia.
  - by apply ordered_but_down_root.
  - split; [done|]. split.
    + rewrite Hp. by destruct h.
    + intros fuel Hf. apply heapSiftDown_loop_fuel; rewrite length_insert; lia.
Qed.

Lemma heapSiftDown_restores_order_witness :
  let h := [mkSimilarItem "a" (1 # 10) 1; mkSimilarItem "b" (3 # 10) 1;
            mkSimilarItem "c" (2 # 10) 1] in
  let x := mkSimilarItem "d" (1 # 2) 1 in
  heap_ordered (heapSiftDown (<[0%nat := x]> h) 0) ∧
  heapSiftDown (<[0%nat := x]> h) 0 ≡ₚ x :: tail h ∧
  ∀ fuel, (length h ≤ fuel)%nat →
    heapSiftDown_loop fuel (<[0%nat := x]> h) 0 = heapSiftDown (<[0%nat := x]> h) 0.
Proof.
  intros h x. apply (heapSiftDown_restores_order h x); [|done].
  intros [|[|[|i]]] a b Hi Ha Hb; [lia| | |done];
    cbn in Ha, Hb; injection Ha as <-; injection Hb as <-; by vm_compute.
Defined.

(** ** Package names *)








(** *** The prefix of a package's file *)






(** A name that begins with white space is filed by the writer under the
    prefix of its first other character, and looked up by the reader under
    "other". *)
Example prefix_files_disagree :
  getPrefixChar " requests" = "r"%string ∧
  getPrefixForPackage " requests" = "other"%string.
Proof. by vm_compute. Qed.

(** ** The range of the scores of [computeSimilarOnDemand] *)

Lemma Set_add_NoDup (s : list string) (x : string) : NoDup s → NoDup (Set_add s x).
Proof.
  intros Hs. unfold Set_add. destruct (Set_has s x) eqn:E; [done|].
  apply NoDup_app. split; [done|]. split; [|apply NoDup_singleton].
  intros y Hy ->%list_elem_of_singleton.
  apply Set_has_true in Hy. congruence.
Qed.

Lemma Set_from_NoDup (l : list string) : NoDup (Set_from l).
Proof.
  unfold Set_from. apply (foldl_invariant NoDup); [|constructor].
  intros s x _. apply Set_add_NoDup.
Qed.

Lemma Set_add_length (s : list string) (x : string) :
  (length (Set_add s x) ≤ S (length s))%nat.
Proof. unfold Set_add. destruct (Set_has s x); [lia|]. rewrite length_app. simpl. lia. Qed.

Lemma foldl_Set_add_length (l acc : list string) :
  (length (foldl Set_add acc l) ≤ length acc + length l)%nat.
Proof.
  revert acc. induction l as [|x l IH]; intros acc; simpl; [lia|].
  etransitivity; [apply IH|]. pose proof (Set_add_length acc x). lia.
Qed.

Lemma Set_from_length (l : list string) : (length (Set_from l) ≤ length l)%nat.
Proof. unfold Set_from. pose proof (foldl_Set_add_length l []). simpl in *. lia. Qed.

Lemma jaccardSimilarity_unit (a b : list string) :
  NoDup a → NoDup b →
  (0 <= score (jaccardSimilarity a b))%Q ∧ (score (jaccardSimilarity a b) <= 1)%Q ∧
  0 ≤ shared (jaccardSimilarity a b).
Proof.
  intros Ha Hb. rewrite jaccardSimilarity_standard by done.
  rewrite standard_score.
  destruct (standard_fields a b Ha Hb) as [-> ->].
  set (X := list_to_set a : gset string). set (Y := list_to_set b : gset string).
  assert (size (X ∩ Y) ≤ size (X ∪ Y))%nat as Hle by (apply subseteq_size; set_solver).
  destruct (Z.ltb_spec 0 (Z.of_nat (size (X ∪ Y)))) as [Hpos|Hzero].
  - split; [apply num_div_nonneg; lia|]. split; [apply num_div_le_1; lia|lia].
  - split; [apply Qle_refl|]. split; [done|lia].
Qed.

(** The items the scoring pass pushes. *)
Lemma evaluateCandidate_range (cfg : Config) (env : Env) (pkg : string) (limit : Q)
    (base : list string) (baseBitset : list Z) (maxLive : nat) (cand : string)
    (st : ScoringState) :
  NoDup base →
  Forall score_in_range (heap st) →
  Forall score_in_range
         (heap (evaluateCandidate cfg env pkg limit base baseBitset maxLive cand st)).
Proof.
  intros Hbase Hall.
  assert (∀ item, score_in_range item →
            Forall score_in_range (heapPushBounded limit (heap st) item)) as Hpush.
  { intros item Hitem. apply Forall_forall. intros y Hy.
    apply heapPushBounded_elem in Hy as [->|Hy]; [done|].
    rewrite Forall_forall in Hall. by apply Hall. }
  assert (∀ deps, score_in_range
            (mkSimilarItem cand
               (toFixed6 (score (jaccardSimilarity base (Set_from deps))))
               (shared (jaccardSimilarity base (Set_from deps))))) as Hexact.
  { intros deps.
    destruct (jaccardSimilarity_unit base (Set_from deps) Hbase (Set_from_NoDup deps))
      as (H0 & H1 & Hs).
    unfold score_in_range. cbn. split; [by apply toFixed6_unit|].
    split; [by apply toFixed6_unit|done]. }
  unfold evaluateCandidate. cbv zeta.
  destruct (String.eqb _ _) eqn:E; [done|].
  destruct (bitsetFastPath _ _ _ _ _ _) as [item|] eqn:Ef.
  { apply bitsetFastPath_item in Ef as (cb & _ & _ & _ & ->). cbn [heap].
    apply Hpush. unfold score_in_range. cbn.
    destruct (jaccardBitset_unit baseBitset cb) as [H0 H1].
    split; [by apply toFixed6_unit|]. split; [by apply toFixed6_unit|done]. }
  destruct (_ && _)%bool; cbn [heap].
  - destruct (Set_size _ =? 0); cbn [heap]; [done|].
    destruct (negb _); cbn [heap]; [done|].
    destruct (_ && _)%bool; cbn [heap]; [|done]. apply Hpush, Hexact.
  - destruct (Set_size _ =? 0); cbn [heap]; [done|].
    destruct (negb _); cbn [heap]; [done|].
    destruct (_ && _)%bool; cbn [heap]; [|done]. apply Hpush, Hexact.
Qed.

Lemma relaxedPass_range (cfg : Config) (env : Env) (pkg : string) (limit : Q)
    (base sortedCandidates : list string) (r : SimilarItem) :
  NoDup base →
  r ∈ relaxedPass cfg env pkg limit base sortedCandidates → score_in_range r.
Proof.
  intros Hbase. unfold relaxedPass. cbv zeta. intros Hr.
  apply Array_slice0_elem in Hr. apply Array_sortBy_elem in Hr.
  revert r Hr. apply Forall_forall.
  apply (foldl_invariant (Forall score_in_range)); [|done].
  intros alt cand _ Halt.
  destruct (String.eqb _ _) eqn:E; [done|].
  destruct (cache_lookup2 _ _ _) as [[|d ds]|]; try done.
  destruct (_ && _)%bool; [|done].
  apply Forall_app. split; [done|]. constructor; [|done].
  destruct (jaccardSimilarity_unit base (Set_from (d :: ds)) Hbase
              (Set_from_NoDup (d :: ds))) as (H0 & H1 & Hs).
  unfold score_in_range. cbn. split; [by apply toFixed6_unit|].
  split; [by apply toFixed6_unit|done].
Qed.

Lemma nameBasedItem_range (cfg : Config) (n : string) :
  (0 <= NAME_BASED_FALLBACK_SCORE cfg)%Q → (NAME_BASED_FALLBACK_SCORE cfg <= 1)%Q →
  score_in_range (nameBasedItem cfg n).
Proof. intros H0 H1. unfold score_in_range. cbn. done. Qed.

Lemma computeSimilarNameBasedFallback_range (cfg : Config) (env : Env)
    (pkg : string) (limit : Q) (r : SimilarItem) :
  (0 <= NAME_BASED_FALLBACK_SCORE cfg)%Q → (NAME_BASED_FALLBACK_SCORE cfg <= 1)%Q →
  r ∈ computeSimilarNameBasedFallback cfg env pkg limit → score_in_range r.
Proof.
  intros H0 H1. unfold computeSimilarNameBasedFallback. cbv zeta.
  destruct (similarNameLoop _ _ _ _ _) as [|n l]; [by intros ?%elem_of_nil|].
  intros (x & -> & _)%list_elem_of_fmap. by apply nameBasedItem_range.
Qed.

Lemma forwardDepsTask_counts (env : Env) (pkg : string) (pkgDepsSet : list string)
    (candidate : string) (similar : list (string * Z)) :
  Forall (λ e, 0 ≤ e.2 ≤ Z.of_nat (length pkgDepsSet)) similar →
  Forall (λ e, 0 ≤ e.2 ≤ Z.of_nat (length pkgDepsSet))
         (forwardDepsTask env pkg pkgDepsSet candidate similar).
Proof.
  intros H. unfold forwardDepsTask.
  destruct (String.eqb _ _); [done|].
  destruct (packageDeps env candidate); [|done]. cbv zeta.
  destruct (0 <? _)%nat; [|done].
  apply Forall_forall. intros e He. apply Map_set_elem in He as [->|He].
  - cbn [snd]. split; [lia|]. apply inj_le.
    apply sublist_length, filter_sublist.
  - rewrite Forall_forall in H. by apply H.
Qed.

Lemma computeSimilarForwardDeps_range (cfg : Config) (env : Env) (pkg : string)
    (limit : Q) (rs : list SimilarItem) (r : SimilarItem) :
  (0 <= NAME_BASED_FALLBACK_SCORE cfg)%Q → (NAME_BASED_FALLBACK_SCORE cfg <= 1)%Q →
  computeSimilarForwardDeps cfg env pkg limit = Ok rs → r ∈ rs → score_in_range r.
Proof.
  intros H0 H1. unfold computeSimilarForwardDeps. intros H Hr.
  assert (∀ rs', Ok (computeSimilarNameBasedFallback cfg env pkg limit) = Ok rs' →
                 r ∈ rs' → score_in_range r) as Hfb.
  { intros rs' [= <-]. by apply computeSimilarNameBasedFallback_range. }
  destruct (packageDeps env pkg) as [pkgDeps|]; [|by eapply Hfb].
  destruct (length pkgDeps =? 0)%nat; [by eapply Hfb|]. cbv zeta in H.
  destruct (Z.eqb_spec (Z.of_nat (length pkgDeps)) 0) as [|Hne]; [by eapply Hfb|].
  destruct (0 <? length _)%nat; [|by eapply Hfb].
  cbn in H. injection H as <-.
  unfold forwardDepsResults in Hr. cbv zeta in Hr.
  apply Array_slice0_elem in Hr. apply Array_sortBy_elem in Hr.
  apply filter_elem in Hr as [Hr _].
  apply list_elem_of_fmap in Hr as (e & -> & He). clear Hfb.
  assert (0 ≤ e.2 ≤ Z.of_nat (length (Set_from (normalizePackageName <$> pkgDeps))))
    as Hcount.
  { revert e He. apply Forall_forall.
    apply (foldl_invariant
             (Forall (λ e, 0 ≤ e.2
                           ≤ Z.of_nat (length (Set_from (normalizePackageName <$> pkgDeps))))));
      [|done].
    intros m c _. apply forwardDepsTask_counts. }
  pose proof (Set_from_length (normalizePackageName <$> pkgDeps)) as Hlen.
  rewrite length_fmap in Hlen.
  unfold score_in_range. cbn.
  assert ((0 <= num_div e.2 (Z.of_nat (length pkgDeps)))%Q ∧
          (num_div e.2 (Z.of_nat (length pkgDeps)) <= 1)%Q) as [Hs0 Hs1].
  { split; [apply num_div_nonneg; lia|apply num_div_le_1; lia]. }
  split; [by apply toFixed6_unit|]. split; [by apply toFixed6_unit|lia].
Qed.

Lemma getReverseDeps_NoDup (env : Env) (pkg : string) : NoDup (getReverseDeps env pkg).
Proof.
  unfold getReverseDeps. cbv zeta.
  destruct (cache_lookup2 _ _ _) as [[|c l]|]; apply Set_from_NoDup.
Qed.

(** With a name-based fallback score between 0 and 1, every item that
    [computeSimilarOnDemand] returns has a score between 0 and 1 and a
    non-negative shared count, whichever strategy produced it and whatever
    the limit: neither the rounding of the division nor that of
    [toFixed(6)] takes a score out of the interval. *)
Theorem computeSimilarOnDemand_scores_in_range (cfg : Config) (env : Env)
    (pkg : string) (limit : Q) (options : Options) (rs : list SimilarItem) :
  (0 <= NAME_BASED_FALLBACK_SCORE cfg)%Q → (NAME_BASED_FALLBACK_SCORE cfg <= 1)%Q →
  computeSimilarOnDemand cfg env pkg limit options = Ok rs →
  ∀ r, r ∈ rs →
    (0 <= jaccard r)%Q ∧ (jaccard r <= 1)%Q ∧ 0 ≤ sharedDependents r.
Proof.
  intros H0 H1 H r Hr. change (score_in_range r).
  destruct (Set_size (getReverseDeps env pkg) <? 1) eqn:Hbase.
  { unfold computeSimilarOnDemand in H. cbv zeta in H. rewrite Hbase in H.
    by eapply computeSimilarForwardDeps_range. }
  destruct (computeSimilarOnDemand_main cfg env pkg limit options rs Hbase H)
    as (bb & ml & cands & sorted & Hrs). cbv zeta in Hrs.
  pose proof (getReverseDeps_NoDup env pkg) as Hnd.
  destruct Hrs as [->|[->| ->]].
  - apply Array_sortBy_elem in Hr.
    revert r Hr. apply Forall_forall.
    apply (foldl_invariant (λ st, Forall score_in_range (heap st))).
    + intros st cand _. by apply evaluateCandidate_range.
    + done.
  - by eapply relaxedPass_range.
  - apply Array_slice0_elem in Hr. unfold nameBasedStrategy in Hr. cbv zeta in Hr.
    apply list_elem_of_fmap in Hr as (x & -> & _). by apply nameBasedItem_range.
Qed.

Lemma computeSimilarOnDemand_scores_in_range_witness :
  let r := mkSimilarItem "y" (1 # 2) 2 in
  computeSimilarOnDemand defaultConfig env_ties "q" 10 noOptions
  = Ok [mkSimilarItem "x" (1 # 2) 1; r] ∧
  (0 <= jaccard r)%Q ∧ (jaccard r <= 1)%Q ∧ 0 ≤ sharedDependents r.
Proof.
  intros r. split; [by vm_compute|].
  apply (computeSimilarOnDemand_scores_in_range defaultConfig env_ties "q" 10 noOptions
           [mkSimilarItem "x" (1 # 2) 1; r]); [by vm_compute..|].
  right. by left.
Defined.

(** ** [computeSimilarPeerOnly] *)





